(** * RepliKat: the route crawler [getRoutesFromPage]

    A shallow embedding of the server action [getRoutesFromPage] and of the
    closures it defines ([normalizeUrl], [getPathFromUrl], [isValidUrl],
    [fetchWithRetry], [crawlPage]), with the properties of the crawl engine
    proved about it.

    Layout: the definitions come first (characters, the [URL] class of the
    platform, the network, the crawler), the lemmas and theorems after. *)

From Stdlib Require Import ZArith NArith QArith Qround List Bool Ascii String Lia.
From stdpp Require Import gmap strings list.

#[local] Set Warnings "-register-all,-clear-no-such-hyp".

(* ===================================================================== *)
(** * Part I: definitions *)
(* ===================================================================== *)

(** ** Characters and character strings *)

(** The parser works on lists of characters; strings are converted at the
    boundary of the [URL] class.  A character is a byte: text outside ASCII
    is its UTF-8 encoding. *)
Definition chars := list ascii.

Definition lit (s : string) : chars := list_ascii_of_string s.
Definition str (l : chars) : string := string_of_list_ascii l.

Definition code (c : ascii) : N := N_of_ascii c.
Definition chr (n : N) : ascii := ascii_of_N n.

Definition between (lo hi : N) (c : ascii) : bool :=
  ((lo <=? code c) && (code c <=? hi))%N.

Definition one_of (s : string) (c : ascii) : bool :=
  existsb (Ascii.eqb c) (lit s).

Definition dquote : ascii := chr 34.

Definition is_digit (c : ascii) : bool := between 48 57 c.
Definition is_upper (c : ascii) : bool := between 65 90 c.
Definition is_lower (c : ascii) : bool := between 97 122 c.
Definition is_alpha (c : ascii) : bool := is_upper c || is_lower c.
Definition is_hex_digit (c : ascii) : bool :=
  is_digit c || between 65 70 c || between 97 102 c.

Definition to_lower (c : ascii) : ascii :=
  if is_upper c then chr (code c + 32) else c.

Fixpoint ceqb (a b : chars) : bool :=
  match a, b with
  | [], [] => true
  | x :: a', y :: b' => Ascii.eqb x y && ceqb a' b'
  | _, _ => false
  end.

Fixpoint drop_while {A} (p : A -> bool) (l : list A) : list A :=
  match l with
  | [] => []
  | x :: l' => if p x then drop_while p l' else l
  end.

(** [span p s]: the longest prefix without a character in [p], and the rest
    (empty, or starting at the first character in [p]). *)
Fixpoint span (p : ascii -> bool) (s : chars) : chars * chars :=
  match s with
  | [] => ([], [])
  | c :: s' => if p c then ([], s) else let '(a, b) := span p s' in (c :: a, b)
  end.

(** [break p s]: the text before the first character in [p], and the text
    after it when there is one. *)
Definition break (p : ascii -> bool) (s : chars) : chars * option chars :=
  let '(a, b) := span p s in
  (a, match b with [] => None | _ :: r => Some r end).

(** [break_last p s]: the text before the last character in [p] when there is
    one, and the text after it. *)
Definition break_last (p : ascii -> bool) (s : chars) : option chars * chars :=
  let '(b, a) := span p (rev s) in
  (match a with [] => None | _ :: r => Some (rev r) end, rev b).

(** [split_on p s]: the pieces of [s] between the characters in [p]; there is
    always at least one piece. *)
Fixpoint split_on (p : ascii -> bool) (s : chars) : list chars :=
  match s with
  | [] => [[]]
  | c :: s' =>
      if p c then [] :: split_on p s'
      else match split_on p s' with
           | [] => [[c]]
           | x :: xs => (c :: x) :: xs
           end
  end.

Definition starts_with (pre s : chars) : bool :=
  ceqb pre (firstn (length pre) s).

(** Decimal numerals. *)
Fixpoint dec_digits (fuel : nat) (n : N) (acc : chars) : chars :=
  match fuel with
  | O => acc
  | S f =>
      let acc' := chr (48 + n mod 10) :: acc in
      if (n / 10 =? 0)%N then acc' else dec_digits f (n / 10) acc'
  end.

Definition dec_of_N (n : N) : chars := dec_digits (S (N.to_nat (N.log2 n))) n [].

Definition dec_value (s : chars) : N :=
  fold_left (fun acc c => (acc * 10 + (code c - 48))%N) s 0%N.

(** A number converted to a string, as a template literal does it for an
    integer. *)
Definition show_Z (z : Z) : string :=
  if (z <? 0)%Z then String "-" (str (dec_of_N (Z.abs_N z)))
  else str (dec_of_N (Z.to_N z)).

(** ** The platform's [URL] class

    [new URL(input, base)], the getters [href], [hostname], [pathname] and the
    setters [search] and [hash] belong to the JavaScript runtime, not to the
    repository.  They are modelled after the URL Standard (the basic URL parser
    and the URL serializer, as run by Node.js), restricted to the part that
    needs no Unicode tables; on what lies outside, the model reports a parse
    failure, so every URL the model accepts is parsed as the Standard parses it:
      - the [file] scheme;
      - IPv6 hosts (a host with a bracket);
      - hosts of a special scheme that hold a percent sign or a character
        outside ASCII (percent-decoding and IDNA are not modelled; an ASCII
        domain is lower-cased and taken as it is);
      - hosts of a special scheme that end in a number and are not four
        decimal parts in canonical form (the IPv4 number parser of hexadecimal,
        octal and short forms is not modelled).
    [URL.left_out] tells these inputs from those on which the Standard
    itself has a failure. *)
Module URL.

Definition is_c0_or_space (c : ascii) : bool := (code c <=? 32)%N.
Definition is_tab_or_newline (c : ascii) : bool := one_of (str [chr 9; chr 10; chr 13]) c.

Definition is_slash (c : ascii) : bool := Ascii.eqb c "/".
Definition is_backslash (c : ascii) : bool := Ascii.eqb c "\".
Definition is_colon (c : ascii) : bool := Ascii.eqb c ":".
Definition is_at (c : ascii) : bool := Ascii.eqb c "@".
Definition is_dot (c : ascii) : bool := Ascii.eqb c ".".
Definition is_hash (c : ascii) : bool := Ascii.eqb c "#".
Definition is_qmark (c : ascii) : bool := Ascii.eqb c "?".
Definition is_space (c : ascii) : bool := Ascii.eqb c " ".

(** *** Percent-encode sets

    The caret is left as it is in a path, as Node.js has it; it is encoded
    in the credentials. *)
Definition c0_control_set (c : ascii) : bool := ((code c <? 32) || (126 <? code c))%N.
Definition fragment_set (c : ascii) : bool :=
  c0_control_set c || one_of " <>`" c || Ascii.eqb c dquote.
Definition query_set (c : ascii) : bool :=
  c0_control_set c || one_of " #<>" c || Ascii.eqb c dquote.
Definition special_query_set (c : ascii) : bool := query_set c || Ascii.eqb c "'".
Definition path_set (c : ascii) : bool := query_set c || one_of "?`{}" c.
Definition userinfo_set (c : ascii) : bool := path_set c || one_of "/:;=@[\]^|" c.

Definition hex_digit (n : N) : ascii :=
  if (n <? 10)%N then chr (48 + n) else chr (55 + n).

Definition percent_byte (c : ascii) : chars :=
  ["%"%char; hex_digit (code c / 16); hex_digit (code c mod 16)].

Definition percent_encode (set : ascii -> bool) (s : chars) : chars :=
  flat_map (fun c => if set c then percent_byte c else [c]) s.

(** *** The URL record *)
Inductive url_path :=
| PathList (segments : list chars)
| PathOpaque (p : chars).

Record t := mk {
  scheme : chars;
  username : chars;
  password : chars;
  host : option chars;
  port : option N;
  path : url_path;
  query : option chars;
  fragment : option chars
}.

Definition is_special (sch : chars) : bool :=
  existsb (ceqb sch) [lit "ftp"; lit "file"; lit "http"; lit "https"; lit "ws"; lit "wss"].

Definition default_port (sch : chars) : option N :=
  if ceqb sch (lit "ftp") then Some 21%N
  else if ceqb sch (lit "http") || ceqb sch (lit "ws") then Some 80%N
  else if ceqb sch (lit "https") || ceqb sch (lit "wss") then Some 443%N
  else None.

(** *** Scheme *)
Definition is_scheme_char (c : ascii) : bool :=
  is_alpha c || is_digit c || one_of "+-." c.

(** The scheme start state and the scheme state: a letter, then letters,
    digits, [+], [-] and [.] up to a colon.  Anything else is no scheme. *)
Definition scan_scheme (s : chars) : option (chars * chars) :=
  match s with
  | c :: _ =>
      if is_alpha c then
        let '(sch, rest) := span (fun c => negb (is_scheme_char c)) s in
        match rest with
        | d :: rest' => if is_colon d then Some (map to_lower sch, rest') else None
        | [] => None
        end
      else None
  | [] => None
  end.

(** *** Host *)
Definition forbidden_host (c : ascii) : bool :=
  one_of (str [chr 0; chr 9; chr 10; chr 13]) c || one_of " #/:<>?@[\]^|" c.

Definition forbidden_domain (c : ascii) : bool :=
  forbidden_host c || (code c <=? 31)%N || Ascii.eqb c "%" || (code c =? 127)%N.

Definition is_hex_number (s : chars) : bool :=
  match s with
  | z :: x :: r => Ascii.eqb z "0" && Ascii.eqb (to_lower x) "x" && forallb is_hex_digit r
  | _ => false
  end.

(** The ends-in-a-number checker. *)
Definition ends_in_number (h : chars) : bool :=
  let parts := split_on is_dot h in
  let parts' :=
    match List.last parts [] with
    | [] => if (length parts =? 1)%nat then [] else removelast parts
    | _ => parts
    end in
  match parts' with
  | [] => false
  | _ =>
      let l := List.last parts' [] in
      (negb (ceqb l []) && forallb is_digit l) || is_hex_number l
  end.

Definition canonical_ipv4_part (p : chars) : bool :=
  match p with
  | [] => false
  | [c] => is_digit c
  | c :: _ => is_digit c && negb (Ascii.eqb c "0") && forallb is_digit p
              && (length p <=? 3)%nat && (dec_value p <=? 255)%N
  end.

Definition canonical_ipv4 (h : chars) : bool :=
  let parts := split_on is_dot h in
  (length parts =? 4)%nat && forallb canonical_ipv4_part parts.

(** The host parser: a domain (or a canonical IPv4 address) for a special
    scheme, an opaque host otherwise. *)
Definition parse_host (special : bool) (h : chars) : option chars :=
  if special then
    match h with
    | [] => None
    | _ =>
        if existsb (fun c => (128 <=? code c)%N || Ascii.eqb c "%") h then None
        else
          let d := map to_lower h in
          if existsb forbidden_domain d then None
          else if ends_in_number d then (if canonical_ipv4 d then Some d else None)
          else Some d
    end
  else if existsb forbidden_host h then None
  else Some (percent_encode c0_control_set h).

(** The port state. *)
Definition parse_port (sch : chars) (p : chars) : option (option N) :=
  if forallb is_digit p then
    match p with
    | [] => Some None
    | _ =>
        let n := dec_value p in
        if (n <=? 65535)%N then
          Some (if decide (default_port sch = Some n) then None else Some n)
        else None
    end
  else None.

(** *** Path *)
Definition is_single_dot (buf : chars) : bool :=
  let b := map to_lower buf in
  ceqb b (lit ".") || ceqb b (lit "%2e").

Definition is_double_dot (buf : chars) : bool :=
  let b := map to_lower buf in
  ceqb b (lit "..") || ceqb b (lit ".%2e") || ceqb b (lit "%2e.") || ceqb b (lit "%2e%2e").

(** Shorten a path (the Windows drive letter rule is for [file] only). *)
Definition shorten (segs : list chars) : list chars := removelast segs.

(** What the path state does with its buffer when it meets a separator
    ([at_end = false]) or the end of the path ([at_end = true]). *)
Definition path_push (segs : list chars) (buf : chars) (at_end : bool) : list chars :=
  if is_double_dot buf then
    (if at_end then shorten segs ++ [[]] else shorten segs)
  else if is_single_dot buf then
    (if at_end then segs ++ [[]] else segs)
  else segs ++ [buf].

Definition is_separator (special : bool) (c : ascii) : bool :=
  is_slash c || (special && is_backslash c).

(** The path state, from a given path and buffer, up to the end of the
    input (which holds no [?] and no [#] any more). *)
Fixpoint path_state (special : bool) (segs : list chars) (buf : chars) (s : chars)
  : list chars :=
  match s with
  | [] => path_push segs buf true
  | c :: s' =>
      if is_separator special c then path_state special (path_push segs buf false) [] s'
      else path_state special segs
             (buf ++ (if path_set c then percent_byte c else [c])) s'
  end.

(** The path start state, at what follows the authority: nothing, or a
    separator and the path. *)
Definition path_start (special : bool) (rest : chars) : list chars :=
  match rest with
  | [] => if special then path_state true [] [] [] else []
  | _ :: r => path_state special [] [] r
  end.

(** *** Authority: credentials, host and port *)

(** The credentials, from the text before the last [@]. *)
Definition parse_credentials (userinfo : option chars) : chars * chars :=
  match userinfo with
  | None => ([], [])
  | Some ui =>
      let '(u, p) := break is_colon ui in
      (percent_encode userinfo_set u,
       percent_encode userinfo_set (match p with Some p => p | None => [] end))
  end.

(** The host state and the port state, on the text after the
    credentials. *)
Definition parse_hostport (special : bool) (sch : chars) (hostport : chars)
  : option (chars * option N) :=
  if existsb (Ascii.eqb "[") hostport then None
  else
    let '(h, portstr) := break is_colon hostport in
    match h, portstr with
    | [], Some _ => None
    | _, _ =>
        match parse_host special h,
              parse_port sch (match portstr with Some p => p | None => [] end) with
        | Some h', Some p' => Some (h', p')
        | _, _ => None
        end
    end.

(** The authority state: the authority ends at the first separator. *)
Definition parse_authority (special : bool) (sch : chars) (s : chars)
  : option (chars * chars * chars * option N * chars) :=
  let '(auth, rest) := span (is_separator special) s in
  let '(userinfo, hostport) := break_last is_at auth in
  match userinfo, hostport with
  | Some _, [] => None
  | _, _ =>
      match parse_hostport special sch hostport with
      | Some (h, p) =>
          let '(user, pass) := parse_credentials userinfo in
          Some (user, pass, h, p, rest)
      | None => None
      end
  end.

Definition encode_query (sch : chars) (q : option chars) : option chars :=
  option_map (percent_encode (if is_special sch then special_query_set else query_set)) q.

Definition encode_fragment (f : option chars) : option chars :=
  option_map (percent_encode fragment_set) f.

(** From the authority state to the end. *)
Definition from_authority (sch : chars) (s : chars) (q f : option chars) : option t :=
  let special := is_special sch in
  match parse_authority special sch s with
  | Some (user, pass, h, p, rest) =>
      Some (mk sch user pass (Some h) p (PathList (path_start special rest))
              (encode_query sch q) (encode_fragment f))
  | None => None
  end.

(** The relative state and the relative slash state, for a base whose path
    is a list. *)
Definition relative (b : t) (m : chars) (q f : option chars) : option t :=
  match path b with
  | PathOpaque _ => None
  | PathList bsegs =>
      let sch := scheme b in
      let special := is_special sch in
      let copy p q' :=
        Some (mk sch (username b) (password b) (host b) (port b) (PathList p)
                q' (encode_fragment f)) in
      match m with
      | [] => copy bsegs (match q with Some _ => encode_query sch q | None => query b end)
      | c :: m' =>
          if is_separator special c then
            match m' with
            | c2 :: m'' =>
                if special && (is_slash c2 || is_backslash c2) then
                  from_authority sch (drop_while (is_separator true) m') q f
                else if is_slash c2 then from_authority sch m'' q f
                else copy (path_state special [] [] m') (encode_query sch q)
            | [] => copy (path_state special [] [] m') (encode_query sch q)
            end
          else copy (path_state special (shorten bsegs) [] m) (encode_query sch q)
      end
  end.

(** The states that follow a scheme. *)
Definition with_scheme (sch rest : chars) (q f : option chars) (base : option t)
  : option t :=
  if ceqb sch (lit "file") then None
  else if is_special sch then
    match base with
    | Some b =>
        if ceqb (scheme b) sch && negb (starts_with (lit "//") rest)
        then relative b rest q f
        else from_authority sch (drop_while (is_separator true) rest) q f
    | None => from_authority sch (drop_while (is_separator true) rest) q f
    end
  else
    match rest with
    | c :: r =>
        if is_slash c then
          match r with
          | c2 :: r2 =>
              if is_slash c2 then from_authority sch r2 q f
              else Some (mk sch [] [] None None (PathList (path_state false [] [] r))
                           (encode_query sch q) (encode_fragment f))
          | [] => Some (mk sch [] [] None None (PathList (path_state false [] [] r))
                          (encode_query sch q) (encode_fragment f))
          end
        else Some (mk sch [] [] None None (PathOpaque (percent_encode c0_control_set rest))
                     (encode_query sch q) (encode_fragment f))
    | [] => Some (mk sch [] [] None None (PathOpaque [])
                    (encode_query sch q) (encode_fragment f))
    end.

(** The no scheme state. *)
Definition no_scheme (m : chars) (q f : option chars) (base : option t) : option t :=
  match base with
  | None => None
  | Some b =>
      match path b with
      | PathOpaque p =>
          match m, q, f with
          | [], None, Some _ =>
              Some (mk (scheme b) [] [] None None (PathOpaque p) (query b) (encode_fragment f))
          | _, _, _ => None
          end
      | PathList _ => relative b m q f
      end
  end.

Definition trim (s : chars) : chars :=
  rev (drop_while is_c0_or_space (rev (drop_while is_c0_or_space s))).

Definition remove_tab_newline (s : chars) : chars :=
  List.filter (fun c => negb (is_tab_or_newline c)) s.

(** The basic URL parser.  A fragment starts at the first [#] and a query at
    the first [?] before it, in whatever state the parser is. *)
Definition basic_url_parse (input : chars) (base : option t) : option t :=
  let s := remove_tab_newline (trim input) in
  let '(s1, f) := break is_hash s in
  let '(m, q) := break is_qmark s1 in
  match scan_scheme m with
  | Some (sch, rest) => with_scheme sch rest q f base
  | None => no_scheme m q f base
  end.

(** *** The URL serializer *)
Definition serialize_path (p : url_path) : chars :=
  match p with
  | PathOpaque s => s
  | PathList segs => flat_map (fun seg => "/"%char :: seg) segs
  end.

Definition serialize_credentials (u : t) : chars :=
  match username u, password u with
  | [], [] => []
  | user, [] => user ++ ["@"%char]
  | user, pass => user ++ ":"%char :: pass ++ ["@"%char]
  end.

Definition serialize_port (p : option N) : chars :=
  match p with
  | Some n => ":"%char :: dec_of_N n
  | None => []
  end.

Definition serialize_authority (u : t) : chars :=
  match host u with
  | Some h => lit "//" ++ serialize_credentials u ++ h ++ serialize_port (port u)
  | None =>
      match path u with
      | PathList ([] :: _ :: _) => lit "/."
      | _ => []
      end
  end.

Definition serialize_opt (mark : ascii) (o : option chars) : chars :=
  match o with
  | Some s => mark :: s
  | None => []
  end.

Definition serialize (u : t) : chars :=
  scheme u ++ ":"%char :: serialize_authority u ++ serialize_path (path u)
    ++ serialize_opt "?" (query u) ++ serialize_opt "#" (fragment u).

(** *** The class: constructor, getters and setters *)

(** [new URL(input)] and [new URL(input, base)]; [None] is the [TypeError]
    the constructor throws. *)
Definition new (input : string) (base : option string) : option t :=
  match base with
  | None => basic_url_parse (lit input) None
  | Some b =>
      match basic_url_parse (lit b) None with
      | Some pb => basic_url_parse (lit input) (Some pb)
      | None => None
      end
  end.




Definition href (u : t) : string := str (serialize u).

Definition hostname (u : t) : string :=
  match host u with
  | Some h => str h
  | None => EmptyString
  end.

Definition pathname (u : t) : string := str (serialize_path (path u)).

(** Potentially strip trailing spaces from an opaque path. *)
Definition strip_trailing_spaces (u : t) : t :=
  match path u, query u, fragment u with
  | PathOpaque p, None, None =>
      mk (scheme u) (username u) (password u) (host u) (port u)
         (PathOpaque (rev (drop_while is_space (rev p)))) None None
  | _, _, _ => u
  end.

(** [u.search = ""]. *)
Definition clear_search (u : t) : t :=
  strip_trailing_spaces
    (mk (scheme u) (username u) (password u) (host u) (port u) (path u) None (fragment u)).

(** [u.hash = ""]. *)
Definition clear_hash (u : t) : t :=
  strip_trailing_spaces
    (mk (scheme u) (username u) (password u) (host u) (port u) (path u) (query u) None).

End URL.

(** ** The URLs the parser returns

    [WF.wf u] collects what holds of every record the parser returns: each
    component is in the form the parser leaves it in. *)
Module WF.
Import URL.

Definition ok_scheme (c : ascii) : bool := is_scheme_char c && negb (is_upper c).
Definition ok_user (c : ascii) : bool := negb (userinfo_set c).
Definition ok_domain (c : ascii) : bool :=
  (code c <? 128)%N && negb (Ascii.eqb c "%") && negb (is_upper c)
  && negb (forbidden_domain c).
Definition ok_opaque_host (c : ascii) : bool :=
  negb (forbidden_host c) && negb (c0_control_set c).
Definition ok_segment (special : bool) (c : ascii) : bool :=
  negb (path_set c) && negb (is_separator special c).
Definition ok_opaque (c : ascii) : bool :=
  negb (c0_control_set c) && negb (is_qmark c) && negb (is_hash c).
Definition ok_query (special : bool) (c : ascii) : bool :=
  negb ((if special then special_query_set else query_set) c).
Definition ok_fragment (c : ascii) : bool := negb (fragment_set c).

Definition wf_scheme (sch : chars) : bool :=
  match sch with
  | c :: _ => is_lower c
  | [] => false
  end && forallb ok_scheme sch && negb (ceqb sch (lit "file")).

Definition wf_host (special : bool) (h : chars) : bool :=
  if special then
    negb (ceqb h []) && forallb ok_domain h
    && (if ends_in_number h then canonical_ipv4 h else true)
  else forallb ok_opaque_host h.

Definition wf_port (sch : chars) (p : option N) : bool :=
  match p with
  | Some n => (n <=? 65535)%N && negb (bool_decide (default_port sch = Some n))
  | None => true
  end.

Definition wf_segment (special : bool) (seg : chars) : bool :=
  forallb (ok_segment special) seg && negb (is_single_dot seg) && negb (is_double_dot seg).

Definition is_nil {A} (l : list A) : bool :=
  match l with
  | [] => true
  | _ => false
  end.

Definition is_none {A} (o : option A) : bool :=
  match o with
  | None => true
  | Some _ => false
  end.

Definition ends_with_space (p : chars) : bool :=
  match rev p with
  | c :: _ => is_space c
  | [] => false
  end.

Definition wf_authority (u : t) : bool :=
  let special := is_special (scheme u) in
  forallb ok_user (username u) && forallb ok_user (password u)
  && match host u with
     | Some h =>
         wf_host special h
         && (negb (is_nil h)
             || (is_nil (username u) && is_nil (password u) && is_none (port u)))
     | None =>
         negb special && is_nil (username u) && is_nil (password u) && is_none (port u)
     end
  && wf_port (scheme u) (port u).

Definition wf_path (u : t) : bool :=
  let special := is_special (scheme u) in
  match path u with
  | PathList segs =>
      forallb (wf_segment special) segs
      && (negb (is_nil segs) || (negb special && negb (is_none (host u))))
  | PathOpaque p =>
      negb special && is_none (host u)
      && forallb ok_opaque p
      && match p with c :: _ => negb (is_slash c) | [] => true end
      && (negb (ends_with_space p)
          || negb (is_none (query u)) || negb (is_none (fragment u)))
  end.

Definition wf (u : t) : bool :=
  wf_scheme (scheme u) && wf_authority u && wf_path u
  && match query u with
     | Some q => forallb (ok_query (is_special (scheme u))) q
     | None => true
     end
  && match fragment u with
     | Some f => forallb ok_fragment f
     | None => true
     end.

(** What the serializer writes before the query. *)
Definition main (u : t) : chars :=
  scheme u ++ ":"%char :: serialize_authority u ++ serialize_path (path u).

Definition main_char (c : ascii) : bool :=
  negb (c0_control_set c) && negb (is_hash c) && negb (is_qmark c).

(** The last character, if any, is not a space or a control. *)
Definition tight (s : chars) : Prop :=
  match rev s with
  | c :: _ => is_c0_or_space c = false
  | [] => True
  end.

(** The user name and the password as the serializer writes them. *)
Definition userinfo (user pass : chars) : chars :=
  match pass with
  | [] => user
  | _ => user ++ ":"%char :: pass
  end.

(** [wf] and [wf_authority], taken apart. *)
Record wf_parts (u : t) : Prop := mkParts {
  part_scheme : wf_scheme (scheme u) = true;
  part_authority : wf_authority u = true;
  part_path : wf_path u = true;
  part_query : match query u with
               | Some q => forallb (ok_query (is_special (scheme u))) q = true
               | None => True
               end;
  part_fragment : match fragment u with
                  | Some f => forallb ok_fragment f = true
                  | None => True
                  end
}.

Record wf_authority_parts (u : t) : Prop := mkAuthParts {
  auth_user : forallb ok_user (username u) = true;
  auth_pass : forallb ok_user (password u) = true;
  auth_host : match host u with
              | Some h =>
                  wf_host (is_special (scheme u)) h = true
                  /\ (h <> [] \/ (username u = [] /\ password u = [] /\ port u = None))
              | None =>
                  is_special (scheme u) = false
                  /\ username u = [] /\ password u = [] /\ port u = None
              end;
  auth_port : wf_port (scheme u) (port u) = true
}.

(** All the characters, for the facts that are checked character by
    character. *)
Definition all_ascii : list ascii := map ascii_of_nat (seq 0 256).

End WF.

(** ** Strings of the crawler *)

Definition startsWith (s pre : string) : bool := String.prefix pre s.

(** [hay.includes(needle)] *)
Fixpoint includes (needle hay : string) : bool :=
  String.prefix needle hay
  || match hay with
     | EmptyString => false
     | String _ hay' => includes needle hay'
     end.

(** [s.replace(/\/$/, "")]: one slash at the end of the string is removed. *)
Fixpoint strip_trailing_slash (s : string) : string :=
  match s with
  | EmptyString => EmptyString
  | String c EmptyString => if Ascii.eqb c "/" then EmptyString else s
  | String c s' => String c (strip_trailing_slash s')
  end.

Definition is_empty (s : string) : bool :=
  match s with
  | EmptyString => true
  | _ => false
  end.

(** ** The result tree and the options *)

Inductive RouteNode := mkRouteNode {
  path : string;
  url : string;
  children : list RouteNode;
  status : option Z;
  error : option string
}.

(** An absent option is [None].  The two budgets are numbers, which need
    not be whole: they are rationals here (a budget that is [NaN] or infinite
    is not an option of the model).  The two durations are whole
    milliseconds. *)
Record CrawlOptions := mkCrawlOptions {
  opt_maxDepth : option Q;
  opt_maxPages : option Q;
  opt_timeout : option Z;
  opt_delay : option Z
}.

(** The comparisons of a counter with a budget: [n > limit], [n >= limit]
    and [n < limit]. *)
Definition above (n : Z) (limit : Q) : bool := negb (Qle_bool (inject_Z n) limit).
Definition reached (n : Z) (limit : Q) : bool := Qle_bool limit (inject_Z n).
Definition below (n : Z) (limit : Q) : bool := negb (Qle_bool limit (inject_Z n)).

Arguments above : simpl never.
Arguments reached : simpl never.
Arguments below : simpl never.

Definition no_options : CrawlOptions := mkCrawlOptions None None None None.

(** ** The network and the HTML parser

    What [fetch], [response.text()] and cheerio answer is given by the world
    the crawl runs in. *)

(** A value caught by [catch (error)]. *)
Inductive thrown :=
| ErrorObject (message : string)
| OtherValue.

Record Response := mkResponse {
  resp_status : Z;
  content_type : option string;      (* [headers.get("content-type")] *)
  text : thrown + string             (* [await response.text()] *)
}.

(** [response.ok] *)
Definition ok (r : Response) : bool :=
  ((200 <=? resp_status r) && (resp_status r <=? 299))%Z.

Record World := mkWorld {
  (** the outcome of attempt number [i] (from 0) to fetch a URL: a response,
      or [None] when the promise rejects (transport error, or the abort of the
      timeout) *)
  fetch : string -> nat -> option Response;
  (** the [href] attributes of the [a[href]] elements of a document, in
      document order *)
  anchors : string -> list string
}.

Inductive event :=
| Fetch (url : string) (attempt : nat)
| Sleep (ms : Z).

(** A settled promise, as [Promise.allSettled] reports it. *)
Inductive settled :=
| Fulfilled (value : RouteNode)
| Rejected (reason : thrown).

(** A pending or settled call of [crawlPage].  Between its synchronous prefix
    and its link loop a call only waits (for the politeness delay, the fetch
    with its retries, the body); it reads and writes [visited] and
    [pageCount] in the prefix and in the loop only, so the waits are one
    step. *)
Inductive promise :=
| Settled (result : settled)
| AwaitFetch (path currentUrl baseDomain : string) (depth : Z) (pause : bool)
| AwaitChildren (node : RouteNode) (childPromises : list promise).

(** [visited], [pageCount], and the log of what the crawl did. *)
Record State := mkState {
  visited : gset string;
  pageCount : Z;
  trace : list event
}.

Definition initial : State := mkState ∅ 0 [].

Definition log (es : list event) (st : State) : State :=
  mkState (visited st) (pageCount st) (trace st ++ es).

(** [links.add(x)] on a [Set] in insertion order. *)
Definition set_add (x : string) (l : list string) : list string :=
  if bool_decide (x ∈ l) then l else l ++ [x].

Section ResumeIn.
Variable resume : nat -> State -> promise -> State * promise.
Variable pending : promise -> nat.

(** Resume the [k]-th waiting call among the promises [ps]. *)
Fixpoint resume_in (k : nat) (st : State) (ps : list promise) : State * list promise :=
  match ps with
  | [] => (st, [])
  | q :: qs =>
      if (k <? pending q)%nat then
        let '(st', q') := resume k st q in (st', q' :: qs)
      else
        let '(st', qs') := resume_in (k - pending q) st qs in (st', q :: qs')
  end.
End ResumeIn.

Section SettleAll.
Variable settle : promise -> option settled.

Fixpoint settle_all (ps : list promise) : option (list settled) :=
  match ps with
  | [] => Some []
  | q :: qs =>
      match settle q, settle_all qs with
      | Some r, Some rs => Some (r :: rs)
      | _, _ => None
      end
  end.
End SettleAll.

(** The number of calls waiting for their fetch. *)
Fixpoint pending (p : promise) : nat :=
  match p with
  | Settled _ => 0
  | AwaitFetch _ _ _ _ _ => 1
  | AwaitChildren _ ps => list_sum (map pending ps)
  end.

(** The URLs of the calls that wait for their fetch. *)
Fixpoint waiting (p : promise) : list string :=
  match p with
  | Settled _ => []
  | AwaitFetch _ u _ _ _ => [u]
  | AwaitChildren _ ps => flat_map waiting ps
  end.

(** ** The crawler *)

Section Crawler.
Context (w : World) (options : CrawlOptions).

(** [const { maxDepth = 2, maxPages = 50, timeout = 10000, delay = 500 } = options] *)
Definition maxDepth : Q := default 2%Q (opt_maxDepth options).
Definition maxPages : Q := default 50%Q (opt_maxPages options).
Definition timeout : Z := default 10000%Z (opt_timeout options).
Definition delay : Z := default 500%Z (opt_delay options).

(** The depth and the page counter are whole numbers: they are beyond
    [maxDepth] when they are beyond its floor, and under [maxPages] when
    they are under its ceiling. *)
Definition depth_limit : Z := Qfloor maxDepth.
Definition page_budget : Z := Qceiling maxPages.

Definition rejected_prefixes : list string :=
  ["javascript:"; "#"; "mailto:"; "tel:"; "data:"; "blob:"]%string.

Definition normalizeUrl (baseUrl link : string) : string :=
  if is_empty link || existsb (startsWith link) rejected_prefixes then EmptyString
  else
    match URL.new link (Some baseUrl) with
    | Some urlObj => URL.href (URL.clear_hash (URL.clear_search urlObj))
    | None => EmptyString
    end.

Definition getPathFromUrl (url : string) : string :=
  match URL.new url None with
  | Some urlObj =>
      if String.eqb (URL.pathname urlObj) "/" then "/"%string
      else strip_trailing_slash (URL.pathname urlObj)
  | None => url
  end.

Definition isValidUrl (url baseDomain : string) : bool :=
  match URL.new url None with
  | Some urlObj => String.eqb (URL.hostname urlObj) baseDomain
  | None => false
  end.

(** The loop of [fetchWithRetry], from iteration [i] with [remaining]
    iterations to go: each attempt is bounded by the abort timer, whose
    firing is a rejected attempt. *)
Fixpoint fetchWithRetry_loop (url : string) (retries : nat) (remaining i : nat)
  : list event * option Response :=
  match remaining with
  | O => ([], None)
  | S remaining' =>
      match fetch w url i with
      | Some response => ([Fetch url i], Some response)
      | None =>
          if (i =? retries)%nat then ([Fetch url i], None)
          else
            let '(es, r) := fetchWithRetry_loop url retries remaining' (S i) in
            (Fetch url i :: Sleep (1000 * (Z.of_nat i + 1)) :: es, r)
      end
  end.

Definition fetchWithRetry (url : string) (retries : nat) : list event * option Response :=
  fetchWithRetry_loop url retries (S retries) 0.

(** The links of a page: [$("a[href]").each(...)] *)
Definition collect_links (currentUrl baseDomain : string) (hrefs : list string)
  : list string :=
  fold_left
    (fun links href =>
       if is_empty href then links
       else
         let normalizedUrl := normalizeUrl currentUrl href in
         if negb (is_empty normalizedUrl) && isValidUrl normalizedUrl baseDomain
         then set_add normalizedUrl links
         else links)
    hrefs [].

(** The synchronous prefix of [crawlPage], up to its first [await]. *)
Definition crawlPage (st : State) (currentUrl baseDomain : string) (depth : Z)
  : State * promise :=
  let path := getPathFromUrl currentUrl in
  if above depth maxDepth || reached (pageCount st) maxPages then
    (st, Settled (Fulfilled
       (mkRouteNode path currentUrl [] None
          (Some (if above depth maxDepth then "Max depth reached"
                 else "Max pages reached")%string))))
  else if bool_decide (currentUrl ∈ visited st) then
    (st, Settled (Fulfilled (mkRouteNode path currentUrl [] None None)))
  else
    let st := mkState ({[currentUrl]} ∪ visited st) (pageCount st + 1) (trace st) in
    (st, AwaitFetch path currentUrl baseDomain depth
           ((0 <? delay) && (1 <? pageCount st))%Z).

(** [for (const childUrl of links) ...]: every call of [crawlPage] runs its
    prefix before the loop goes on. *)
Fixpoint spawn_children (st : State) (baseDomain : string) (depth : Z)
  (links : list string) : State * list promise :=
  match links with
  | [] => (st, [])
  | childUrl :: links' =>
      if negb (bool_decide (childUrl ∈ visited st)) && below (pageCount st) maxPages then
        let '(st, p) := crawlPage st childUrl baseDomain (depth + 1) in
        let '(st, ps) := spawn_children st baseDomain depth links' in
        (st, p :: ps)
      else spawn_children st baseDomain depth links'
  end.

(** The rest of [crawlPage]: the delay, the fetch, and the [try] block up to
    [Promise.allSettled].  The only statement of the block that throws is
    [await response.text()]. *)
Definition crawlPage_fetch (st : State) (path currentUrl baseDomain : string)
  (depth : Z) (pause : bool) : State * promise :=
  let st := log (if pause then [Sleep delay] else []) st in
  let '(es, response) := fetchWithRetry currentUrl 2 in
  let st := log es st in
  let failed error := Settled (Fulfilled (mkRouteNode path currentUrl [] None (Some error))) in
  match response with
  | None => (st, failed "Failed to fetch after retries"%string)
  | Some response =>
      if negb (ok response) then
        (st, Settled (Fulfilled
           (mkRouteNode path currentUrl [] (Some (resp_status response))
              (Some ("HTTP " ++ show_Z (resp_status response))%string))))
      else
        let contentType := default EmptyString (content_type response) in
        if negb (includes "text/html" contentType) then
          (st, failed "Not HTML content"%string)
        else
          match text response with
          | inl error =>
              (st, failed (match error with
                           | ErrorObject message => message
                           | OtherValue => "Unknown error"%string
                           end))
          | inr html =>
              let links := collect_links currentUrl baseDomain (anchors w html) in
              let node := mkRouteNode path currentUrl [] (Some (resp_status response)) None in
              let '(st, childPromises) := spawn_children st baseDomain depth links in
              (st, AwaitChildren node childPromises)
          end
  end.

(** One step of the event loop: the [k]-th waiting call gets its answer. *)
Fixpoint resume (k : nat) (st : State) (p : promise) : State * promise :=
  match p with
  | Settled _ => (st, p)
  | AwaitFetch path currentUrl baseDomain depth pause =>
      crawlPage_fetch st path currentUrl baseDomain depth pause
  | AwaitChildren node ps =>
      let '(st', ps') := resume_in resume pending k st ps in
      (st', AwaitChildren node ps')
  end.

(** [for (const result of childNodes) ...] *)
Definition attach (node : RouteNode) (childNodes : list settled) : RouteNode :=
  fold_left
    (fun node result =>
       match result with
       | Fulfilled value =>
           if negb (String.eqb (path value) (path node)) then
             mkRouteNode (path node) (url node) (children node ++ [value])
               (status node) (error node)
           else node
       | Rejected _ => node
       end)
    childNodes node.

(** What a promise settles to once no call waits for a fetch. *)
Fixpoint settle (p : promise) : option settled :=
  match p with
  | Settled r => Some r
  | AwaitFetch _ _ _ _ _ => None
  | AwaitChildren node ps =>
      match settle_all settle ps with
      | Some childNodes => Some (Fulfilled (attach node childNodes))
      | None => None
      end
  end.

(** The event loop: while a call waits, the scheduler [sched] says which
    one is answered next. *)
Fixpoint run (fuel : nat) (sched : nat -> nat) (i : nat) (st : State) (p : promise)
  : State * promise :=
  match fuel with
  | O => (st, p)
  | S fuel' =>
      match pending p with
      | O => (st, p)
      | S n =>
          let '(st', p') := resume (sched i mod S n) st p in
          run fuel' sched (S i) st' p'
      end
  end.

Definition invalid_start (url : string) : RouteNode :=
  mkRouteNode "/" url [] None (Some "Invalid starting URL"%string).

(** [getRoutesFromPage(url, options)]: the tree it resolves with and what
    it did, or [None] if the crawl were still waiting when the loop stops. *)
Definition getRoutesFromPage (sched : nat -> nat) (url : string)
  : option (RouteNode * list event) :=
  match URL.new (if startsWith url "http" then url else ("https://" ++ url)%string) None with
  | Some baseUrl =>
      let baseDomain := URL.hostname baseUrl in
      let '(st, p) := crawlPage initial (URL.href baseUrl) baseDomain 0 in
      let '(st, p) := run (Z.to_nat page_budget) sched 0 st p in
      match settle p with
      | Some (Fulfilled routeTree) => Some (routeTree, trace st)
      | Some (Rejected _) => Some (invalid_start url, trace st)
      | None => None
      end
  | None => Some (invalid_start url, [])
  end.

End Crawler.

(** ** Notions used in the statements *)

(** A node and all its descendants. *)
Fixpoint nodes (n : RouteNode) : list RouteNode :=
  match n with
  | mkRouteNode _ _ cs _ _ => n :: flat_map nodes cs
  end.

(** The URLs for which a fetch was issued. *)
Definition fetched (es : list event) : gset string :=
  list_to_set (omap (fun e => match e with Fetch u _ => Some u | Sleep _ => None end) es).

Definition fetches (es : list event) : list event :=
  List.filter (fun e => match e with Fetch _ _ => true | Sleep _ => false end) es.

(** The hostname of a URL string, when it parses. *)
Definition hostname_of (url : string) : option string :=
  option_map URL.hostname (URL.new url None).

(** The start URL as [getRoutesFromPage] completes it. *)
Definition start_url (url : string) : string :=
  if startsWith url "http" then url else ("https://" ++ url)%string.


(** A small site: the root page links to [/b], [/c], another host, a
    [www] variant and a fragment; [/b] links on to [/c], [/d] and the root;
    [/c] is a 404; [/d] is JSON and answers at the third attempt only. *)
Definition site_page (hrefs : list string) : Response :=
  mkResponse 200 (Some "text/html; charset=utf-8"%string) (inr (String.concat "," hrefs)).

Definition site : World :=
  mkWorld
    (fun u i =>
       if String.eqb u "https://example.com/" then
         Some (site_page ["/b"; "/c"; "https://other.com/x"; "/b?x=1"; "#top";
                          "https://www.example.com/"]%string)
       else if String.eqb u "https://example.com/b" then
         Some (site_page ["/c"; "/d"; "/"]%string)
       else if String.eqb u "https://example.com/c" then
         Some (mkResponse 404 None (inr EmptyString))
       else if String.eqb u "https://example.com/d" then
         (if (i <? 2)%nat then None
          else Some (mkResponse 200 (Some "application/json"%string) (inr EmptyString)))
       else None)
    (fun html =>
       if is_empty html then [] else map str (split_on (Ascii.eqb ",") (lit html))).

Definition first_waiting : nat -> nat := fun _ => 0%nat.

(** A server that answers every request with a JSON document. *)
Definition json_site : World :=
  mkWorld
    (fun _ _ => Some (mkResponse 200 (Some "application/json"%string)
                        (inr "{}"%string)))
    (fun _ => []).

(** A site with two URLs for one route: the page [/a] links to [/a/], whose
    path is [/a] too, to [/b], and to [/a/c], which does not answer. *)
Definition slash_site : World :=
  mkWorld
    (fun u i =>
       if String.eqb u "https://example.com/a" then
         Some (site_page ["/a/"; "/b"; "/a/c"]%string)
       else if String.eqb u "https://example.com/a/" then
         Some (site_page ["/a/c"]%string)
       else if String.eqb u "https://example.com/b" then
         Some (site_page [])
       else None)
    (fun html =>
       if is_empty html then [] else map str (split_on (Ascii.eqb ",") (lit html))).

(** The trees and the logs of three crawls of these sites, with
    [maxDepth = 1]. *)
Definition slash_tree : RouteNode :=
  mkRouteNode "/a" "https://example.com/a"
    [mkRouteNode "/b" "https://example.com/b" [] (Some 200%Z) None;
     mkRouteNode "/a/c" "https://example.com/a/c" [] None
       (Some "Failed to fetch after retries"%string)]
    (Some 200%Z) None.

Definition slash_log : list event :=
  [Fetch "https://example.com/a" 0; Sleep 500;
   Fetch "https://example.com/a/" 0; Sleep 500;
   Fetch "https://example.com/b" 0; Sleep 500;
   Fetch "https://example.com/a/c" 0; Sleep 1000;
   Fetch "https://example.com/a/c" 1; Sleep 2000;
   Fetch "https://example.com/a/c" 2].

Definition site_tree : RouteNode :=
  mkRouteNode "/" "https://example.com/"
    [mkRouteNode "/b" "https://example.com/b"
       [mkRouteNode "/d" "https://example.com/d" [] None
          (Some "Max depth reached"%string)]
       (Some 200%Z) None;
     mkRouteNode "/c" "https://example.com/c" [] (Some 404%Z)
       (Some "HTTP 404"%string)]
    (Some 200%Z) None.

Definition site_log : list event :=
  [Fetch "https://example.com/" 0; Sleep 500;
   Fetch "https://example.com/b" 0; Sleep 500;
   Fetch "https://example.com/c" 0].

Definition one_level : CrawlOptions := mkCrawlOptions (Some 1%Q) None None None.

(** The status and the error of a node: either the status is present and the
    error absent, or the error is present, and not both. *)
Definition status_xor_error (n : RouteNode) : Prop :=
  let parsed := status n <> None /\ error n = None in
  let failed := error n <> None in
  (parsed \/ failed) /\ ~ (parsed /\ failed).

(** A call that ends at once in a node with an error and no children. *)
Definition fails_with (r : State * promise) (e : string) : Prop :=
  exists node, r.2 = Settled (Fulfilled node)
               /\ error node = Some e /\ children node = [].

(** ** Notions used in the proofs *)

Section Outcomes.
Context (options : CrawlOptions).

(** The four ways out of the prefix. *)
Inductive prefix_outcome (st : State) (currentUrl baseDomain : string) (depth : Z)
  : State * promise -> Prop :=
| out_depth :
    (depth_limit options < depth)%Z ->
    prefix_outcome st currentUrl baseDomain depth
      (st, Settled (Fulfilled (mkRouteNode (getPathFromUrl currentUrl) currentUrl []
                                 None (Some "Max depth reached"%string))))
| out_pages :
    (depth <= depth_limit options)%Z -> (page_budget options <= pageCount st)%Z ->
    prefix_outcome st currentUrl baseDomain depth
      (st, Settled (Fulfilled (mkRouteNode (getPathFromUrl currentUrl) currentUrl []
                                 None (Some "Max pages reached"%string))))
| out_visited :
    (depth <= depth_limit options)%Z -> (pageCount st < page_budget options)%Z ->
    currentUrl ∈ visited st ->
    prefix_outcome st currentUrl baseDomain depth
      (st, Settled (Fulfilled (mkRouteNode (getPathFromUrl currentUrl) currentUrl []
                                 None None)))
| out_fetch :
    (depth <= depth_limit options)%Z -> (pageCount st < page_budget options)%Z ->
    currentUrl ∉ visited st ->
    prefix_outcome st currentUrl baseDomain depth
      (mkState ({[currentUrl]} ∪ visited st) (pageCount st + 1) (trace st),
       AwaitFetch (getPathFromUrl currentUrl) currentUrl baseDomain depth
         ((0 <? delay options) && (1 <? pageCount st + 1))%Z).

(** The ways out of the second part of [crawlPage]. *)
Inductive fetch_outcome (path u d : string) (depth : Z) : promise -> Prop :=
| fo_failed :
    fetch_outcome path u d depth
      (Settled (Fulfilled (mkRouteNode path u [] None
                             (Some "Failed to fetch after retries"%string))))
| fo_http_error s :
    fetch_outcome path u d depth
      (Settled (Fulfilled (mkRouteNode path u [] (Some s)
                             (Some ("HTTP " ++ show_Z s)%string))))
| fo_not_html :
    fetch_outcome path u d depth
      (Settled (Fulfilled (mkRouteNode path u [] None (Some "Not HTML content"%string))))
| fo_body_error e :
    fetch_outcome path u d depth
      (Settled (Fulfilled (mkRouteNode path u [] None (Some e))))
| fo_html s st hrefs :
    fetch_outcome path u d depth
      (AwaitChildren (mkRouteNode path u [] (Some s) None)
         (spawn_children options st d depth (collect_links u d hrefs)).2).

(** [pageCount] is the size of [visited], every URL fetched so far is
    visited, and the counter moved only while it was under [maxPages]. *)
Record tidy (st : State) : Prop := mkTidy {
  tidy_size : Z.of_nat (size (visited st)) = pageCount st;
  tidy_budget : pageCount st = 0%Z \/ (pageCount st <= page_budget options)%Z;
  tidy_fetched : fetched (trace st) ⊆ visited st
}.

(** What a group of steps does to the state: [n] calls started to wait. *)
Record advance (st st' : State) (n : nat) (us : list string) : Prop := mkAdvance {
  adv_tidy : tidy st';
  adv_visited : visited st ⊆ visited st';
  adv_count : pageCount st' = (pageCount st + Z.of_nat n)%Z;
  adv_waiting : forall u, In u us -> u ∈ visited st'
}.

(** One step of the event loop: one call stops waiting, and as many start
    to wait as the page counter moves. *)
Definition step_spec (st : State) (n : nat) (us : list string)
  (st' : State) (n' : nat) (us' : list string) : Prop :=
  tidy st'
  /\ visited st ⊆ visited st'
  /\ (forall u, In u us' -> u ∈ visited st')
  /\ (pageCount st' + Z.of_nat n = pageCount st + Z.of_nat n' + 1)%Z
  /\ fetched (trace st') ⊆ fetched (trace st) ∪ list_to_set us.

End Outcomes.

Section GoodPromises.
(** [good_node] is a property of the fields of a node other than its
    children; [good_call] one of the arguments of a waiting call. *)
Variable good_node : RouteNode -> Prop.
Variable good_call : string -> string -> Z -> Prop.

Inductive good : promise -> Prop :=
| good_settled n :
    Forall good_node (nodes n) -> good (Settled (Fulfilled n))
| good_fetch path u d depth pause :
    good_call u d depth -> good (AwaitFetch path u d depth pause)
| good_children node ps :
    good_node node -> children node = [] -> Forall good ps ->
    good (AwaitChildren node ps).

End GoodPromises.

(** ** Notions used for the further properties *)

(** The children [attach] keeps: the values of the fulfilled promises whose
    path is not the path of the parent. *)
Definition kept (parent : string) (childNodes : list settled) : list RouteNode :=
  flat_map
    (fun result =>
       match result with
       | Fulfilled value => if negb (String.eqb (path value) parent) then [value] else []
       | Rejected _ => []
       end)
    childNodes.

(** The nodes of a tree with their level, the root being at level [d]. *)
Fixpoint nodes_at (d : Z) (n : RouteNode) : list (Z * RouteNode) :=
  match n with
  | mkRouteNode _ _ cs _ _ => (d, n) :: flat_map (nodes_at (d + 1)) cs
  end.

(** A node and its children: no child has the path of the node, and a node
    with children has a status and no error. *)
Definition family (n : RouteNode) : Prop :=
  Forall (fun c => path c <> path n) (children n)
  /\ (children n <> [] -> status n <> None /\ error n = None).

(** The shape of the promises of a call at depth [d]: what holds of a node
    returned at once, of the arguments of a waiting call, and of the node a
    call prepares before it waits for its children. *)
Section Shaped.
Variable leaf : Z -> RouteNode -> Prop.
Variable call : Z -> string -> string -> string -> Prop.
Variable shell : Z -> RouteNode -> Prop.

Inductive shaped : Z -> promise -> Prop :=
| shaped_settled d n :
    leaf d n -> shaped d (Settled (Fulfilled n))
| shaped_fetch d path u dom pause :
    call d path u dom -> shaped d (AwaitFetch path u dom d pause)
| shaped_children d node ps :
    shell d node -> Forall (shaped (d + 1)) ps ->
    shaped d (AwaitChildren node ps).

End Shaped.

(** The shapes for [family]. *)
Definition family_leaf (d : Z) (n : RouteNode) : Prop := children n = [].
Definition family_shell (d : Z) (n : RouteNode) : Prop :=
  children n = [] /\ status n <> None /\ error n = None.
Definition any_call (d : Z) (path u dom : string) : Prop := True.

(** The shapes for the levels of a tree: a node beyond [maxDepth] is the
    leaf of the depth guard. *)
Section Levels.
Context (options : CrawlOptions).

Definition depth_leaf (n : RouteNode) : Prop :=
  children n = [] /\ error n = Some "Max depth reached"%string /\ status n = None.

Definition level_ok (d : Z) (ln : Z * RouteNode) : Prop :=
  ((depth_limit options < ln.1)%Z -> depth_leaf ln.2)
  /\ (ln.1 <= Z.max d (depth_limit options + 1))%Z.

Definition level_leaf (d : Z) (n : RouteNode) : Prop :=
  children n = [] /\ ((depth_limit options < d)%Z -> depth_leaf n).
Definition level_call (d : Z) (path u dom : string) : Prop :=
  (d <= depth_limit options)%Z.
Definition level_shell (d : Z) (n : RouteNode) : Prop :=
  children n = [] /\ (d <= depth_limit options)%Z.

End Levels.

(** The shapes for the routes: the path of a node is the route of its URL,
    and the root is the node of the start URL. *)
Definition route_ok (n : RouteNode) : Prop := path n = getPathFromUrl (url n).
Definition route_leaf (root : string) (d : Z) (n : RouteNode) : Prop :=
  children n = [] /\ route_ok n /\ (d = 0%Z -> url n = root).
Definition route_call (root : string) (d : Z) (path u dom : string) : Prop :=
  path = getPathFromUrl u /\ (0 <= d)%Z /\ (d = 0%Z -> u = root).
Definition route_tree (root : string) (d : Z) (n : RouteNode) : Prop :=
  Forall route_ok (nodes n) /\ (d = 0%Z -> url n = root).

(** The calls that wait for their fetch, in the order of [waiting]. *)
Fixpoint waiting_calls (p : promise) : list promise :=
  match p with
  | Settled _ => []
  | AwaitFetch _ _ _ _ _ => [p]
  | AwaitChildren _ ps => flat_map waiting_calls ps
  end.

(** The attempts of a fetch with retries that were rejected before attempt
    [i], each followed by its pause. *)
Fixpoint rejected_attempts (url : string) (i n : nat) : list event :=
  match n with
  | O => []
  | S n' => Fetch url i :: Sleep (1000 * (Z.of_nat i + 1)) :: rejected_attempts url (S i) n'
  end.


(** What one call of [crawlPage] logs when attempt [k] of its fetch is the
    last one: the politeness delay if it pauses, the rejected attempts with
    their pauses, and attempt [k]. *)
Definition call_log (delay : Z) (pause : bool) (u : string) (k : nat) : list event :=
  (if pause then [Sleep delay] else []) ++ rejected_attempts u 0 k ++ [Fetch u k].

(** The log of a crawl whose calls fetched the URLs [calls], each with the
    number of its last attempt: only the first call does not pause. *)
Definition crawl_log (delay : Z) (calls : list (string * nat)) : list event :=
  match calls with
  | [] => []
  | c :: rest =>
      call_log delay false c.1 c.2
      ++ flat_map (fun c => call_log delay (0 <? delay)%Z c.1 c.2) rest
  end.

(** What the retry loop of a call for [u] saw when attempt [k] was its
    last. *)
Definition last_attempt (w : World) (u : string) (k : nat) : Prop :=
  (k <= 2)%nat
  /\ (forall j, (j < k)%nat -> fetch w u j = None)
  /\ (fetch w u k = None -> k = 2%nat).

Section Answers.
Context (w : World) (options : CrawlOptions).

(** The link loop of a call at depth [d] took the state from [st] to [st']
    and left the calls [cs] waiting. *)
Definition spawned (dom : string) (d : Z) (st st' : State) (cs : list promise) : Prop :=
  trace st' = trace st
  /\ visited st ⊆ visited st'
  /\ pageCount st' = (pageCount st + Z.of_nat (length (flat_map waiting cs)))%Z
  /\ (cs = [] \/ (pageCount st' <= page_budget options)%Z)
  /\ NoDup (flat_map waiting cs)
  /\ Forall
       (fun c =>
          exists link pause,
            c = AwaitFetch (getPathFromUrl link) link dom (d + 1) pause
            /\ isValidUrl link dom = true
            /\ (link ∉ visited st) /\ (link ∈ visited st')
            /\ ((1 <= pageCount st)%Z -> pause = (0 <? delay options)%Z))
       cs.

(** The waiting call for [u] got its answer: it logged its delay and its
    attempts and ran its link loop. *)
Definition answered (st : State) (u dom : string) (d : Z) (pause : bool)
  (st' : State) (cs : list promise) : Prop :=
  exists k st1,
    last_attempt w u k
    /\ visited st1 = visited st
    /\ pageCount st1 = pageCount st
    /\ trace st1 = trace st ++ call_log (delay options) pause u k
    /\ spawned dom d st1 st' cs.

(** One step of the event loop, seen on the list of the waiting calls: one
    of them is replaced by the calls it leaves waiting. *)
Definition resumes (st : State) (calls : list promise) (st' : State)
  (calls' : list promise) : Prop :=
  exists l1 path u dom d pause l2,
    calls = l1 ++ AwaitFetch path u dom d pause :: l2
    /\ st' = (crawlPage_fetch w options st path u dom d pause).1
    /\ calls' = l1 ++ waiting_calls (crawlPage_fetch w options st path u dom d pause).2 ++ l2.



(** The log is the log of a sequence of calls, and the waiting calls pause
    as the next one in the log must. *)
Definition paced_inv (st : State) (calls : list promise) : Prop :=
  (calls <> [] -> (1 <= pageCount st)%Z)
  /\ exists sessions,
       trace st = crawl_log (delay options) sessions
       /\ Forall (fun c => last_attempt w c.1 c.2) sessions
       /\ Forall (fun c => exists path u dom d,
                    c = AwaitFetch path u dom d
                          (match sessions with
                           | [] => false
                           | _ => (0 <? delay options)%Z
                           end)) calls
       /\ (sessions = [] -> (length calls <= 1)%nat).

End Answers.

(* ===================================================================== *)
(** * Part II: lemmas and theorems *)
(* ===================================================================== *)

(** ** Whole counters and budgets that need not be whole *)

Lemma floor_lt n q : (q < inject_Z n)%Q <-> (Qfloor q < n)%Z.
Proof.
  split; intros H.
  - rewrite Zlt_Qlt. eapply Qle_lt_trans; [apply Qfloor_le|exact H].
  - eapply Qlt_le_trans; [apply Qlt_floor|]. rewrite <- Zle_Qle. lia.
Qed.

Lemma floor_ge n q : (inject_Z n <= q)%Q <-> (n <= Qfloor q)%Z.
Proof.
  split; intros H.
  - destruct (Z.le_gt_cases n (Qfloor q)) as [|Hlt]; [assumption|].
    apply Z.gt_lt_iff in Hlt. apply Z.gt_lt, floor_lt in Hlt.
    now apply Qlt_not_le in Hlt.
  - apply Qnot_lt_le. intros Hlt. apply floor_lt in Hlt. lia.
Qed.

Lemma ceiling_le n q : (q <= inject_Z n)%Q <-> (Qceiling q <= n)%Z.
Proof.
  split; intros H.
  - assert (Hlt : (inject_Z (Qceiling q - 1) < inject_Z n)%Q).
    { eapply Qlt_le_trans; [apply Qceiling_lt|exact H]. }
    rewrite <- Zlt_Qlt in Hlt. lia.
  - eapply Qle_trans; [apply Qle_ceiling|]. now rewrite <- Zle_Qle.
Qed.

Lemma ceiling_gt n q : (inject_Z n < q)%Q <-> (n < Qceiling q)%Z.
Proof.
  split; intros H.
  - destruct (Z.lt_ge_cases n (Qceiling q)) as [|Hge]; [assumption|].
    apply ceiling_le in Hge. now apply Qle_not_lt in Hge.
  - apply Qnot_le_lt. intros Hle. apply ceiling_le in Hle. lia.
Qed.

Lemma above_floor n q : above n q = (Qfloor q <? n)%Z.
Proof.
  unfold above. destruct (Z.ltb_spec (Qfloor q) n) as [H|H].
  - apply negb_true_iff. destruct (Qle_bool (inject_Z n) q) eqn:E; [|reflexivity].
    apply Qle_bool_iff, floor_ge in E. lia.
  - apply negb_false_iff, Qle_bool_iff, floor_ge. exact H.
Qed.

Lemma reached_ceiling n q : reached n q = (Qceiling q <=? n)%Z.
Proof.
  unfold reached. destruct (Z.leb_spec (Qceiling q) n) as [H|H].
  - apply Qle_bool_iff, ceiling_le. exact H.
  - destruct (Qle_bool q (inject_Z n)) eqn:E; [|reflexivity].
    apply Qle_bool_iff, ceiling_le in E. lia.
Qed.

Lemma below_ceiling n q : below n q = (n <? Qceiling q)%Z.
Proof.
  change (below n q) with (negb (reached n q)). rewrite reached_ceiling.
  destruct (Z.leb_spec (Qceiling q) n), (Z.ltb_spec n (Qceiling q)); simpl; (reflexivity || lia).
Qed.

(** ** The synchronous prefix of [crawlPage] *)

Section PrefixFacts.
Context (options : CrawlOptions).

(** C4 witness material and C10 share this computation of the guard. *)
Lemma crawlPage_over_depth st currentUrl baseDomain depth :
  (depth_limit options < depth)%Z ->
  crawlPage options st currentUrl baseDomain depth =
    (st, Settled (Fulfilled
       (mkRouteNode (getPathFromUrl currentUrl) currentUrl [] None
          (Some "Max depth reached"%string)))).
Proof.
  intros Hd. unfold crawlPage. rewrite !above_floor.
  apply Z.ltb_lt in Hd. unfold depth_limit in Hd. rewrite Hd. reflexivity.
Qed.

Lemma crawlPage_over_pages st currentUrl baseDomain depth :
  (depth <= depth_limit options)%Z ->
  (page_budget options <= pageCount st)%Z ->
  crawlPage options st currentUrl baseDomain depth =
    (st, Settled (Fulfilled
       (mkRouteNode (getPathFromUrl currentUrl) currentUrl [] None
          (Some "Max pages reached"%string)))).
Proof.
  intros Hd Hp. unfold crawlPage. rewrite !above_floor, reached_ceiling.
  apply Z.ltb_ge in Hd. apply Z.leb_le in Hp. unfold depth_limit in Hd.
  unfold page_budget in Hp. rewrite Hd, Hp. reflexivity.
Qed.

Lemma crawlPage_visited st currentUrl baseDomain depth :
  (depth <= depth_limit options)%Z ->
  (pageCount st < page_budget options)%Z ->
  currentUrl ∈ visited st ->
  crawlPage options st currentUrl baseDomain depth =
    (st, Settled (Fulfilled
       (mkRouteNode (getPathFromUrl currentUrl) currentUrl [] None None))).
Proof.
  intros Hd Hp Hv. unfold crawlPage. rewrite !above_floor, reached_ceiling.
  apply Z.ltb_ge in Hd. apply Z.leb_gt in Hp. unfold depth_limit in Hd.
  unfold page_budget in Hp. rewrite Hd, Hp. simpl.
  rewrite bool_decide_eq_true_2 by assumption. reflexivity.
Qed.

Lemma crawlPage_fresh st currentUrl baseDomain depth :
  (depth <= depth_limit options)%Z ->
  (pageCount st < page_budget options)%Z ->
  currentUrl ∉ visited st ->
  crawlPage options st currentUrl baseDomain depth =
    (mkState ({[currentUrl]} ∪ visited st) (pageCount st + 1) (trace st),
     AwaitFetch (getPathFromUrl currentUrl) currentUrl baseDomain depth
       ((0 <? delay options) && (1 <? pageCount st + 1))%Z).
Proof.
  intros Hd Hp Hv. unfold crawlPage. rewrite !above_floor, reached_ceiling.
  apply Z.ltb_ge in Hd. apply Z.leb_gt in Hp. unfold depth_limit in Hd.
  unfold page_budget in Hp. rewrite Hd, Hp. simpl.
  rewrite bool_decide_eq_false_2 by assumption. reflexivity.
Qed.

Lemma crawlPage_outcome st currentUrl baseDomain depth :
  prefix_outcome options st currentUrl baseDomain depth
    (crawlPage options st currentUrl baseDomain depth).
Proof.
  destruct (Z.lt_ge_cases (depth_limit options) depth) as [Hd|Hd].
  - rewrite crawlPage_over_depth by assumption. now constructor.
  - destruct (Z.lt_ge_cases (pageCount st) (page_budget options)) as [Hp|Hp].
    + destruct (decide (currentUrl ∈ visited st)) as [Hv|Hv].
      * rewrite crawlPage_visited by assumption. now constructor.
      * rewrite crawlPage_fresh by assumption. now constructor.
    + rewrite crawlPage_over_pages by assumption. now constructor.
Qed.

(** C4: a call of [crawlPage] at a depth beyond [maxDepth] returns at once,
    before [visited], [pageCount] or the network are touched, a node with no
    children, no status and the error "Max depth reached". *)
Theorem C4_depth_exceeded st currentUrl baseDomain depth :
  (inject_Z depth > maxDepth options)%Q ->
  exists node,
    crawlPage options st currentUrl baseDomain depth = (st, Settled (Fulfilled node))
    /\ url node = currentUrl
    /\ children node = []
    /\ error node = Some "Max depth reached"%string
    /\ status node = None
    /\ trace (crawlPage options st currentUrl baseDomain depth).1 = trace st.
Proof.
  intros Hd. apply floor_lt in Hd.
  eexists. rewrite crawlPage_over_depth by exact Hd.
  repeat split; reflexivity.
Qed.

(** C10: when the depth and the page budget are both exceeded, the depth
    wins: the error is "Max depth reached", not "Max pages reached", and
    the node has no status and no children. *)
Theorem C10_depth_before_pages st currentUrl baseDomain depth :
  (inject_Z depth > maxDepth options)%Q ->
  (inject_Z (pageCount st) >= maxPages options)%Q ->
  exists node,
    crawlPage options st currentUrl baseDomain depth = (st, Settled (Fulfilled node))
    /\ error node = Some "Max depth reached"%string
    /\ error node <> Some "Max pages reached"%string
    /\ status node = None
    /\ children node = [].
Proof.
  intros Hd _. apply floor_lt in Hd.
  eexists. rewrite crawlPage_over_depth by exact Hd.
  repeat split; try reflexivity. discriminate.
Qed.

End PrefixFacts.

Lemma C4_depth_exceeded_witness :
  exists node,
    crawlPage no_options initial "https://example.com/a/b/c" "example.com" 3
      = (initial, Settled (Fulfilled node))
    /\ url node = "https://example.com/a/b/c"%string
    /\ children node = []
    /\ error node = Some "Max depth reached"%string
    /\ status node = None
    /\ trace (crawlPage no_options initial "https://example.com/a/b/c" "example.com" 3).1
       = trace initial.
Proof.
  apply (C4_depth_exceeded no_options initial "https://example.com/a/b/c" "example.com" 3).
  reflexivity.
Defined.

Lemma C10_depth_before_pages_witness :
  exists node,
    crawlPage (mkCrawlOptions (Some (-1)%Q) (Some 0%Q) None None)
      initial "https://example.com/" "example.com" 0
      = (initial, Settled (Fulfilled node))
    /\ error node = Some "Max depth reached"%string
    /\ error node <> Some "Max pages reached"%string
    /\ status node = None
    /\ children node = [].
Proof.
  apply (C10_depth_before_pages (mkCrawlOptions (Some (-1)%Q) (Some 0%Q) None None)
           initial "https://example.com/" "example.com" 0).
  - reflexivity.
  - discriminate.
Defined.

(** ** [fetchWithRetry] *)

Section FetchFacts.
Context (w : World) (options : CrawlOptions).

Lemma fetchWithRetry_unfold url :
  fetchWithRetry w url 2 =
    match fetch w url 0 with
    | Some r => ([Fetch url 0], Some r)
    | None =>
        match fetch w url 1 with
        | Some r => ([Fetch url 0; Sleep 1000; Fetch url 1], Some r)
        | None =>
            match fetch w url 2 with
            | Some r =>
                ([Fetch url 0; Sleep 1000; Fetch url 1; Sleep 2000; Fetch url 2], Some r)
            | None =>
                ([Fetch url 0; Sleep 1000; Fetch url 1; Sleep 2000; Fetch url 2], None)
            end
        end
    end.
Proof.
  unfold fetchWithRetry. simpl.
  destruct (fetch w url 0); [reflexivity|].
  destruct (fetch w url 1); [reflexivity|].
  destruct (fetch w url 2); reflexivity.
Qed.

(** Every event of a fetch with retries is about the URL asked for. *)
Lemma fetchWithRetry_fetched url retries es r :
  fetchWithRetry w url retries = (es, r) -> fetched es ⊆ {[url]}.
Proof.
  unfold fetchWithRetry. generalize (S retries) as n, 0%nat as i. intros n.
  revert es r. induction n as [|n IH]; intros es r i; simpl.
  - intros ?; simplify_eq. unfold fetched. simpl. set_solver.
  - destruct (fetch w url i).
    + intros ?; simplify_eq. unfold fetched. simpl. set_solver.
    + destruct (i =? retries)%nat.
      * intros ?; simplify_eq. unfold fetched. simpl. set_solver.
      * destruct (fetchWithRetry_loop w url retries n (S i)) as [es' r'] eqn:E.
        intros ?; simplify_eq. apply IH in E. unfold fetched in *. simpl. set_solver.
Qed.

Lemma crawlPage_fetch_no_response st path url dom depth pause es :
  fetchWithRetry w url 2 = (es, None) ->
  crawlPage_fetch w options st path url dom depth pause =
    (log es (log (if pause then [Sleep (delay options)] else []) st),
     Settled (Fulfilled (mkRouteNode path url [] None
                           (Some "Failed to fetch after retries"%string)))).
Proof. intros E. unfold crawlPage_fetch. rewrite E. reflexivity. Qed.

Lemma crawlPage_fetch_http_error st path url dom depth pause es response :
  fetchWithRetry w url 2 = (es, Some response) ->
  ok response = false ->
  crawlPage_fetch w options st path url dom depth pause =
    (log es (log (if pause then [Sleep (delay options)] else []) st),
     Settled (Fulfilled (mkRouteNode path url [] (Some (resp_status response))
                           (Some ("HTTP " ++ show_Z (resp_status response))%string)))).
Proof. intros E Hok. unfold crawlPage_fetch. rewrite E, Hok. reflexivity. Qed.

Lemma crawlPage_fetch_not_html st path url dom depth pause es response :
  fetchWithRetry w url 2 = (es, Some response) ->
  ok response = true ->
  includes "text/html" (default EmptyString (content_type response)) = false ->
  crawlPage_fetch w options st path url dom depth pause =
    (log es (log (if pause then [Sleep (delay options)] else []) st),
     Settled (Fulfilled (mkRouteNode path url [] None (Some "Not HTML content"%string)))).
Proof. intros E Hok Hct. unfold crawlPage_fetch. rewrite E, Hok, Hct. reflexivity. Qed.

Lemma crawlPage_fetch_body_error st path url dom depth pause es response e :
  fetchWithRetry w url 2 = (es, Some response) ->
  ok response = true ->
  includes "text/html" (default EmptyString (content_type response)) = true ->
  text response = inl e ->
  crawlPage_fetch w options st path url dom depth pause =
    (log es (log (if pause then [Sleep (delay options)] else []) st),
     Settled (Fulfilled (mkRouteNode path url [] None
                           (Some (match e with
                                  | ErrorObject message => message
                                  | OtherValue => "Unknown error"%string
                                  end))))).
Proof. intros E Hok Hct Ht. unfold crawlPage_fetch. rewrite E, Hok, Hct, Ht. reflexivity. Qed.

Lemma crawlPage_fetch_html st path url dom depth pause es response html :
  fetchWithRetry w url 2 = (es, Some response) ->
  ok response = true ->
  includes "text/html" (default EmptyString (content_type response)) = true ->
  text response = inr html ->
  crawlPage_fetch w options st path url dom depth pause =
    (let st1 := log es (log (if pause then [Sleep (delay options)] else []) st) in
     let r := spawn_children options st1 dom depth
                (collect_links url dom (anchors w html)) in
     (r.1, AwaitChildren (mkRouteNode path url [] (Some (resp_status response)) None) r.2)).
Proof.
  intros E Hok Hct Ht. unfold crawlPage_fetch. rewrite E, Hok, Hct, Ht. simpl.
  destruct (spawn_children _ _ _ _ _). reflexivity.
Qed.

(** C6: [fetchWithRetry] makes at most three attempts; the first attempt
    that gets a response, whatever its status, ends the loop and is the
    result; after the failed attempt number n (n = 1, 2) it sleeps
    1000 * n ms; it returns null only after three failed attempts, and the
    caller then returns the error "Failed to fetch after retries" with
    no status. *)
Theorem C6_fetchWithRetry url :
  let es := (fetchWithRetry w url 2).1 in
  let r := (fetchWithRetry w url 2).2 in
  (length (fetches es) <= 3)%nat
  /\ (forall response, fetch w url 0 = Some response ->
        r = Some response /\ es = [Fetch url 0])
  /\ (forall response, fetch w url 0 = None -> fetch w url 1 = Some response ->
        r = Some response /\ es = [Fetch url 0; Sleep (1000 * 1); Fetch url 1])
  /\ (forall response,
        fetch w url 0 = None -> fetch w url 1 = None -> fetch w url 2 = Some response ->
        r = Some response
        /\ es = [Fetch url 0; Sleep (1000 * 1); Fetch url 1; Sleep (1000 * 2); Fetch url 2])
  /\ (fetch w url 0 = None -> fetch w url 1 = None -> fetch w url 2 = None ->
        r = None
        /\ es = [Fetch url 0; Sleep (1000 * 1); Fetch url 1; Sleep (1000 * 2); Fetch url 2]
        /\ forall st path dom depth pause,
             exists node,
               (crawlPage_fetch w options st path url dom depth pause).2
                 = Settled (Fulfilled node)
               /\ error node = Some "Failed to fetch after retries"%string
               /\ status node = None)
  /\ (r = None ->
        fetch w url 0 = None /\ fetch w url 1 = None /\ fetch w url 2 = None).
Proof.
  cbv zeta. rewrite fetchWithRetry_unfold.
  destruct (fetch w url 0) as [r0|] eqn:E0;
    [|destruct (fetch w url 1) as [r1|] eqn:E1;
      [|destruct (fetch w url 2) as [r2|] eqn:E2]];
    simpl; repeat split; try lia; try congruence;
    try (intros; discriminate).
  intros st path dom depth pause.
  eexists. erewrite crawlPage_fetch_no_response.
  - repeat split; reflexivity.
  - rewrite fetchWithRetry_unfold, E0, E1, E2. reflexivity.
Qed.

End FetchFacts.

(** ** Induction on trees of nodes and of promises *)

Lemma RouteNode_ind' (P : RouteNode -> Prop) :
  (forall p u cs s e, Forall P cs -> P (mkRouteNode p u cs s e)) ->
  forall n, P n.
Proof.
  intros H. fix IH 1. intros [p u cs s e]. apply H.
  induction cs as [|c cs IHcs]; constructor; [apply IH | apply IHcs].
Qed.

Lemma promise_ind' (P : promise -> Prop) :
  (forall r, P (Settled r)) ->
  (forall path u d depth pause, P (AwaitFetch path u d depth pause)) ->
  (forall node ps, Forall P ps -> P (AwaitChildren node ps)) ->
  forall p, P p.
Proof.
  intros H1 H2 H3. fix IH 1.
  intros [r|path u d depth pause|node ps]; [apply H1 | apply H2 |].
  apply H3. induction ps as [|q ps IHps]; constructor; [apply IH | apply IHps].
Qed.

Lemma nodes_unfold n : nodes n = n :: flat_map nodes (children n).
Proof. destruct n; reflexivity. Qed.

(** ** Properties of the promises that every step keeps *)

Section Good.
Context (w : World) (options : CrawlOptions).

Variable good_node : RouteNode -> Prop.
Variable good_call : string -> string -> Z -> Prop.

Hypothesis good_node_children :
  forall n cs, good_node n ->
    good_node (mkRouteNode (path n) (url n) cs (status n) (error n)).

Hypothesis good_crawlPage_fetch :
  forall st path u d depth pause,
    good_call u d depth ->
    (good good_node good_call) (crawlPage_fetch w options st path u d depth pause).2.

Lemma good_resume_in k st ps :
  Forall (fun p => forall k st, (good good_node good_call) p -> (good good_node good_call) (resume w options k st p).2) ps ->
  Forall (good good_node good_call) ps ->
  Forall (good good_node good_call) (resume_in (resume w options) pending k st ps).2.
Proof.
  intros IH. revert k. induction IH as [|q qs IHq _ IHqs]; intros k Hg; simpl.
  - constructor.
  - inversion Hg as [|? ? Hq Hqs]; subst.
    destruct (k <? pending q)%nat.
    + specialize (IHq k st Hq).
      destruct (resume w options k st q) as [st' q']. simpl in *.
      constructor; assumption.
    + specialize (IHqs (k - pending q)%nat Hqs).
      destruct (resume_in _ _ _ _ qs) as [st' qs']. simpl in *.
      constructor; assumption.
Qed.

Lemma good_resume p : forall k st, (good good_node good_call) p -> (good good_node good_call) (resume w options k st p).2.
Proof.
  induction p as [r|path u d depth pause|node ps IH] using promise_ind';
    intros k st Hg; simpl.
  - assumption.
  - inversion Hg; subst. now apply good_crawlPage_fetch.
  - inversion Hg as [| |? ? Hn Hc Hps]; subst.
    pose proof (good_resume_in k st ps IH Hps) as H.
    destruct (resume_in _ _ _ _ ps) as [st' ps']. simpl in *.
    now constructor.
Qed.

Lemma good_run fuel : forall sched i st p,
  (good good_node good_call) p -> (good good_node good_call) (run w options fuel sched i st p).2.
Proof.
  induction fuel as [|fuel IH]; intros sched i st p Hg; simpl; [assumption|].
  destruct (pending p) as [|n]; [assumption|].
  pose proof (good_resume p (sched i mod S n)%nat st Hg) as H.
  destruct (resume w options _ st p) as [st' p']. simpl in H.
  now apply IH.
Qed.

Lemma good_attach rs : forall node,
  good_node node ->
  Forall (fun r => exists n, r = Fulfilled n /\ Forall good_node (nodes n)) rs ->
  Forall good_node (flat_map nodes (children node)) ->
  Forall good_node (nodes (attach node rs)).
Proof.
  unfold attach.
  induction rs as [|r rs IH]; intros node Hn Hrs Hcs; simpl.
  - rewrite nodes_unfold. constructor; assumption.
  - inversion Hrs as [|? ? [n [-> Hr]] Hrs']; subst.
    destruct (negb (path n =? path node)%string).
    + apply IH; [now apply good_node_children | assumption |].
      simpl. rewrite flat_map_app. simpl. rewrite app_nil_r.
      apply Forall_app; split; assumption.
    + now apply IH.
Qed.

(** A settled promise of a good crawl is fulfilled, never rejected, and
    every node of its tree is good. *)
Lemma good_settle p : forall r,
  (good good_node good_call) p -> settle p = Some r ->
  exists n, r = Fulfilled n /\ Forall good_node (nodes n).
Proof.
  induction p as [r0|path u d depth pause|node ps IH] using promise_ind';
    intros r Hg Hs; simpl in Hs.
  - inversion Hg; subst. simplify_eq. eauto.
  - discriminate.
  - inversion Hg as [| |? ? Hn Hc Hps]; subst.
    destruct (settle_all settle ps) as [rs|] eqn:E; [|discriminate].
    simplify_eq. eexists; split; [reflexivity|].
    apply good_attach; [assumption | | rewrite Hc; constructor].
    clear Hn Hc Hg. revert rs E.
    induction ps as [|q qs IHqs]; intros rs E; simpl in E.
    + simplify_eq. constructor.
    + inversion IH as [|? ? IHq IHqs']; subst.
      inversion Hps as [|? ? Hq Hqs]; subst.
      destruct (settle q) as [rq|] eqn:Eq; [|discriminate].
      destruct (settle_all settle qs) as [rqs|] eqn:Eqs; [|discriminate].
      simplify_eq. constructor; [now apply IHq | now apply IHqs].
Qed.

(** The promises the link loop creates. *)
Lemma good_spawn_children d depth links : forall st,
  (forall st u, In u links -> u ∉ visited st ->
     (pageCount st < page_budget options)%Z ->
     (good good_node good_call) (crawlPage options st u d (depth + 1)).2) ->
  Forall (good good_node good_call) (spawn_children options st d depth links).2.
Proof.
  induction links as [|u links IH]; intros st H; simpl.
  - constructor.
  - destruct (negb (bool_decide (u ∈ visited st)) && below (pageCount st) (maxPages options))
      eqn:E.
    + apply andb_true_iff in E as [Hv Hp].
      apply negb_true_iff, bool_decide_eq_false in Hv.
      rewrite below_ceiling in Hp. apply Z.ltb_lt in Hp.
      pose proof (H st u (or_introl eq_refl) Hv Hp) as Hg.
      destruct (crawlPage options st u d (depth + 1)) as [st1 p].
      specialize (IH st1 (fun st u Hu => H st u (or_intror Hu))).
      destruct (spawn_children options st1 d depth links) as [st2 ps].
      simpl in *. constructor; assumption.
    + apply IH. intros; apply H; auto. now right.
Qed.

End Good.

(** ** The page counter, the visited set and the log *)

Lemma fetched_app es es' : fetched (es ++ es') = fetched es ∪ fetched es'.
Proof. unfold fetched. rewrite omap_app. apply list_to_set_app_L. Qed.

Lemma fetched_nil : fetched [] = ∅.
Proof. reflexivity. Qed.

Lemma fetched_sleep ms : fetched [Sleep ms] = ∅.
Proof. unfold fetched. simpl. set_solver. Qed.

Section Counting.
Context (w : World) (options : CrawlOptions).

Lemma tidy_initial : tidy options initial.
Proof. split; simpl; [reflexivity | now left | set_solver]. Qed.

Lemma advance_crawlPage st u d depth :
  tidy options st ->
  let r := crawlPage options st u d depth in
  advance options st r.1 (pending r.2) (waiting r.2) /\ trace r.1 = trace st.
Proof.
  intros [Hs Hb Hf]. cbv zeta.
  destruct (crawlPage_outcome options st u d depth); simpl;
    try (split; [|reflexivity]; split; simpl;
         [split; assumption | set_solver | lia | intros ? []]).
  split; [|reflexivity]. split; simpl.
  - split; simpl.
    + rewrite size_union by set_solver. rewrite size_singleton. lia.
    + right. lia.
    + set_solver.
  - set_solver.
  - lia.
  - intros ? [<-|[]]. set_solver.
Qed.

Lemma advance_spawn_children d depth links : forall st,
  tidy options st ->
  let r := spawn_children options st d depth links in
  advance options st r.1 (list_sum (map pending r.2)) (flat_map waiting r.2)
  /\ trace r.1 = trace st.
Proof.
  induction links as [|u links IH]; intros st Ht; cbv zeta; simpl.
  - split; [|reflexivity]. split; simpl; [assumption | set_solver | lia | intros ? []].
  - destruct (negb (bool_decide (u ∈ visited st)) && below (pageCount st) (maxPages options)).
    + pose proof (advance_crawlPage st u d (depth + 1) Ht) as [[H1 H2 H3 H4] H5].
      destruct (crawlPage options st u d (depth + 1)) as [st1 p]. simpl in *.
      pose proof (IH st1 H1) as [[G1 G2 G3 G4] G5].
      destruct (spawn_children options st1 d depth links) as [st2 ps]. simpl in *.
      split; [|congruence]. split; simpl.
      * assumption.
      * set_solver.
      * lia.
      * intros x Hx. apply in_app_or in Hx as [Hx|Hx]; [|now apply G4].
        apply G2. now apply H4.
    + apply IH, Ht.
Qed.

Lemma tidy_log st es :
  tidy options st -> fetched es ⊆ visited st -> tidy options (log es st).
Proof.
  intros [Hs Hb Hf] He. split; simpl; try assumption.
  rewrite fetched_app. set_solver.
Qed.

Lemma advance_crawlPage_fetch st path u d depth pause :
  tidy options st -> u ∈ visited st ->
  let r := crawlPage_fetch w options st path u d depth pause in
  advance options st r.1 (pending r.2) (waiting r.2)
  /\ fetched (trace r.1) ⊆ fetched (trace st) ∪ {[u]}.
Proof.
  intros Ht Hu. cbv zeta.
  set (st0 := log (if pause then [Sleep (delay options)] else []) st).
  assert (Ht0 : tidy options st0).
  { apply tidy_log; [assumption|]. destruct pause; [rewrite fetched_sleep|]; set_solver. }
  destruct (fetchWithRetry w u 2) as [es r] eqn:E.
  pose proof (fetchWithRetry_fetched w u 2 es r E) as Hes.
  set (st1 := log es st0).
  assert (Ht1 : tidy options st1).
  { apply tidy_log; [assumption|]. simpl. set_solver. }
  assert (Hf1 : fetched (trace st1) ⊆ fetched (trace st) ∪ {[u]}).
  { simpl. rewrite !fetched_app.
    destruct pause; [rewrite fetched_sleep|rewrite fetched_nil]; set_solver. }
  assert (Hsettled : forall node,
             advance options st st1 (pending (Settled (Fulfilled node)))
               (waiting (Settled (Fulfilled node)))).
  { intros node. split; simpl; [assumption | set_solver | lia | intros ? []]. }
  destruct r as [response|].
  2:{ rewrite (crawlPage_fetch_no_response w options st path u d depth pause es E).
      split; [apply Hsettled | exact Hf1]. }
  destruct (ok response) eqn:Hok.
  2:{ rewrite (crawlPage_fetch_http_error w options st path u d depth pause es _ E Hok).
      split; [apply Hsettled | exact Hf1]. }
  destruct (includes "text/html" (default EmptyString (content_type response))) eqn:Hct.
  2:{ rewrite (crawlPage_fetch_not_html w options st path u d depth pause es _ E Hok Hct).
      split; [apply Hsettled | exact Hf1]. }
  destruct (text response) as [e|html] eqn:Htx.
  { rewrite (crawlPage_fetch_body_error w options st path u d depth pause es _ e E Hok Hct Htx).
    split; [apply Hsettled | exact Hf1]. }
  rewrite (crawlPage_fetch_html w options st path u d depth pause es _ html E Hok Hct Htx).
  cbv zeta. fold st0. fold st1.
  pose proof (advance_spawn_children d depth (collect_links u d (anchors w html)) st1 Ht1)
    as [[G1 G2 G3 G4] G5].
  destruct (spawn_children options st1 d depth _) as [st2 ps]. simpl in *.
  split; [|rewrite G5; exact Hf1].
  split; simpl; [assumption | set_solver | lia | assumption].
Qed.

End Counting.

Section Steps.
Context (w : World) (options : CrawlOptions).

Lemma step_resume_in ps :
  Forall (fun p => forall k st,
            tidy options st -> (forall u, In u (waiting p) -> u ∈ visited st) ->
            (k < pending p)%nat ->
            let r := resume w options k st p in
            step_spec options st (pending p) (waiting p) r.1 (pending r.2) (waiting r.2)) ps ->
  forall k st,
    tidy options st -> (forall u, In u (flat_map waiting ps) -> u ∈ visited st) ->
    (k < list_sum (map pending ps))%nat ->
    let r := resume_in (resume w options) pending k st ps in
    step_spec options st (list_sum (map pending ps)) (flat_map waiting ps)
      r.1 (list_sum (map pending r.2)) (flat_map waiting r.2).
Proof.
  intros IH. induction IH as [|q qs IHq _ IHqs]; intros k st Ht Hw Hk; cbv zeta; simpl in *.
  - lia.
  - destruct (k <? pending q)%nat eqn:E.
    + apply Nat.ltb_lt in E.
      assert (Hwq : forall u, In u (waiting q) -> u ∈ visited st).
      { intros u Hu. apply Hw, in_or_app. now left. }
      specialize (IHq k st Ht Hwq E). cbv zeta in IHq.
      destruct (resume w options k st q) as [st' q']. simpl in *.
      destruct IHq as (H1 & H2 & H3 & H4 & H5).
      split; [assumption|]. split; [assumption|]. split; [|split].
      * intros u Hu. apply in_app_or in Hu as [Hu|Hu]; [now apply H3|].
        apply H2, Hw, in_or_app. now right.
      * lia.
      * rewrite list_to_set_app_L. set_solver.
    + apply Nat.ltb_ge in E.
      assert (Hwqs : forall u, In u (flat_map waiting qs) -> u ∈ visited st).
      { intros u Hu. apply Hw, in_or_app. now right. }
      specialize (IHqs (k - pending q)%nat st Ht Hwqs ltac:(lia)). cbv zeta in IHqs.
      destruct (resume_in _ _ _ st qs) as [st' qs']. simpl in *.
      destruct IHqs as (H1 & H2 & H3 & H4 & H5).
      split; [assumption|]. split; [assumption|]. split; [|split].
      * intros u Hu. apply in_app_or in Hu as [Hu|Hu]; [|now apply H3].
        apply H2, Hw, in_or_app. now left.
      * lia.
      * rewrite list_to_set_app_L. set_solver.
Qed.

Lemma step_resume p : forall k st,
  tidy options st -> (forall u, In u (waiting p) -> u ∈ visited st) ->
  (k < pending p)%nat ->
  let r := resume w options k st p in
  step_spec options st (pending p) (waiting p) r.1 (pending r.2) (waiting r.2).
Proof.
  induction p as [r0|path u d depth pause|node ps IH] using promise_ind';
    intros k st Ht Hw Hk; cbv zeta; simpl in *.
  - lia.
  - pose proof (advance_crawlPage_fetch w options st path u d depth pause Ht
                  (Hw u (or_introl eq_refl))) as [[H1 H2 H3 H4] H5].
    split; [assumption|]. split; [assumption|]. split; [assumption|]. split.
    + lia.
    + set_solver.
  - pose proof (step_resume_in ps IH k st Ht Hw Hk) as H. cbv zeta in H.
    destruct (resume_in _ _ _ st ps) as [st' ps']. exact H.
Qed.

Lemma run_S fuel sched i st p :
  run w options (S fuel) sched i st p =
    match pending p with
    | O => (st, p)
    | S n =>
        let '(st', p') := resume w options (sched i mod S n) st p in
        run w options fuel sched (S i) st' p'
    end.
Proof. reflexivity. Qed.

(** The loop keeps the state tidy, and it stops with no call waiting
    unless its fuel ran out after [fuel] steps. *)
Lemma run_spec fuel : forall sched i st p (n : nat),
  tidy options st -> (forall u, In u (waiting p) -> u ∈ visited st) ->
  (Z.of_nat n + Z.of_nat (pending p) = pageCount st)%Z ->
  let r := run w options fuel sched i st p in
  tidy options r.1
  /\ (forall u, In u (waiting r.2) -> u ∈ visited r.1)
  /\ exists m : nat,
       (Z.of_nat m + Z.of_nat (pending r.2) = pageCount r.1)%Z
       /\ (pending r.2 = 0%nat \/ (n + fuel <= m)%nat).
Proof.
  induction fuel as [|fuel IH]; intros sched i st p n Ht Hw Hn; cbv zeta.
  - simpl. split; [assumption|]. split; [assumption|].
    exists n. split; [assumption|]. right. lia.
  - rewrite run_S. destruct (pending p) as [|k] eqn:Ep.
    + simpl. split; [assumption|]. split; [assumption|].
      exists n. rewrite Ep. split; [assumption|now left].
    + assert (Hk : (sched i mod S k < pending p)%nat).
      { rewrite Ep. apply Nat.mod_upper_bound. lia. }
      pose proof (step_resume p _ st Ht Hw Hk) as H. cbv zeta in H.
      destruct (resume w options (sched i mod S k) st p) as [st' p']. simpl in H.
      destruct H as (H1 & H2 & H3 & H4 & H5).
      specialize (IH sched (S i) st' p' (S n) H1 H3 ltac:(lia)). cbv zeta in IH.
      destruct IH as (G1 & G2 & m & G3 & G4).
      split; [assumption|]. split; [assumption|].
      exists m. split; [assumption|].
      destruct G4; [now left | right; lia].
Qed.

Lemma settle_pending p : pending p = 0%nat -> exists r, settle p = Some r.
Proof.
  induction p as [r0|path u d depth pause|node ps IH] using promise_ind';
    intros Hp; simpl in *.
  - eauto.
  - discriminate.
  - assert (exists rs, settle_all settle ps = Some rs) as [rs ->]; [|eauto].
    induction IH as [|q qs IHq _ IHqs]; simpl in *; [eauto|].
    destruct IHq as [r ->]; [lia|]. destruct IHqs as [rs ->]; [lia|]. eauto.
Qed.

(** With [page_budget] steps of fuel the loop always runs to the end. *)
Lemma run_completes sched url d :
  let r0 := crawlPage options initial url d 0 in
  let r := run w options (Z.to_nat (page_budget options)) sched 0 r0.1 r0.2 in
  pending r.2 = 0%nat
  /\ tidy options r.1.
Proof.
  cbv zeta.
  pose proof (advance_crawlPage options initial url d 0 (tidy_initial options))
    as [[H1 H2 H3 H4] H5].
  destruct (crawlPage options initial url d 0) as [st p]. simpl in *.
  pose proof (run_spec (Z.to_nat (page_budget options)) sched 0%nat st p 0%nat H1 H4
                ltac:(lia)) as H. cbv zeta in H.
  destruct (run w options _ sched 0 st p) as [st' p']. simpl in *.
  destruct H as (G1 & G2 & m & G3 & G4). split; [|assumption].
  destruct G4 as [G4|G4]; [assumption|].
  destruct G1 as [_ [Hb|Hb] _]; lia.
Qed.

End Steps.

(** ** The crawl as a whole *)

Section CrawlFacts.
Context (w : World) (options : CrawlOptions).

Lemma crawlPage_fetch_outcome st path u d depth pause :
  fetch_outcome options path u d depth (crawlPage_fetch w options st path u d depth pause).2.
Proof.
  destruct (fetchWithRetry w u 2) as [es [response|]] eqn:E.
  2:{ erewrite crawlPage_fetch_no_response by eassumption. constructor. }
  destruct (ok response) eqn:Hok.
  2:{ erewrite crawlPage_fetch_http_error by eassumption. constructor. }
  destruct (includes "text/html" (default EmptyString (content_type response))) eqn:Hct.
  2:{ erewrite crawlPage_fetch_not_html by eassumption. constructor. }
  destruct (text response) as [e|html] eqn:Htx.
  { erewrite crawlPage_fetch_body_error by eassumption. constructor. }
  erewrite crawlPage_fetch_html by eassumption. cbv zeta. simpl. constructor.
Qed.

Lemma getRoutesFromPage_invalid sched url :
  URL.new (start_url url) None = None ->
  getRoutesFromPage w options sched url = Some (invalid_start url, []).
Proof. intros H. unfold getRoutesFromPage. fold (start_url url). now rewrite H. Qed.

Lemma getRoutesFromPage_valid sched url baseUrl :
  URL.new (start_url url) None = Some baseUrl ->
  getRoutesFromPage w options sched url =
    (let r0 := crawlPage options initial (URL.href baseUrl) (URL.hostname baseUrl) 0 in
     let r := run w options (Z.to_nat (page_budget options)) sched 0 r0.1 r0.2 in
     match settle r.2 with
     | Some (Fulfilled routeTree) => Some (routeTree, trace r.1)
     | Some (Rejected _) => Some (invalid_start url, trace r.1)
     | None => None
     end).
Proof.
  intros H. unfold getRoutesFromPage. fold (start_url url). rewrite H. cbv zeta.
  destruct (crawlPage options initial _ _ 0) as [st0 p0]. simpl.
  destruct (run w options _ sched 0 st0 p0) as [st p]. reflexivity.
Qed.

(** A property of nodes that the prefix and the second part of [crawlPage]
    establish holds of every node of the tree of a crawl. *)
Lemma getRoutesFromPage_good (good_node : RouteNode -> Prop)
  (good_call : string -> string -> Z -> Prop) sched input baseUrl tree es :
  (forall n cs, good_node n ->
     good_node (mkRouteNode (path n) (url n) cs (status n) (error n))) ->
  (forall st path u d depth pause, good_call u d depth ->
     good good_node good_call (crawlPage_fetch w options st path u d depth pause).2) ->
  URL.new (start_url input) None = Some baseUrl ->
  good good_node good_call
    (crawlPage options initial (URL.href baseUrl) (URL.hostname baseUrl) 0).2 ->
  getRoutesFromPage w options sched input = Some (tree, es) ->
  Forall good_node (nodes tree).
Proof.
  intros Hc Hf Hu Hroot Hget.
  rewrite (getRoutesFromPage_valid sched input baseUrl Hu) in Hget. cbv zeta in Hget.
  destruct (crawlPage options initial _ _ 0) as [st0 p0]. simpl in *.
  pose proof (good_run w options good_node good_call Hf
                (Z.to_nat (page_budget options)) sched 0%nat st0 p0 Hroot) as Hg.
  destruct (run w options _ sched 0 st0 p0) as [st p]. simpl in *.
  destruct (settle p) as [r|] eqn:Es; [|discriminate].
  destruct (good_settle good_node good_call Hc p r Hg Es) as [n [-> Hn]].
  now simplify_eq.
Qed.

(** *** C1 *)

Lemma status_xor_error_failed p u cs e :
  status_xor_error (mkRouteNode p u cs None (Some e)).
Proof. unfold status_xor_error; simpl. split; [right; discriminate|]. intros [[_ ?] _]. discriminate. Qed.

Lemma status_xor_error_http p u cs s e :
  status_xor_error (mkRouteNode p u cs (Some s) (Some e)).
Proof. unfold status_xor_error; simpl. split; [right; discriminate|]. intros [[_ ?] _]. discriminate. Qed.

Lemma status_xor_error_parsed p u cs s :
  status_xor_error (mkRouteNode p u cs (Some s) None).
Proof.
  unfold status_xor_error; simpl. split; [left; split; [discriminate|reflexivity]|].
  intros [_ H]. now apply H.
Qed.

Create HintDb nodes.
Local Hint Resolve status_xor_error_failed status_xor_error_http
  status_xor_error_parsed : nodes.

(** A call made on a URL that is not visited does not return the bare node
    of the [visited.has] branch; the link loop and the entry point make no
    other calls. *)
Lemma crawlPage_not_visited_good st u d depth :
  u ∉ visited st ->
  good status_xor_error (fun _ _ _ => True) (crawlPage options st u d depth).2.
Proof.
  intros Hv. destruct (crawlPage_outcome options st u d depth); simpl.
  - constructor. simpl. constructor; auto with nodes.
  - constructor. simpl. constructor; auto with nodes.
  - contradiction.
  - now constructor.
Qed.

Lemma crawlPage_fetch_one_of st path u d depth pause :
  good status_xor_error (fun _ _ _ => True)
    (crawlPage_fetch w options st path u d depth pause).2.
Proof.
  destruct (crawlPage_fetch_outcome st path u d depth pause).
  1-4: constructor; simpl; constructor; auto with nodes.
  constructor; [auto with nodes | reflexivity |].
  apply good_spawn_children. intros st1 u1 _ Hv _.
  now apply crawlPage_not_visited_good.
Qed.

(** C1: in every tree [getRoutesFromPage] returns, every node has either a
    status and no error, or an error, and not both; the bare node of the
    branch for a visited URL, which has neither, is in no tree, because no
    call of [crawlPage] is made on a visited URL. *)
Theorem C1_status_xor_error sched url tree es :
  getRoutesFromPage w options sched url = Some (tree, es) ->
  Forall status_xor_error (nodes tree).
Proof.
  intros Hget.
  destruct (URL.new (start_url url) None) as [baseUrl|] eqn:Hu.
  - eapply (getRoutesFromPage_good status_xor_error (fun _ _ _ => True)); try eassumption.
    + intros [p u cs s e] cs' H. exact H.
    + intros. apply crawlPage_fetch_one_of.
    + apply crawlPage_not_visited_good. simpl. set_solver.
  - rewrite (getRoutesFromPage_invalid sched url Hu) in Hget. simplify_eq.
    simpl. constructor; [|constructor]. apply status_xor_error_failed.
Qed.

End CrawlFacts.

Lemma C1_status_xor_error_witness :
  Forall status_xor_error
    (nodes (mkRouteNode "/" "https://example.com/"
              [mkRouteNode "/b" "https://example.com/b" [] None
                 (Some "Max depth reached"%string);
               mkRouteNode "/c" "https://example.com/c" [] None
                 (Some "Max depth reached"%string)]
              (Some 200%Z) None)).
Proof.
  apply (C1_status_xor_error site (mkCrawlOptions (Some 0%Q) None None None)
           first_waiting "example.com" _
           [Fetch "https://example.com/" 0]).
  vm_compute. reflexivity.
Defined.

Section Budget.
Context (w : World) (options : CrawlOptions).



(** C2, as the code has it: when the fetch of a URL gets a 2xx response
    whose content type does not contain "text/html", the call returns a
    node with the error "Not HTML content", no children and no status; the
    body is not read and no link is extracted. *)
Theorem C2_not_html st path currentUrl baseDomain depth pause es response :
  fetchWithRetry w currentUrl 2 = (es, Some response) ->
  ok response = true ->
  includes "text/html" (default EmptyString (content_type response)) = false ->
  exists node,
    (crawlPage_fetch w options st path currentUrl baseDomain depth pause).2
      = Settled (Fulfilled node)
    /\ url node = currentUrl
    /\ status node = None
    /\ error node = Some "Not HTML content"%string
    /\ children node = []
    /\ visited (crawlPage_fetch w options st path currentUrl baseDomain depth pause).1
       = visited st.
Proof.
  intros E Hok Hct. eexists.
  rewrite (crawlPage_fetch_not_html w options st path currentUrl baseDomain depth pause
             es response E Hok Hct).
  simpl. repeat split; reflexivity.
Qed.


(** No promise of a crawl is rejected: whatever a good crawl settles to is
    a fulfilled promise. *)
Lemma crawl_never_rejects sched baseUrl :
  let r0 := crawlPage options initial (URL.href baseUrl) (URL.hostname baseUrl) 0 in
  let r := run w options (Z.to_nat (page_budget options)) sched 0 r0.1 r0.2 in
  exists tree, settle r.2 = Some (Fulfilled tree).
Proof.
  cbv zeta.
  pose proof (run_completes w options sched (URL.href baseUrl) (URL.hostname baseUrl))
    as [Hp _]. cbv zeta in Hp.
  assert (Hroot : good status_xor_error (fun _ _ _ => True)
                    (crawlPage options initial (URL.href baseUrl)
                       (URL.hostname baseUrl) 0).2).
  { apply crawlPage_not_visited_good. simpl. set_solver. }
  destruct (crawlPage options initial _ _ 0) as [st0 p0]. simpl in *.
  pose proof (good_run w options status_xor_error (fun _ _ _ => True)
                (fun st path u d depth pause _ =>
                   crawlPage_fetch_one_of w options st path u d depth pause)
                (Z.to_nat (page_budget options)) sched 0%nat st0 p0 Hroot) as Hg.
  destruct (run w options _ sched 0 st0 p0) as [st p]. simpl in *.
  destruct (settle_pending p Hp) as [r Hr].
  destruct (good_settle status_xor_error (fun _ _ _ => True)
              (fun n cs H => H) p r Hg Hr) as [n [-> _]].
  eauto.
Qed.

(** C8: [getRoutesFromPage] always resolves with a tree.  The promise of
    the root call is never rejected, so the [catch] of the entry point is
    for the start URL that does not parse; and every failure is a node with
    an error: the invalid start URL, the fetch that failed after its
    retries, the HTTP error, the content that is not HTML, the body that
    cannot be read, and the two budgets. *)
Theorem C8_always_resolves :
  (forall sched input,
     exists tree es, getRoutesFromPage w options sched input = Some (tree, es))
  /\ (forall sched input,
        URL.new (start_url input) None = None ->
        exists tree es, getRoutesFromPage w options sched input = Some (tree, es)
                        /\ error tree = Some "Invalid starting URL"%string)
  /\ (forall sched input baseUrl,
        URL.new (start_url input) None = Some baseUrl ->
        let r0 := crawlPage options initial (URL.href baseUrl) (URL.hostname baseUrl) 0 in
        let r := run w options (Z.to_nat (page_budget options)) sched 0 r0.1 r0.2 in
        exists tree,
          settle r.2 = Some (Fulfilled tree)
          /\ getRoutesFromPage w options sched input = Some (tree, trace r.1))
  /\ (forall st path u d depth pause es,
        fetchWithRetry w u 2 = (es, None) ->
        fails_with (crawlPage_fetch w options st path u d depth pause)
          "Failed to fetch after retries")
  /\ (forall st path u d depth pause es response,
        fetchWithRetry w u 2 = (es, Some response) -> ok response = false ->
        fails_with (crawlPage_fetch w options st path u d depth pause)
          ("HTTP " ++ show_Z (resp_status response)))
  /\ (forall st path u d depth pause es response,
        fetchWithRetry w u 2 = (es, Some response) -> ok response = true ->
        includes "text/html" (default EmptyString (content_type response)) = false ->
        fails_with (crawlPage_fetch w options st path u d depth pause) "Not HTML content")
  /\ (forall st path u d depth pause es response e,
        fetchWithRetry w u 2 = (es, Some response) -> ok response = true ->
        includes "text/html" (default EmptyString (content_type response)) = true ->
        text response = inl e ->
        fails_with (crawlPage_fetch w options st path u d depth pause)
          (match e with ErrorObject m => m | OtherValue => "Unknown error" end))
  /\ (forall st u d depth,
        (maxDepth options < inject_Z depth)%Q ->
        fails_with (crawlPage options st u d depth) "Max depth reached")
  /\ (forall st u d depth,
        (inject_Z depth <= maxDepth options)%Q ->
        (maxPages options <= inject_Z (pageCount st))%Q ->
        fails_with (crawlPage options st u d depth) "Max pages reached").
Proof.
  assert (Hvalid : forall sched input baseUrl,
             URL.new (start_url input) None = Some baseUrl ->
             let r0 := crawlPage options initial (URL.href baseUrl)
                         (URL.hostname baseUrl) 0 in
             let r := run w options (Z.to_nat (page_budget options)) sched 0 r0.1 r0.2 in
             exists tree,
               settle r.2 = Some (Fulfilled tree)
               /\ getRoutesFromPage w options sched input = Some (tree, trace r.1)).
  { intros sched input baseUrl Hu. cbv zeta.
    rewrite (getRoutesFromPage_valid w options sched input baseUrl Hu). cbv zeta.
    destruct (crawl_never_rejects sched baseUrl) as [tree Ht]. cbv zeta in Ht.
    rewrite Ht. eauto. }
  split; [|split; [|split; [exact Hvalid|]]].
  - intros sched input.
    destruct (URL.new (start_url input) None) as [baseUrl|] eqn:Hu.
    + destruct (Hvalid sched input baseUrl Hu) as [tree [_ Ht]]. eauto.
    + rewrite (getRoutesFromPage_invalid w options sched input Hu). eauto.
  - intros sched input Hu.
    rewrite (getRoutesFromPage_invalid w options sched input Hu).
    do 2 eexists. split; reflexivity.
  - unfold fails_with. repeat split.
    + intros. erewrite crawlPage_fetch_no_response by eassumption. simpl. eauto.
    + intros. erewrite crawlPage_fetch_http_error by eassumption. simpl. eauto.
    + intros. erewrite crawlPage_fetch_not_html by eassumption. simpl. eauto.
    + intros. erewrite crawlPage_fetch_body_error by eassumption. simpl. eauto.
    + intros st u d depth Hd. apply floor_lt in Hd.
      rewrite crawlPage_over_depth by assumption. simpl. eauto.
    + intros st u d depth Hd Hp. apply floor_ge in Hd. apply ceiling_le in Hp.
      rewrite crawlPage_over_pages by assumption. simpl. eauto.
Qed.

End Budget.

(** ** The theorems at work on the small sites *)

Lemma C2_counterexample :
  exists response node,
    fetch json_site "https://api.example.com/data.json" 0 = Some response
    /\ ok response = true
    /\ resp_status response = 200%Z
    /\ includes "text/html" (default EmptyString (content_type response)) = false
    /\ getRoutesFromPage json_site no_options first_waiting
         "https://api.example.com/data.json"
       = Some (node, [Fetch "https://api.example.com/data.json" 0])
    /\ error node = Some "Not HTML content"%string
    /\ children node = []
    /\ status node = None
    /\ status node <> Some 200%Z.
Proof.
  do 2 eexists. split; [reflexivity|]. split; [reflexivity|]. split; [reflexivity|].
  split; [reflexivity|]. split; [vm_compute; reflexivity|].
  simpl. repeat split; try reflexivity. discriminate.
Qed.

Lemma C2_not_html_witness :
  exists node,
    (crawlPage_fetch json_site no_options initial
       "/data.json" "https://api.example.com/data.json" "api.example.com" 0 false).2
      = Settled (Fulfilled node)
    /\ url node = "https://api.example.com/data.json"%string
    /\ status node = None
    /\ error node = Some "Not HTML content"%string
    /\ children node = []
    /\ visited (crawlPage_fetch json_site no_options initial
                  "/data.json" "https://api.example.com/data.json" "api.example.com"
                  0 false).1
       = visited initial.
Proof.
  apply (C2_not_html json_site no_options initial
           "/data.json" "https://api.example.com/data.json" "api.example.com" 0 false
           [Fetch "https://api.example.com/data.json" 0]
           (mkResponse 200 (Some "application/json"%string) (inr "{}"%string)));
    reflexivity.
Defined.



Lemma C6_fetchWithRetry_witness :
  (fetchWithRetry site "https://example.com/d" 2).2
    = Some (mkResponse 200 (Some "application/json"%string) (inr EmptyString))
  /\ (fetchWithRetry site "https://example.com/d" 2).1
     = [Fetch "https://example.com/d" 0; Sleep (1000 * 1);
        Fetch "https://example.com/d" 1; Sleep (1000 * 2);
        Fetch "https://example.com/d" 2].
Proof.
  destruct (C6_fetchWithRetry site no_options "https://example.com/d")
    as (_ & _ & _ & H & _).
  apply H; reflexivity.
Defined.



Lemma C8_always_resolves_witness :
  fails_with
    (crawlPage_fetch site no_options initial "/c" "https://example.com/c" "example.com"
       1 true)
    ("HTTP " ++ show_Z 404).
Proof.
  destruct (C8_always_resolves site no_options) as (_ & _ & _ & _ & H & _).
  apply (H initial "/c"%string "https://example.com/c"%string "example.com"%string 1%Z true
           [Fetch "https://example.com/c" 0] (mkResponse 404 None (inr EmptyString)));
    reflexivity.
Defined.

(** ** The URL class: parsing what the serializer writes *)

Module URL_facts.
Import URL WF.

(** *** Facts checked on every character *)

Lemma all_ascii_complete c : In c all_ascii.
Proof.
  unfold all_ascii. rewrite <- (ascii_nat_embedding c).
  apply in_map, in_seq. pose proof (nat_ascii_bounded c). lia.
Qed.

Lemma by_chars (P : ascii -> bool) :
  forallb P all_ascii = true -> forall c, P c = true.
Proof.
  intros H c. apply (proj1 (List.forallb_forall P all_ascii) H), all_ascii_complete.
Qed.

Ltac chars := apply by_chars; vm_compute; reflexivity.

Lemma implb_true a b : implb a b = true -> a = true -> b = true.
Proof. destruct a, b; simpl; congruence. Qed.

Lemma forallb_imp (p q : ascii -> bool) s :
  (forall c, implb (p c) (q c) = true) ->
  forallb p s = true -> forallb q s = true.
Proof.
  intros H. induction s as [|c s IH]; simpl; [reflexivity|].
  intros Hs. apply andb_true_iff in Hs as [Hc Hs].
  rewrite (implb_true _ _ (H c) Hc). now apply IH.
Qed.

(** *** Lists of characters *)

Lemma span_clean p a b :
  forallb (fun c => negb (p c)) a = true ->
  match b with [] => True | c :: _ => p c = true end ->
  span p (a ++ b) = (a, b).
Proof.
  intros Ha Hb. induction a as [|x a IH]; simpl in *.
  - destruct b as [|c b]; [reflexivity|]. simpl. now rewrite Hb.
  - apply andb_true_iff in Ha as [Hx Ha]. apply negb_true_iff in Hx.
    rewrite Hx, (IH Ha). reflexivity.
Qed.

Lemma break_some p a c b :
  forallb (fun c => negb (p c)) a = true -> p c = true ->
  break p (a ++ c :: b) = (a, Some b).
Proof. intros Ha Hc. unfold break. now rewrite span_clean. Qed.

Lemma break_none p a :
  forallb (fun c => negb (p c)) a = true -> break p a = (a, None).
Proof.
  intros Ha. unfold break. rewrite <- (app_nil_r a) at 1.
  now rewrite span_clean.
Qed.

Lemma forallb_rev (p : ascii -> bool) s : forallb p (rev s) = forallb p s.
Proof.
  induction s as [|c s IH]; simpl; [reflexivity|].
  rewrite forallb_app, IH. simpl. rewrite andb_true_r. apply andb_comm.
Qed.

Lemma break_last_some p a c b :
  forallb (fun c => negb (p c)) b = true -> p c = true ->
  break_last p (a ++ c :: b) = (Some a, b).
Proof.
  intros Hb Hc. unfold break_last.
  rewrite rev_app_distr. simpl. rewrite <- app_assoc. simpl.
  rewrite span_clean by (rewrite ?forallb_rev; assumption).
  now rewrite !rev_involutive.
Qed.

Lemma break_last_none p a :
  forallb (fun c => negb (p c)) a = true -> break_last p a = (None, a).
Proof.
  intros Ha. unfold break_last. rewrite <- (app_nil_r (rev a)).
  rewrite span_clean by (rewrite ?forallb_rev; auto).
  now rewrite rev_involutive.
Qed.

Lemma filter_all (q : ascii -> bool) s :
  forallb q s = true -> List.filter q s = s.
Proof.
  induction s as [|c s IH]; simpl; [reflexivity|].
  intros H. apply andb_true_iff in H as [Hc Hs]. now rewrite Hc, IH.
Qed.

Lemma percent_encode_clean set s :
  forallb (fun c => negb (set c)) s = true -> percent_encode set s = s.
Proof.
  unfold percent_encode. induction s as [|c s IH]; simpl; [reflexivity|].
  intros H. apply andb_true_iff in H as [Hc Hs]. apply negb_true_iff in Hc.
  now rewrite Hc, IH.
Qed.

Lemma map_to_lower_id s :
  forallb (fun c => negb (is_upper c)) s = true -> map to_lower s = s.
Proof.
  induction s as [|c s IH]; simpl; [reflexivity|].
  intros H. apply andb_true_iff in H as [Hc Hs]. apply negb_true_iff in Hc.
  unfold to_lower at 1. now rewrite Hc, IH.
Qed.

Lemma ceqb_eq a : forall b, ceqb a b = true <-> a = b.
Proof.
  induction a as [|x a IH]; intros [|y b]; simpl; split; try congruence.
  - intros H. apply andb_true_iff in H as [Hx Hs]. apply Ascii.eqb_eq in Hx.
    apply IH in Hs. congruence.
  - intros [= -> ->]. rewrite Ascii.eqb_refl. now apply IH.
Qed.

Lemma ceqb_refl a : ceqb a a = true.
Proof. now apply ceqb_eq. Qed.

(** *** Trimming *)

Lemma tight_app a b : tight b -> (b = [] -> tight a) -> tight (a ++ b).
Proof.
  unfold tight. rewrite rev_app_distr.
  destruct (rev b) as [|c r] eqn:E; simpl; intros Hb Ha; [|assumption].
  apply Ha. apply (f_equal (@rev ascii)) in E. now rewrite rev_involutive in E.
Qed.

Lemma tight_all s :
  forallb (fun c => negb (is_c0_or_space c)) s = true -> tight s.
Proof.
  intros H. unfold tight. rewrite <- forallb_rev in H.
  destruct (rev s) as [|c r]; [exact I|]. simpl in H.
  apply andb_true_iff in H as [H _]. now apply negb_true_iff.
Qed.

Lemma trim_id c s :
  is_c0_or_space c = false -> tight (c :: s) -> trim (c :: s) = c :: s.
Proof.
  intros Hc Ht. unfold trim. simpl drop_while at 2. rewrite Hc.
  unfold tight in Ht. destruct (rev (c :: s)) as [|x r] eqn:E.
  - apply (f_equal (@rev ascii)) in E. rewrite rev_involutive in E. discriminate.
  - simpl. rewrite Ht. rewrite <- E. apply rev_involutive.
Qed.

(** *** Numerals *)

Lemma dec_digit_code d :
  (d < 10)%N -> is_digit (chr (48 + d)) = true /\ (code (chr (48 + d)) - 48 = d)%N.
Proof.
  intros Hlt.
  assert (E : (d = 0 \/ d = 1 \/ d = 2 \/ d = 3 \/ d = 4 \/ d = 5 \/ d = 6
               \/ d = 7 \/ d = 8 \/ d = 9)%N) by lia.
  repeat (destruct E as [->|E]; [split; reflexivity|]).
  subst d. split; reflexivity.
Qed.

Lemma dec_of_N_digits n : forallb is_digit (dec_of_N n) = true.
Proof.
  assert (H : forall fuel n acc, forallb is_digit acc = true ->
                forallb is_digit (dec_digits fuel n acc) = true).
  { induction fuel as [|fuel IH]; intros k acc Hacc; simpl; [assumption|].
    destruct (dec_digit_code (k mod 10)) as [Hd _];
      [apply N.mod_upper_bound; discriminate|].
    destruct (k / 10 =? 0)%N; [simpl; now rewrite Hd|].
    apply IH. simpl. now rewrite Hd. }
  apply H. reflexivity.
Qed.

(** The digits [dec_digits] puts before [acc] are those of [n], when the
    fuel covers the binary length of [n]. *)
Lemma dec_digits_value fuel : forall n acc,
  (n < 2 ^ N.of_nat fuel)%N ->
  fold_left (fun a c => (a * 10 + (code c - 48))%N) (dec_digits fuel n acc) 0%N
  = fold_left (fun a c => (a * 10 + (code c - 48))%N) acc n.
Proof.
  induction fuel as [|fuel IH]; intros n acc Hn.
  - simpl in *. replace n with 0%N by lia. reflexivity.
  - cbn [dec_digits].
    destruct (dec_digit_code (n mod 10)) as [_ Hd];
      [apply N.mod_upper_bound; discriminate|].
    pose proof (N.div_mod n 10 ltac:(discriminate)) as Hdm.
    destruct (n / 10 =? 0)%N eqn:E.
    + apply N.eqb_eq in E. cbn [fold_left]. rewrite Hd. f_equal. lia.
    + rewrite IH.
      * cbn [fold_left]. rewrite Hd. f_equal. lia.
      * rewrite Nat2N.inj_succ, N.pow_succ_r' in Hn.
        apply N.Div0.div_lt_upper_bound. lia.
Qed.

Lemma dec_digits_not_nil fuel : forall n acc,
  acc <> [] -> dec_digits fuel n acc <> [].
Proof.
  induction fuel as [|fuel IH]; intros n acc Hacc; simpl; [assumption|].
  destruct (n / 10 =? 0)%N; [discriminate|]. apply IH. discriminate.
Qed.

Lemma dec_of_N_roundtrip n :
  (n <= 65535)%N ->
  forallb is_digit (dec_of_N n) = true
  /\ dec_value (dec_of_N n) = n
  /\ dec_of_N n <> [].
Proof.
  intros _. split; [apply dec_of_N_digits|]. split.
  - unfold dec_value, dec_of_N. rewrite dec_digits_value; [reflexivity|].
    rewrite Nat2N.inj_succ, N2Nat.id.
    destruct n as [|p]; [reflexivity|].
    apply N.log2_spec. reflexivity.
  - unfold dec_of_N. simpl.
    destruct (n / 10 =? 0)%N; [discriminate|]. apply dec_digits_not_nil. discriminate.
Qed.

(** *** The path state *)

Lemma path_state_segment sp seg : forall segs buf s,
  forallb (ok_segment sp) seg = true ->
  path_state sp segs buf (seg ++ s) = path_state sp segs (buf ++ seg) s.
Proof.
  induction seg as [|c seg IH]; intros segs buf s H; simpl.
  - now rewrite app_nil_r.
  - simpl in H. apply andb_true_iff in H as [Hc Hs].
    unfold ok_segment in Hc. apply andb_true_iff in Hc as [Hp Hsep].
    apply negb_true_iff in Hp, Hsep. rewrite Hsep, Hp.
    rewrite IH by assumption. now rewrite <- app_assoc.
Qed.

Lemma path_push_segment sp segs seg at_end :
  wf_segment sp seg = true -> path_push segs seg at_end = segs ++ [seg].
Proof.
  unfold wf_segment, path_push. intros H.
  apply andb_true_iff in H as [H Hd]. apply andb_true_iff in H as [_ Hs].
  apply negb_true_iff in Hd, Hs. now rewrite Hd, Hs.
Qed.

Lemma path_state_join sp segs : forall acc,
  forallb (wf_segment sp) segs = true -> segs <> [] ->
  path_state sp acc [] (tl (serialize_path (PathList segs))) = acc ++ segs.
Proof.
  induction segs as [|seg rest IH]; intros acc Hwf Hne; [congruence|].
  simpl in Hwf. apply andb_true_iff in Hwf as [Hseg Hrest]. simpl.
  pose proof Hseg as Hok. unfold wf_segment in Hok.
  apply andb_true_iff in Hok as [Hok _]. apply andb_true_iff in Hok as [Hok _].
  rewrite path_state_segment by assumption. simpl.
  destruct rest as [|seg' rest'].
  - simpl. now apply path_push_segment with (sp := sp).
  - simpl flat_map. simpl path_state.
    rewrite (path_push_segment sp) by assumption.
    specialize (IH (acc ++ [seg]) Hrest ltac:(discriminate)). simpl in IH.
    rewrite IH. now rewrite <- app_assoc.
Qed.

(** *** Host, port and credentials *)

Lemma existsb_none (p : ascii -> bool) s :
  forallb (fun c => negb (p c)) s = true -> existsb p s = false.
Proof.
  induction s as [|c s IH]; simpl; [reflexivity|].
  intros H. apply andb_true_iff in H as [Hc Hs]. apply negb_true_iff in Hc.
  now rewrite Hc, IH.
Qed.

Ltac from H := eapply forallb_imp; [|exact H]; chars.

Lemma parse_host_wf sp h : wf_host sp h = true -> parse_host sp h = Some h.
Proof.
  unfold wf_host, parse_host. destruct sp.
  - intros H. apply andb_true_iff in H as [H Hip]. apply andb_true_iff in H as [Hne Hd].
    destruct h as [|c h]; [discriminate|].
    rewrite existsb_none by (from Hd).
    rewrite map_to_lower_id by (from Hd).
    rewrite existsb_none by (from Hd).
    destruct (ends_in_number (c :: h)); [now rewrite Hip|reflexivity].
  - intros H. rewrite existsb_none by (from H).
    rewrite percent_encode_clean by (from H). reflexivity.
Qed.

Lemma parse_port_wf sch p :
  wf_port sch p = true -> parse_port sch (tl (serialize_port p)) = Some p.
Proof.
  unfold wf_port, parse_port. destruct p as [n|]; [|reflexivity]. simpl.
  intros H. apply andb_true_iff in H as [Hn Hd]. apply N.leb_le in Hn.
  destruct (dec_of_N_roundtrip n Hn) as (H1 & H2 & H3).
  rewrite H1. destruct (dec_of_N n) as [|c r] eqn:E; [congruence|].
  rewrite H2. apply N.leb_le in Hn. rewrite Hn.
  apply negb_true_iff, bool_decide_eq_false in Hd.
  now rewrite decide_False.
Qed.

Lemma serialize_port_digits p :
  forallb is_digit (tl (serialize_port p)) = true.
Proof. destruct p as [n|]; [apply dec_of_N_digits|reflexivity]. Qed.

Lemma serialize_port_chars p :
  forallb (fun c => is_colon c || is_digit c) (serialize_port p) = true.
Proof.
  destruct p as [n|]; [|reflexivity]. simpl.
  pose proof (dec_of_N_digits n) as H. from H.
Qed.

Lemma wf_host_chars sp h :
  wf_host sp h = true ->
  forallb (fun c => if sp then ok_domain c else ok_opaque_host c) h = true.
Proof.
  unfold wf_host. destruct sp; [|auto].
  intros H. apply andb_true_iff in H as [H _]. now apply andb_true_iff in H as [_ H].
Qed.

(** The host and the port, as the host state and the port state read
    them back. *)
Lemma hostport_roundtrip sch h p :
  wf_host (is_special sch) h = true -> wf_port sch p = true ->
  (h <> [] \/ p = None) ->
  existsb (Ascii.eqb "[") (h ++ serialize_port p) = false
  /\ break is_colon (h ++ serialize_port p)
     = (h, match p with Some _ => Some (tl (serialize_port p)) | None => None end).
Proof.
  intros Hh Hp Hne. apply wf_host_chars in Hh.
  pose proof (serialize_port_chars p) as Hpc.
  split.
  - apply existsb_none. rewrite forallb_app. apply andb_true_iff. split.
    + destruct (is_special sch); from Hh.
    + from Hpc.
  - assert (Hc : forallb (fun c => negb (is_colon c)) h = true)
      by (destruct (is_special sch); from Hh).
    destruct p as [n|]; simpl.
    + now apply break_some.
    + rewrite app_nil_r. now apply break_none.
Qed.

Lemma serialize_credentials_userinfo u :
  serialize_credentials u =
    match username u, password u with
    | [], [] => []
    | user, pass => userinfo user pass ++ ["@"%char]
    end.
Proof.
  unfold serialize_credentials, userinfo.
  destruct (username u), (password u); simpl; try reflexivity.
  - now rewrite <- app_assoc.
Qed.

Lemma userinfo_roundtrip user pass :
  forallb ok_user user = true -> forallb ok_user pass = true ->
  (let '(u, p) := break is_colon (userinfo user pass) in
   (percent_encode userinfo_set u,
    percent_encode userinfo_set (match p with Some p => p | None => [] end)))
  = (user, pass).
Proof.
  intros Hu Hp. unfold userinfo.
  assert (Hc : forallb (fun c => negb (is_colon c)) user = true) by (from Hu).
  destruct pass as [|c pass].
  - rewrite break_none by assumption. now rewrite percent_encode_clean.
  - rewrite break_some by (assumption || reflexivity).
    now rewrite !percent_encode_clean.
Qed.

Lemma userinfo_chars user pass :
  forallb ok_user user = true -> forallb ok_user pass = true ->
  forallb (fun c => ok_user c || is_colon c) (userinfo user pass) = true.
Proof.
  intros Hu Hp. unfold userinfo. destruct pass as [|c pass]; [from Hu|].
  rewrite forallb_app. apply andb_true_iff. split; [from Hu|].
  change (":"%char :: c :: pass) with ([":"%char] ++ c :: pass).
  rewrite forallb_app. apply andb_true_iff. split; [reflexivity|from Hp].
Qed.

Lemma parse_hostport_roundtrip sch h p :
  wf_host (is_special sch) h = true -> wf_port sch p = true ->
  (h <> [] \/ p = None) ->
  parse_hostport (is_special sch) sch (h ++ serialize_port p) = Some (h, p).
Proof.
  intros Hh Hp Hne. unfold parse_hostport.
  destruct (hostport_roundtrip sch h p Hh Hp Hne) as [-> ->].
  rewrite (parse_host_wf _ h Hh).
  pose proof (parse_port_wf sch p Hp) as Hpp.
  destruct p as [n|].
  - rewrite Hpp. destruct h; [destruct Hne; congruence|reflexivity].
  - simpl. destruct h; reflexivity.
Qed.

(** The authority state, the host state and the port state on what the
    serializer writes for the authority of a well-formed URL. *)
Lemma parse_authority_roundtrip u h pathstr :
  wf_authority u = true -> host u = Some h ->
  match pathstr with [] => True | c :: _ => c = "/"%char end ->
  parse_authority (is_special (scheme u)) (scheme u)
    (serialize_credentials u ++ h ++ serialize_port (port u) ++ pathstr)
  = Some (username u, password u, h, port u, pathstr).
Proof.
  unfold wf_authority. intros Hwf Hh Hpath. rewrite Hh in Hwf.
  set (sp := is_special (scheme u)) in *.
  apply andb_true_iff in Hwf as [Hwf Hport].
  apply andb_true_iff in Hwf as [Hwf Hhost].
  apply andb_true_iff in Hwf as [Huser Hpass].
  apply andb_true_iff in Hhost as [Hhost Hne].
  assert (Hne' : h <> [] \/ (username u = [] /\ password u = [] /\ port u = None)).
  { apply orb_true_iff in Hne as [Hne|Hne].
    - left. destruct h; [discriminate|discriminate].
    - right. apply andb_true_iff in Hne as [Hne H3].
      apply andb_true_iff in Hne as [H1 H2].
      destruct (username u), (password u), (port u); try discriminate. auto. }
  pose proof (parse_hostport_roundtrip (scheme u) h (port u) Hhost Hport
                ltac:(tauto)) as Hhp.
  fold sp in Hhp.
  pose proof (wf_host_chars sp h Hhost) as Hhc.
  pose proof (serialize_port_chars (port u)) as Hpc.
  pose proof (userinfo_chars _ _ Huser Hpass) as Huc.
  pose proof (userinfo_roundtrip _ _ Huser Hpass) as Hur.
  assert (Hhp_sep : forallb (fun c => negb (is_separator sp c))
                      (h ++ serialize_port (port u)) = true).
  { rewrite forallb_app. apply andb_true_iff. split.
    - destruct sp; from Hhc.
    - destruct sp; from Hpc. }
  assert (Hhp_at : forallb (fun c => negb (is_at c))
                     (h ++ serialize_port (port u)) = true).
  { rewrite forallb_app. apply andb_true_iff. split.
    - destruct sp; from Hhc.
    - from Hpc. }
  assert (Hui_sep : forallb (fun c => negb (is_separator sp c))
                      (userinfo (username u) (password u) ++ ["@"%char]) = true).
  { rewrite forallb_app. apply andb_true_iff. split.
    - destruct sp; from Huc.
    - destruct sp; reflexivity. }
  assert (Hpath' : match pathstr with
                   | [] => True
                   | c :: _ => is_separator sp c = true
                   end).
  { destruct pathstr as [|c r]; [exact I|]. subst c. reflexivity. }
  unfold parse_authority.
  rewrite serialize_credentials_userinfo.
  assert (Hcreds : forall ui,
             ui = userinfo (username u) (password u) ->
             h <> [] ->
             (let '(auth, rest) :=
                span (is_separator sp)
                  ((ui ++ ["@"%char]) ++ h ++ serialize_port (port u) ++ pathstr) in
              let '(userinfo, hostport) := break_last is_at auth in
              match userinfo, hostport with
              | Some _, [] => None
              | _, _ =>
                  match parse_hostport sp (scheme u) hostport with
                  | Some (h, p) =>
                      let '(user, pass) := parse_credentials userinfo in
                      Some (user, pass, h, p, rest)
                  | None => None
                  end
              end) = Some (username u, password u, h, port u, pathstr)).
  { intros ui -> Hhne.
    rewrite (app_assoc h), app_assoc.
    rewrite span_clean;
      [|rewrite forallb_app; apply andb_true_iff; split; assumption|assumption].
    rewrite <- app_assoc. simpl app at 2.
    rewrite break_last_some by (assumption || reflexivity).
    rewrite Hhp. unfold parse_credentials. rewrite Hur.
    destruct h as [|c h']; [congruence|]. reflexivity. }
  destruct (username u) as [|cu user] eqn:Eu, (password u) as [|cp pass] eqn:Ep.
  - (* no credentials *)
    simpl app at 1.
    rewrite (app_assoc h). rewrite span_clean by assumption.
    rewrite break_last_none by assumption.
    rewrite Hhp. reflexivity.
  - apply Hcreds; [reflexivity|]. destruct Hne' as [?|(_ & ? & _)]; congruence.
  - apply Hcreds; [reflexivity|]. destruct Hne' as [?|(? & _)]; congruence.
  - apply Hcreds; [reflexivity|]. destruct Hne' as [?|(? & _)]; congruence.
Qed.

(** *** The characters of a serialized URL *)

Lemma forallb_flat_map (p : ascii -> bool) (f : chars -> chars) segs :
  forallb (fun seg => forallb p (f seg)) segs = true ->
  forallb p (flat_map f segs) = true.
Proof.
  induction segs as [|seg segs IH]; simpl; [reflexivity|].
  intros H. apply andb_true_iff in H as [H1 H2].
  rewrite forallb_app, H1. now apply IH.
Qed.

Lemma wf_segments_chars sp segs :
  forallb (wf_segment sp) segs = true ->
  forallb (fun c => is_slash c || ok_segment sp c) (serialize_path (PathList segs)) = true.
Proof.
  intros H. simpl. apply forallb_flat_map.
  induction segs as [|seg segs IH]; simpl in *; [reflexivity|].
  apply andb_true_iff in H as [H1 H2]. rewrite (IH H2), andb_true_r.
  unfold wf_segment in H1. apply andb_true_iff in H1 as [H1 _].
  apply andb_true_iff in H1 as [H1 _].
  eapply forallb_imp; [|exact H1]. intros c. destruct (is_slash c), (ok_segment sp c); reflexivity.
Qed.

Lemma serialize_credentials_chars u :
  forallb ok_user (username u) = true -> forallb ok_user (password u) = true ->
  forallb (fun c => ok_user c || is_colon c || is_at c) (serialize_credentials u) = true.
Proof.
  intros Hu Hp. rewrite serialize_credentials_userinfo.
  pose proof (userinfo_chars _ _ Hu Hp) as H.
  assert (G : forallb (fun c => ok_user c || is_colon c || is_at c)
                (userinfo (username u) (password u) ++ ["@"%char]) = true).
  { rewrite forallb_app. apply andb_true_iff. split; [|reflexivity].
    from H. }
  destruct (username u), (password u); [reflexivity|exact G..].
Qed.

Lemma wf_wf_parts u : wf u = true <-> wf_parts u.
Proof.
  unfold wf. split.
  - intros H. apply andb_true_iff in H as [H H5]. apply andb_true_iff in H as [H H4].
    apply andb_true_iff in H as [H H3]. apply andb_true_iff in H as [H1 H2].
    split; try assumption.
    + destruct (query u); [assumption|exact I].
    + destruct (fragment u); [assumption|exact I].
  - intros [H1 H2 H3 H4 H5]. rewrite H1, H2, H3. simpl.
    destruct (query u), (fragment u); rewrite ?H4, ?H5; reflexivity.
Qed.

Lemma wf_authority_parts_iff u : wf_authority u = true -> wf_authority_parts u.
Proof.
  unfold wf_authority. intros Hwf.
  apply andb_true_iff in Hwf as [Hwf Hport].
  apply andb_true_iff in Hwf as [Hwf Hhost].
  apply andb_true_iff in Hwf as [Huser Hpass].
  split; try assumption.
  destruct (host u) as [h|].
  - apply andb_true_iff in Hhost as [Hhost Hne]. split; [assumption|].
    apply orb_true_iff in Hne as [Hne|Hne].
    + left. destruct h; discriminate.
    + right. apply andb_true_iff in Hne as [Hne H3].
      apply andb_true_iff in Hne as [H1 H2].
      destruct (username u), (password u), (port u); try discriminate. auto.
  - apply andb_true_iff in Hhost as [Hhost H4].
    apply andb_true_iff in Hhost as [Hhost H3].
    apply andb_true_iff in Hhost as [H1 H2].
    apply negb_true_iff in H1.
    destruct (username u), (password u), (port u); try discriminate. auto.
Qed.

Lemma serialize_authority_chars u :
  wf_authority u = true ->
  forallb (fun c => main_char c && negb (is_space c)) (serialize_authority u) = true.
Proof.
  intros Hwf. destruct (wf_authority_parts_iff u Hwf) as [Hu Hp Hh Hport].
  unfold serialize_authority. destruct (host u) as [h|].
  - destruct Hh as [Hh _]. apply wf_host_chars in Hh.
    pose proof (serialize_credentials_chars u Hu Hp) as Hc.
    pose proof (serialize_port_chars (port u)) as Hpc.
    rewrite !forallb_app.
    apply andb_true_iff; split; [reflexivity|].
    apply andb_true_iff; split; [from Hc|].
    apply andb_true_iff; split; [|from Hpc].
    destruct (is_special (scheme u)); from Hh.
  - destruct (path u) as [[|[|? ?] [|? ?]]|]; reflexivity.
Qed.

Lemma serialize_path_chars u :
  wf_path u = true ->
  forallb main_char (serialize_path (path u)) = true.
Proof.
  unfold wf_path. destruct (path u) as [segs|p]; intros H.
  - apply andb_true_iff in H as [H _]. apply wf_segments_chars in H.
    destruct (is_special (scheme u)); from H.
  - apply andb_true_iff in H as [H _]. apply andb_true_iff in H as [H _].
    apply andb_true_iff in H as [_ H]. simpl. from H.
Qed.

Lemma scheme_chars u :
  wf_scheme (scheme u) = true -> forallb ok_scheme (scheme u) = true.
Proof.
  unfold wf_scheme. intros H. apply andb_true_iff in H as [H _].
  now apply andb_true_iff in H as [_ H].
Qed.

Lemma main_chars u : wf u = true -> forallb main_char (main u) = true.
Proof.
  intros [H1 H2 H3 _ _]%wf_wf_parts. unfold main.
  rewrite forallb_app. apply andb_true_iff. split.
  - pose proof (scheme_chars u H1) as H. from H.
  - simpl. rewrite forallb_app. apply andb_true_iff. split.
    + pose proof (serialize_authority_chars u H2) as H. from H.
    + now apply serialize_path_chars.
Qed.

(** *** The steps of the parser on a serialized URL *)

Lemma serialize_main u :
  serialize u = main u ++ serialize_opt "?" (query u) ++ serialize_opt "#" (fragment u).
Proof.
  unfold serialize, main. rewrite <- !app_assoc. simpl. now rewrite <- !app_assoc.
Qed.

Lemma serialize_opt_chars mark (p : ascii -> bool) o :
  p mark = true ->
  match o with Some s => forallb p s = true | None => True end ->
  forallb p (serialize_opt mark o) = true.
Proof. intros Hm Ho. destruct o; simpl; [now rewrite Hm|reflexivity]. Qed.

Lemma query_chars u (p : ascii -> bool) :
  wf u = true ->
  (forall c, implb (ok_query true c || ok_query false c) (p c) = true) ->
  match query u with Some s => forallb p s = true | None => True end.
Proof.
  intros [_ _ _ H _]%wf_wf_parts Hp. destruct (query u) as [q|]; [|exact I].
  eapply forallb_imp; [|exact H]. intros c. specialize (Hp c).
  destruct (is_special (scheme u)); destruct (ok_query true c), (ok_query false c);
    simpl in *; try reflexivity; assumption.
Qed.

Lemma fragment_chars u (p : ascii -> bool) :
  wf u = true ->
  (forall c, implb (ok_fragment c) (p c) = true) ->
  match fragment u with Some s => forallb p s = true | None => True end.
Proof.
  intros [_ _ _ _ H]%wf_wf_parts Hp. destruct (fragment u) as [f|]; [|exact I].
  eapply forallb_imp; [|exact H]. exact Hp.
Qed.

Lemma tight_path u :
  wf_path u = true -> query u = None -> fragment u = None ->
  tight (serialize_path (path u)).
Proof.
  unfold wf_path. intros H Hq Hf. rewrite Hq, Hf in H.
  destruct (path u) as [segs|p].
  - apply andb_true_iff in H as [H _]. apply wf_segments_chars in H.
    apply tight_all. destruct (is_special (scheme u)); from H.
  - simpl in *. rewrite !orb_false_r in H.
    apply andb_true_iff in H as [H Hsp]. apply andb_true_iff in H as [H _].
    apply andb_true_iff in H as [_ H].
    unfold tight, ends_with_space in *. rewrite <- forallb_rev in H.
    destruct (rev p) as [|c r]; [exact I|]. simpl in H.
    apply andb_true_iff in H as [Hc _]. revert Hc Hsp.
    generalize c. clear.
    assert (G : forall c, implb (ok_opaque c && negb (is_space c))
                            (negb (is_c0_or_space c)) = true) by chars.
    intros c Hc Hsp. specialize (G c). rewrite Hc, Hsp in G. simpl in G.
    now apply negb_true_iff.
Qed.

Lemma tight_serialize u : wf u = true -> tight (serialize u).
Proof.
  intros Hwf. pose proof Hwf as [H1 H2 H3 H4 H5]%wf_wf_parts.
  rewrite serialize_main.
  assert (Tf : tight (serialize_opt "#" (fragment u))).
  { apply tight_all, serialize_opt_chars; [reflexivity|].
    apply fragment_chars; [assumption|chars]. }
  assert (Tq : tight (serialize_opt "?" (query u))).
  { apply tight_all, serialize_opt_chars; [reflexivity|].
    apply query_chars; [assumption|chars]. }
  apply tight_app; [apply tight_app; [exact Tf|intros _; exact Tq]|].
  intros E. apply app_eq_nil in E as [Eq Ef].
  assert (Hq : query u = None) by (destruct (query u); [discriminate|reflexivity]).
  assert (Hf : fragment u = None) by (destruct (fragment u); [discriminate|reflexivity]).
  unfold main.
  change (scheme u ++ ":"%char :: serialize_authority u ++ serialize_path (path u))
    with (scheme u ++ (":"%char :: serialize_authority u) ++ serialize_path (path u)).
  rewrite app_assoc. apply tight_app; [now apply tight_path|]. intros _.
  apply tight_all. rewrite forallb_app. apply andb_true_iff. split.
  - pose proof (scheme_chars u H1) as H. from H.
  - simpl. pose proof (serialize_authority_chars u H2) as H. from H.
Qed.

Lemma preprocess_serialize u :
  wf u = true -> remove_tab_newline (trim (serialize u)) = serialize u.
Proof.
  intros Hwf. pose proof Hwf as [H1 H2 H3 H4 H5]%wf_wf_parts.
  pose proof (tight_serialize u Hwf) as Ht.
  pose proof (main_chars u Hwf) as Hm.
  assert (Hall : forallb (fun c => negb (is_tab_or_newline c)) (serialize u) = true).
  { rewrite serialize_main, !forallb_app.
    apply andb_true_iff; split; [from Hm|].
    apply andb_true_iff; split; apply serialize_opt_chars; try reflexivity.
    - apply query_chars; [assumption|chars].
    - apply fragment_chars; [assumption|chars]. }
  assert (Hhead : exists c s, serialize u = c :: s /\ is_c0_or_space c = false).
  { unfold serialize. unfold wf_scheme in H1.
    destruct (scheme u) as [|c sch]; [discriminate|].
    exists c. eexists. split; [reflexivity|].
    apply andb_true_iff in H1 as [H1 _]. apply andb_true_iff in H1 as [H1 _].
    revert H1. generalize c.
    assert (G : forall c, implb (is_lower c) (negb (is_c0_or_space c)) = true) by chars.
    intros c0 Hc. specialize (G c0). rewrite Hc in G. now apply negb_true_iff. }
  destruct Hhead as (c & s & E & Hc). rewrite E in *.
  rewrite trim_id by assumption. unfold remove_tab_newline. now apply filter_all.
Qed.

Lemma split_serialize u :
  wf u = true ->
  break is_hash (serialize u)
    = (main u ++ serialize_opt "?" (query u), fragment u)
  /\ break is_qmark (main u ++ serialize_opt "?" (query u)) = (main u, query u).
Proof.
  intros Hwf. pose proof (main_chars u Hwf) as Hm.
  assert (Hmq : forallb (fun c => negb (is_qmark c)) (main u) = true) by (from Hm).
  assert (Hmh : forallb (fun c => negb (is_hash c))
                  (main u ++ serialize_opt "?" (query u)) = true).
  { rewrite forallb_app. apply andb_true_iff; split; [from Hm|].
    apply serialize_opt_chars; [reflexivity|]. apply query_chars; [assumption|chars]. }
  split.
  - rewrite serialize_main, app_assoc.
    destruct (fragment u) as [f|]; simpl.
    + now apply break_some.
    + rewrite app_nil_r. now apply break_none.
  - destruct (query u) as [q|]; simpl.
    + now apply break_some.
    + rewrite app_nil_r. now apply break_none.
Qed.

Lemma scan_scheme_roundtrip sch rest :
  wf_scheme sch = true -> scan_scheme (sch ++ ":"%char :: rest) = Some (sch, rest).
Proof.
  unfold wf_scheme. intros H. apply andb_true_iff in H as [H _].
  apply andb_true_iff in H as [Hc Hs].
  destruct sch as [|c sch]; [discriminate|].
  unfold scan_scheme. cbn [app].
  assert (Ha : is_alpha c = true).
  { unfold is_alpha. rewrite Hc. apply orb_true_r. }
  rewrite Ha.
  change (c :: sch ++ ":"%char :: rest) with ((c :: sch) ++ ":"%char :: rest).
  rewrite span_clean; [|from Hs|reflexivity].
  cbn [is_colon Ascii.eqb]. rewrite map_to_lower_id by (from Hs).
  reflexivity.
Qed.

Lemma encode_query_wf u :
  wf u = true -> encode_query (scheme u) (query u) = query u.
Proof.
  intros [_ _ _ H _]%wf_wf_parts. unfold encode_query.
  destruct (query u) as [q|]; [|reflexivity]. simpl. f_equal.
  apply percent_encode_clean.
  destruct (is_special (scheme u)); (eapply forallb_imp; [|exact H]);
    intros c; unfold ok_query; now destruct (negb _).
Qed.

Lemma encode_fragment_wf u :
  wf u = true -> encode_fragment (fragment u) = fragment u.
Proof.
  intros [_ _ _ _ H]%wf_wf_parts. unfold encode_fragment.
  destruct (fragment u) as [f|]; [|reflexivity]. simpl. f_equal.
  now apply percent_encode_clean.
Qed.

Lemma path_start_roundtrip sp segs :
  forallb (wf_segment sp) segs = true ->
  (segs <> [] \/ sp = false) ->
  path_start sp (serialize_path (PathList segs)) = segs.
Proof.
  intros Hwf Hne. destruct segs as [|seg segs].
  - destruct Hne as [?| ->]; [congruence|reflexivity].
  - assert (E : serialize_path (PathList (seg :: segs))
                = "/"%char :: tl (serialize_path (PathList (seg :: segs))))
      by reflexivity.
    rewrite E. unfold path_start. cbv beta iota.
    now apply path_state_join.
Qed.

Lemma serialize_path_head segs :
  match serialize_path (PathList segs) with
  | [] => True
  | c :: _ => c = "/"%char
  end.
Proof. destruct segs; simpl; auto. Qed.

(** From the authority state on. *)
Lemma from_authority_roundtrip u h segs :
  wf u = true -> host u = Some h -> path u = PathList segs ->
  from_authority (scheme u)
    (serialize_credentials u ++ h ++ serialize_port (port u)
       ++ serialize_path (PathList segs))
    (query u) (fragment u)
  = Some u.
Proof.
  intros Hwf Hh Hp. pose proof Hwf as [H1 H2 H3 H4 H5]%wf_wf_parts.
  unfold from_authority.
  rewrite (parse_authority_roundtrip u h _ H2 Hh (serialize_path_head segs)).
  rewrite encode_query_wf, encode_fragment_wf by assumption.
  unfold wf_path in H3. rewrite Hp, Hh in H3.
  apply andb_true_iff in H3 as [Hsegs Hne].
  rewrite path_start_roundtrip; [| assumption |].
  - destruct u; simpl in *. now subst.
  - destruct segs; [right|left; discriminate]. simpl in Hne.
    now destruct (is_special (scheme u)).
Qed.

Lemma authority_head u h rest :
  wf u = true -> host u = Some h -> is_special (scheme u) = true ->
  drop_while (is_separator true)
    (serialize_credentials u ++ h ++ rest)
  = serialize_credentials u ++ h ++ rest.
Proof.
  intros Hwf Hh Hsp. pose proof Hwf as [_ H2 _ _ _]%wf_wf_parts.
  destruct (wf_authority_parts_iff u H2) as [Hu Hp Hhost _].
  rewrite Hh, Hsp in Hhost. destruct Hhost as [Hhost _].
  pose proof (serialize_credentials_chars u Hu Hp) as Hc.
  pose proof (wf_host_chars true h Hhost) as Hhc.
  assert (G1 : forall c, implb (ok_user c || is_colon c || is_at c)
                           (negb (is_separator true c)) = true) by chars.
  assert (G2 : forall c, implb (ok_domain c) (negb (is_separator true c)) = true) by chars.
  destruct (serialize_credentials u) as [|c cs].
  - destruct h as [|c h']; [discriminate|]. simpl in *.
    apply andb_true_iff in Hhc as [Hc1 _]. specialize (G2 c). rewrite Hc1 in G2.
    simpl in G2. apply negb_true_iff in G2. now rewrite G2.
  - simpl in *. apply andb_true_iff in Hc as [Hc1 _]. specialize (G1 c).
    rewrite Hc1 in G1. simpl in G1. apply negb_true_iff in G1. now rewrite G1.
Qed.

Lemma with_scheme_path sch r q f b :
  ceqb sch (lit "file") = false -> is_special sch = false ->
  match r with [] => True | c :: _ => is_slash c = false end ->
  with_scheme sch ("/"%char :: r) q f b
  = Some (mk sch [] [] None None (PathList (path_state false [] [] r))
            (encode_query sch q) (encode_fragment f)).
Proof.
  intros Hf Hs Hr. unfold with_scheme. rewrite Hf, Hs.
  change (is_slash "/") with true. cbv iota.
  destruct r as [|c r]; [reflexivity|]. now rewrite Hr.
Qed.

Lemma with_scheme_authority sch r q f b :
  ceqb sch (lit "file") = false -> is_special sch = false ->
  with_scheme sch ("/"%char :: "/"%char :: r) q f b = from_authority sch r q f.
Proof. intros Hf Hs. unfold with_scheme. now rewrite Hf, Hs. Qed.

Lemma with_scheme_opaque sch p q f b :
  ceqb sch (lit "file") = false -> is_special sch = false ->
  match p with [] => True | c :: _ => is_slash c = false end ->
  with_scheme sch p q f b
  = Some (mk sch [] [] None None (PathOpaque (percent_encode c0_control_set p))
            (encode_query sch q) (encode_fragment f)).
Proof.
  intros Hf Hs Hp. unfold with_scheme. rewrite Hf, Hs.
  destruct p as [|c p]; [reflexivity|]. now rewrite Hp.
Qed.

Lemma with_scheme_special sch r q f b :
  ceqb sch (lit "file") = false -> is_special sch = true ->
  with_scheme sch ("/"%char :: "/"%char :: r) q f b
  = from_authority sch (drop_while (is_separator true) r) q f.
Proof.
  intros Hf Hs. unfold with_scheme. rewrite Hf, Hs.
  change (starts_with (lit "//") ("/"%char :: "/"%char :: r)) with true.
  change (drop_while (is_separator true) ("/"%char :: "/"%char :: r))
    with (drop_while (is_separator true) r).
  destruct b as [b|]; [|reflexivity]. now rewrite andb_false_r.
Qed.

Lemma path_state_dot_slash r :
  path_state false [] [] ("."%char :: "/"%char :: r) = path_state false [] [] r.
Proof. reflexivity. Qed.

(** The states after the scheme, on what the serializer writes there. *)
Lemma with_scheme_roundtrip u b :
  wf u = true ->
  with_scheme (scheme u) (serialize_authority u ++ serialize_path (path u))
    (query u) (fragment u) b
  = Some u.
Proof.
  intros Hwf. pose proof Hwf as [H1 H2 H3 H4 H5]%wf_wf_parts.
  destruct (wf_authority_parts_iff u H2) as [Hu Hp Hhost Hport].
  assert (Hfile : ceqb (scheme u) (lit "file") = false).
  { unfold wf_scheme in H1. apply andb_true_iff in H1 as [_ H1].
    now apply negb_true_iff. }
  unfold serialize_authority.
  destruct (host u) as [h|] eqn:Hh.
  - (* a host: the authority state *)
    assert (Hpath : exists segs, path u = PathList segs).
    { unfold wf_path in H3. rewrite Hh in H3.
      destruct (path u) as [segs|p]; [eauto|].
      rewrite !andb_false_r in H3. discriminate. }
    destruct Hpath as [segs Hpath]. rewrite Hpath.
    pose proof (from_authority_roundtrip u h segs Hwf Hh Hpath) as Hfa.
    rewrite <- !app_assoc.
    change (lit "//" ++ ?x) with ("/"%char :: "/"%char :: x).
    destruct (is_special (scheme u)) eqn:Hsp.
    + rewrite with_scheme_special by assumption.
      rewrite authority_head by assumption. exact Hfa.
    + rewrite with_scheme_authority by assumption. exact Hfa.
  - (* no host *)
    destruct Hhost as (Hsp & Eu & Ep & Eport).
    unfold wf_path in H3. rewrite Hh, Hsp in H3. simpl in H3.
    destruct (path u) as [segs|p] eqn:Hpath.
    + rewrite orb_false_r in H3. apply andb_true_iff in H3 as [Hsegs Hne].
      assert (Hps : path_state false [] [] (tl (serialize_path (PathList segs))) = segs).
      { apply (path_state_join false segs []); [assumption|].
        destruct segs; [discriminate|congruence]. }
      assert (Hrec : mk (scheme u) [] [] None None (PathList segs)
                       (encode_query (scheme u) (query u))
                       (encode_fragment (fragment u))
                     = u).
      { rewrite encode_query_wf, encode_fragment_wf by assumption.
        destruct u; simpl in *. now subst. }
      destruct segs as [|seg segs]; [discriminate|].
      destruct seg as [|c seg]; [destruct segs as [|seg2 segs]|].
      * (* the root path *)
        change ([] ++ serialize_path (PathList [[]])) with ["/"%char].
        rewrite with_scheme_path by (assumption || exact I).
        change (path_state false [] [] []) with [[] : chars]. now rewrite Hrec.
      * (* an empty first segment: the serializer writes "/." first *)
        change (lit "/." ++ serialize_path (PathList ([] :: seg2 :: segs)))
          with ("/"%char :: "."%char :: "/"%char
                  :: tl (serialize_path (PathList ([] :: seg2 :: segs)))).
        rewrite with_scheme_path by (assumption || reflexivity).
        rewrite path_state_dot_slash.
        etransitivity; [|exact (f_equal Some Hrec)]. do 3 f_equal. exact Hps.
      * change ([] ++ serialize_path (PathList ((c :: seg) :: segs)))
          with ("/"%char :: tl (serialize_path (PathList ((c :: seg) :: segs)))).
        rewrite with_scheme_path;
          [etransitivity; [|exact (f_equal Some Hrec)]; do 3 f_equal; exact Hps
          |assumption..|].
        simpl in Hsegs. apply andb_true_iff in Hsegs as [Hseg _].
        unfold wf_segment in Hseg. apply andb_true_iff in Hseg as [Hseg _].
        apply andb_true_iff in Hseg as [Hseg _]. simpl in Hseg.
        apply andb_true_iff in Hseg as [Hc _]. unfold ok_segment in Hc.
        apply andb_true_iff in Hc as [_ Hc]. apply negb_true_iff in Hc.
        unfold is_separator in Hc. cbn [tl serialize_path flat_map app].
        now rewrite andb_false_l, orb_false_r in Hc.
    + apply andb_true_iff in H3 as [H3 _]. apply andb_true_iff in H3 as [Hop Hhead].
      assert (Hrec : mk (scheme u) [] [] None None (PathOpaque p)
                       (encode_query (scheme u) (query u))
                       (encode_fragment (fragment u))
                     = u).
      { rewrite encode_query_wf, encode_fragment_wf by assumption.
        destruct u; simpl in *. now subst. }
      change ([] ++ serialize_path (PathOpaque p)) with p.
      rewrite with_scheme_opaque; [|assumption..|].
      * rewrite percent_encode_clean by (from Hop). now rewrite Hrec.
      * destruct p as [|c p]; [exact I|]. now apply negb_true_iff.
Qed.

(** The parser reads what the serializer writes for a well-formed URL as
    that URL, whatever the base. *)
Theorem parse_serialize u b :
  wf u = true -> basic_url_parse (serialize u) b = Some u.
Proof.
  intros Hwf. unfold basic_url_parse.
  rewrite preprocess_serialize by assumption.
  destruct (split_serialize u Hwf) as [-> ->].
  unfold main.
  rewrite scan_scheme_roundtrip by (now apply wf_wf_parts in Hwf as [? _ _ _ _]).
  now apply with_scheme_roundtrip.
Qed.

(** *** What the parser returns is well formed *)

Lemma span_spec p s :
  s = (span p s).1 ++ (span p s).2
  /\ forallb (fun c => negb (p c)) (span p s).1 = true
  /\ match (span p s).2 with [] => True | c :: _ => p c = true end.
Proof.
  induction s as [|c s IH]; simpl; [auto|].
  destruct (p c) eqn:E; simpl; [auto|].
  destruct (span p s) as [a b]. simpl in *. destruct IH as (H1 & H2 & H3).
  rewrite E. simpl. repeat split; [congruence|assumption..].
Qed.

Lemma break_spec p s a b :
  break p s = (a, b) ->
  forallb (fun c => negb (p c)) a = true
  /\ match b with
     | Some r => exists c, p c = true /\ s = a ++ c :: r
     | None => s = a
     end.
Proof.
  unfold break. pose proof (span_spec p s) as (H1 & H2 & H3).
  destruct (span p s) as [x y]. simpl in *. intros [= <- <-].
  split; [assumption|]. destruct y as [|c r]; [now rewrite app_nil_r in H1|eauto].
Qed.

Lemma break_last_spec p s a b :
  break_last p s = (a, b) ->
  forallb (fun c => negb (p c)) b = true
  /\ match a with
     | Some r => exists c, p c = true /\ s = r ++ c :: b
     | None => s = b
     end.
Proof.
  unfold break_last. pose proof (span_spec p (rev s)) as (H1 & H2 & H3).
  destruct (span p (rev s)) as [x y]. simpl in *. intros [= <- <-].
  rewrite forallb_rev. split; [assumption|].
  apply (f_equal (@rev ascii)) in H1. rewrite rev_involutive, rev_app_distr in H1.
  destruct y as [|c r]; simpl in *; [assumption|].
  exists c. split; [assumption|]. now rewrite <- app_assoc in H1.
Qed.

Lemma percent_encode_chars (p q enc : ascii -> bool) s :
  (forall c, implb (p c) (forallb q (if enc c then percent_byte c else [c])) = true) ->
  forallb p s = true -> forallb q (percent_encode enc s) = true.
Proof.
  intros H. unfold percent_encode. induction s as [|c s IH]; simpl; [reflexivity|].
  intros Hs. apply andb_true_iff in Hs as [Hc Hs].
  rewrite forallb_app, (IH Hs), andb_true_r. exact (implb_true _ _ (H c) Hc).
Qed.

Lemma forallb_true (s : chars) : forallb (fun _ => true) s = true.
Proof. induction s; simpl; auto. Qed.

Lemma forallb_and (p q : ascii -> bool) s :
  forallb p s = true -> forallb q s = true ->
  forallb (fun c => p c && q c) s = true.
Proof.
  induction s as [|c s IH]; simpl; [reflexivity|].
  intros [H1 H2]%andb_true_iff [H3 H4]%andb_true_iff. now rewrite H1, H3, IH.
Qed.

Lemma forallb_none (p : ascii -> bool) s :
  existsb p s = false -> forallb (fun c => negb (p c)) s = true.
Proof.
  induction s as [|c s IH]; simpl; [reflexivity|].
  intros [H1 H2]%orb_false_iff. now rewrite H1, IH.
Qed.

Lemma forallb_map (p : ascii -> bool) (f : ascii -> ascii) s :
  forallb p (map f s) = forallb (fun c => p (f c)) s.
Proof. induction s as [|c s IH]; simpl; [reflexivity|]. now rewrite IH. Qed.

Lemma forallb_removelast {A} (p : A -> bool) (l : list A) :
  forallb p l = true -> forallb p (removelast l) = true.
Proof.
  induction l as [|x l IH]; simpl; [auto|].
  intros [H1 H2]%andb_true_iff. destruct l; [reflexivity|].
  simpl. rewrite H1. now apply IH.
Qed.

Lemma forallb_snoc {A} (p : A -> bool) (l : list A) x :
  forallb p l = true -> p x = true -> forallb p (l ++ [x]) = true.
Proof. intros H1 H2. rewrite forallb_app, H1. simpl. now rewrite H2. Qed.

(** The scheme *)
Lemma scan_scheme_spec s sch rest :
  scan_scheme s = Some (sch, rest) ->
  (exists raw, s = raw ++ ":"%char :: rest)
  /\ match sch with c :: _ => is_lower c = true | [] => False end
  /\ forallb ok_scheme sch = true.
Proof.
  unfold scan_scheme. destruct s as [|c s]; [discriminate|].
  destruct (is_alpha c) eqn:Ha; [|discriminate].
  pose proof (span_spec (fun c => negb (is_scheme_char c)) (c :: s)) as (H1 & H2 & H3).
  destruct (span _ (c :: s)) as [raw r]. simpl fst in *. simpl snd in *.
  destruct r as [|d r]; [discriminate|].
  destruct (is_colon d) eqn:Hd; [|discriminate].
  intros [= <- <-]. apply Ascii.eqb_eq in Hd. subst d.
  split; [eauto|].
  destruct raw as [|c0 raw].
  - simpl in H1. injection H1 as -> _. discriminate.
  - simpl in H1. injection H1 as <- _. split.
    + simpl. revert Ha. generalize c.
      assert (G : forall c, implb (is_alpha c) (is_lower (to_lower c)) = true) by chars.
      intros c1 Hc. exact (implb_true _ _ (G c1) Hc).
    + rewrite forallb_map. eapply forallb_imp; [|exact H2]. chars.
Qed.

(** The host and the port *)
Lemma parse_host_spec sp h h' :
  parse_host sp h = Some h' ->
  wf_host sp h' = true /\ (h <> [] -> h' <> []).
Proof.
  unfold parse_host, wf_host. destruct sp.
  - destruct h as [|c h]; [discriminate|].
    destruct (existsb _ (c :: h)) eqn:E1; [discriminate|].
    assert (Hne : map to_lower (c :: h) <> []) by discriminate.
    set (d := map to_lower (c :: h)) in *.
    destruct (existsb forbidden_domain d) eqn:E2; [discriminate|].
    apply forallb_none in E1, E2. unfold d in E2. rewrite forallb_map in E2.
    assert (Hd : forallb ok_domain d = true).
    { unfold d. rewrite forallb_map. pose proof (forallb_and _ _ _ E1 E2) as H.
      from H. }
    assert (Hn : negb (ceqb d []) = true) by (destruct d; [congruence|reflexivity]).
    destruct (ends_in_number d) eqn:E3.
    + destruct (canonical_ipv4 d) eqn:E4; [|discriminate].
      intros [= <-]. rewrite Hn, Hd, E3, E4. split; [reflexivity|auto].
    + intros [= <-]. rewrite Hn, Hd, E3. split; [reflexivity|auto].
  - destruct (existsb forbidden_host h) eqn:E; [discriminate|].
    intros [= <-]. apply forallb_none in E. split.
    + eapply percent_encode_chars; [|exact E]. chars.
    + destruct h as [|c h]; [congruence|]. intros _. unfold percent_encode. simpl.
      destruct (c0_control_set c); discriminate.
Qed.

Lemma parse_port_spec sch s p :
  parse_port sch s = Some p ->
  wf_port sch p = true /\ (s = [] -> p = None).
Proof.
  unfold parse_port, wf_port. destruct (forallb is_digit s); [|discriminate].
  destruct s as [|c s]; [intros [= <-]; auto|].
  destruct (dec_value (c :: s) <=? 65535)%N eqn:E; [|discriminate].
  intros [= <-]. split; [|discriminate].
  destruct (decide _) as [Hd|Hd]; [reflexivity|].
  rewrite E. simpl. now rewrite bool_decide_eq_false_2.
Qed.

Lemma parse_hostport_spec sch hp h p :
  parse_hostport (is_special sch) sch hp = Some (h, p) ->
  wf_host (is_special sch) h = true /\ wf_port sch p = true
  /\ (h <> [] \/ (hp = [] /\ p = None)).
Proof.
  unfold parse_hostport. destruct (existsb _ hp); [discriminate|].
  destruct (break is_colon hp) as [h0 ps] eqn:Eb.
  apply break_spec in Eb as [_ Hb].
  assert (H : match parse_host (is_special sch) h0,
                    parse_port sch (match ps with Some p => p | None => [] end) with
              | Some h', Some p' => Some (h', p')
              | _, _ => None
              end = Some (h, p) ->
              wf_host (is_special sch) h = true /\ wf_port sch p = true
              /\ (h0 <> [] -> h <> []) /\ (ps = None -> p = None)).
  { destruct (parse_host _ h0) as [h'|] eqn:Eh; [|discriminate].
    destruct (parse_port sch _) as [p'|] eqn:Ep; [|discriminate].
    intros [= <- <-]. apply parse_host_spec in Eh as [? ?].
    apply parse_port_spec in Ep as [? Hp].
    repeat split; try assumption. intros ->. now apply Hp. }
  destruct h0 as [|c h0].
  - destruct ps as [ps|]; [discriminate|]. intros G. apply H in G as (? & ? & _ & Hp).
    subst hp. repeat split; try assumption. right. split; [reflexivity|now apply Hp].
  - intros G. apply H in G as (? & ? & Hh & _).
    repeat split; try assumption. left. now apply Hh.
Qed.

Lemma parse_credentials_spec ui user pass :
  parse_credentials ui = (user, pass) ->
  forallb ok_user user = true /\ forallb ok_user pass = true
  /\ (ui = None -> user = [] /\ pass = []).
Proof.
  unfold parse_credentials. destruct ui as [ui|].
  - destruct (break is_colon ui) as [u p]. intros [= <- <-].
    repeat split; try discriminate;
      (eapply percent_encode_chars; [|apply forallb_true]; chars).
  - intros [= <- <-]. auto.
Qed.

(** The path *)
Lemma path_push_spec sp segs buf at_end :
  forallb (wf_segment sp) segs = true -> forallb (ok_segment sp) buf = true ->
  forallb (wf_segment sp) (path_push segs buf at_end) = true
  /\ (at_end = true -> path_push segs buf at_end <> []).
Proof.
  intros Hs Hb. unfold path_push, shorten.
  assert (He : wf_segment sp [] = true) by reflexivity.
  destruct (is_double_dot buf) eqn:Ed; [|destruct (is_single_dot buf) eqn:Es].
  - destruct at_end.
    + split; [apply forallb_snoc; [now apply forallb_removelast|exact He]|].
      intros _ E. now apply app_eq_nil in E as [_ ?].
    + split; [now apply forallb_removelast|discriminate].
  - destruct at_end.
    + split; [now apply forallb_snoc|].
      intros _ E. now apply app_eq_nil in E as [_ ?].
    + split; [assumption|discriminate].
  - split.
    + apply forallb_snoc; [assumption|]. unfold wf_segment. now rewrite Hb, Ed, Es.
    + intros _ E. now apply app_eq_nil in E as [_ ?].
Qed.

Lemma path_state_spec sp s : forall segs buf,
  forallb (wf_segment sp) segs = true -> forallb (ok_segment sp) buf = true ->
  forallb (wf_segment sp) (path_state sp segs buf s) = true
  /\ path_state sp segs buf s <> [].
Proof.
  induction s as [|c s IH]; intros segs buf Hs Hb; simpl.
  - destruct (path_push_spec sp segs buf true Hs Hb) as [H1 H2]. auto.
  - destruct (is_separator sp c) eqn:E.
    + apply IH; [|reflexivity]. now apply path_push_spec.
    + apply IH; [assumption|]. rewrite forallb_app, Hb. simpl.
      revert E. generalize c. clear.
      assert (G : forall c, implb (negb (is_separator sp c))
                    (forallb (ok_segment sp)
                       (if path_set c then percent_byte c else [c])) = true)
        by (destruct sp; chars).
      intros c E. apply (implb_true _ _ (G c)). now rewrite E.
Qed.

Lemma path_start_spec sp rest :
  forallb (wf_segment sp) (path_start sp rest) = true
  /\ (sp = true -> path_start sp rest <> []).
Proof.
  unfold path_start. destruct rest as [|c r].
  - destruct sp; split; try reflexivity; discriminate.
  - destruct (path_state_spec sp r [] [] eq_refl eq_refl). auto.
Qed.

(** The authority *)
Lemma parse_authority_spec sch s user pass h p rest :
  parse_authority (is_special sch) sch s = Some (user, pass, h, p, rest) ->
  forallb ok_user user = true /\ forallb ok_user pass = true
  /\ wf_host (is_special sch) h = true /\ wf_port sch p = true
  /\ (h <> [] \/ (user = [] /\ pass = [] /\ p = None)).
Proof.
  unfold parse_authority.
  destruct (span (is_separator (is_special sch)) s) as [auth rest0].
  destruct (break_last is_at auth) as [ui hp] eqn:Eb.
  assert (H : match parse_hostport (is_special sch) sch hp with
              | Some (h, p) =>
                  let '(user, pass) := parse_credentials ui in
                  Some (user, pass, h, p, rest0)
              | None => None
              end = Some (user, pass, h, p, rest) ->
              forallb ok_user user = true /\ forallb ok_user pass = true
              /\ wf_host (is_special sch) h = true /\ wf_port sch p = true
              /\ (h <> [] \/ (hp = [] /\ p = None))
              /\ (ui = None -> user = [] /\ pass = [])).
  { destruct (parse_hostport _ sch hp) as [[h0 p0]|] eqn:Eh; [|discriminate].
    destruct (parse_credentials ui) as [u0 pw0] eqn:Ec.
    intros [= <- <- <- <- <-].
    apply parse_hostport_spec in Eh as (? & ? & ?).
    apply parse_credentials_spec in Ec as (? & ? & ?). auto 10. }
  destruct ui as [ui|].
  - destruct hp as [|c hp]; [discriminate|].
    intros G. apply H in G as (? & ? & ? & ? & [?|[? _]] & _); [auto 10|discriminate].
  - intros G.
    assert (G' : match parse_hostport (is_special sch) sch hp with
                 | Some (h, p) =>
                     let '(user, pass) := parse_credentials None in
                     Some (user, pass, h, p, rest0)
                 | None => None
                 end = Some (user, pass, h, p, rest)) by (destruct hp; exact G).
    apply H in G' as (? & ? & ? & ? & [?|[_ ?]] & Hc); [auto 10|].
    destruct (Hc eq_refl). auto 10.
Qed.

Lemma wf_mk sch user pass h p pth q f :
  wf_scheme sch = true ->
  forallb ok_user user = true -> forallb ok_user pass = true ->
  match h with
  | Some h =>
      wf_host (is_special sch) h = true
      /\ (h <> [] \/ (user = [] /\ pass = [] /\ p = None))
  | None => is_special sch = false /\ user = [] /\ pass = [] /\ p = None
  end ->
  wf_port sch p = true ->
  wf_path (mk sch user pass h p pth q f) = true ->
  match q with
  | Some q => forallb (ok_query (is_special sch)) q = true
  | None => True
  end ->
  match f with
  | Some f => forallb ok_fragment f = true
  | None => True
  end ->
  wf (mk sch user pass h p pth q f) = true.
Proof.
  intros H1 Hu Hp Hh Hport Hpath Hq Hf. apply wf_wf_parts.
  split; simpl; try assumption.
  unfold wf_authority. simpl. rewrite Hu, Hp, Hport. simpl. rewrite andb_true_r.
  destruct h as [h|].
  - destruct Hh as [-> Hne]. simpl.
    destruct Hne as [Hne|(-> & -> & ->)]; [|apply orb_true_r].
    destruct h; [congruence|reflexivity].
  - destruct Hh as (-> & -> & -> & ->). reflexivity.
Qed.

Lemma encode_query_spec sch q :
  match encode_query sch q with
  | Some q' => forallb (ok_query (is_special sch)) q' = true
  | None => True
  end.
Proof.
  unfold encode_query. destruct q as [q|]; [|exact I]. simpl.
  destruct (is_special sch);
    (eapply percent_encode_chars; [|apply forallb_true]; chars).
Qed.

Lemma encode_fragment_spec f :
  match encode_fragment f with
  | Some f' => forallb ok_fragment f' = true
  | None => True
  end.
Proof.
  unfold encode_fragment. destruct f as [f|]; [|exact I]. simpl.
  eapply percent_encode_chars; [|apply forallb_true]; chars.
Qed.

Lemma wf_path_list sch user pass h p segs q f :
  forallb (wf_segment (is_special sch)) segs = true ->
  (segs <> [] \/ (is_special sch = false /\ h <> None)) ->
  wf_path (mk sch user pass h p (PathList segs) q f) = true.
Proof.
  intros Hs Hne. unfold wf_path. simpl. rewrite Hs. simpl.
  destruct Hne as [Hne|[-> Hh]].
  - destruct segs; [congruence|reflexivity].
  - destruct h; [|congruence]. apply orb_true_r.
Qed.

Lemma from_authority_wf sch s q f u :
  wf_scheme sch = true -> from_authority sch s q f = Some u -> wf u = true.
Proof.
  intros Hsch. unfold from_authority.
  destruct (parse_authority (is_special sch) sch s) as [[[[[user pass] h] p] rest]|] eqn:E;
    [|discriminate].
  intros [= <-]. apply parse_authority_spec in E as (Hu & Hp & Hh & Hport & Hne).
  apply wf_mk; try assumption.
  - split; assumption.
  - apply wf_path_list.
    + apply path_start_spec.
    + destruct (is_special sch) eqn:Es.
      * left. now apply path_start_spec.
      * right. split; [reflexivity|discriminate].
  - apply encode_query_spec.
  - apply encode_fragment_spec.
Qed.

(** The relative state *)
Lemma relative_wf b m q f u :
  wf b = true -> relative b m q f = Some u -> wf u = true.
Proof.
  intros Hb. pose proof Hb as [H1 H2 H3 H4 H5]%wf_wf_parts.
  destruct (wf_authority_parts_iff b H2) as [Hu Hp Hh Hport].
  unfold relative. destruct (path b) as [bsegs|] eqn:Epath; [|discriminate].
  unfold wf_path in H3. rewrite Epath in H3.
  apply andb_true_iff in H3 as [Hsegs Hne].
  set (sp := is_special (scheme b)) in *.
  assert (Hhost : host b = None -> sp = false).
  { intros E. rewrite E in Hh. tauto. }
  assert (Hcopy : forall segs q',
             forallb (wf_segment sp) segs = true ->
             (segs <> [] \/ (sp = false /\ host b <> None)) ->
             match q' with
             | Some q => forallb (ok_query sp) q = true
             | None => True
             end ->
             wf (mk (scheme b) (username b) (password b) (host b) (port b)
                   (PathList segs) q' (encode_fragment f)) = true).
  { intros segs q' Hs Hn Hq. apply wf_mk; try assumption.
    - now apply wf_path_list.
    - apply encode_fragment_spec. }
  assert (Hps : forall segs r,
             forallb (wf_segment sp) segs = true ->
             wf (mk (scheme b) (username b) (password b) (host b) (port b)
                   (PathList (path_state sp segs [] r)) (encode_query (scheme b) q)
                   (encode_fragment f)) = true).
  { intros segs r Hs.
    destruct (path_state_spec sp r segs [] Hs eq_refl) as [G1 G2].
    apply Hcopy; [assumption|now left|apply encode_query_spec]. }
  destruct m as [|c m'].
  - intros [= <-]. apply Hcopy.
    + assumption.
    + destruct bsegs; [right|left; discriminate]. simpl in Hne.
      destruct sp; [discriminate|]. destruct (host b); [split; congruence|discriminate].
    + destruct q; [apply encode_query_spec|assumption].
  - destruct (is_separator sp c).
    + destruct m' as [|c2 m''].
      * intros [= <-]. exact (Hps [] [] eq_refl).
      * destruct (sp && (is_slash c2 || is_backslash c2)).
        { now apply from_authority_wf. }
        destruct (is_slash c2).
        { now apply from_authority_wf. }
        intros [= <-]. exact (Hps [] (c2 :: m'') eq_refl).
    + intros [= <-].
      exact (Hps (shorten bsegs) (c :: m') (forallb_removelast _ _ Hsegs)).
Qed.

(** Opaque paths *)
Lemma ends_with_space_app a b :
  b <> [] -> ends_with_space (a ++ b) = ends_with_space b.
Proof.
  intros Hb. unfold ends_with_space. rewrite rev_app_distr.
  destruct (rev b) as [|c r] eqn:E; [|reflexivity].
  apply (f_equal (@rev ascii)) in E. rewrite rev_involutive in E. contradiction.
Qed.

Lemma opaque_trailing rest :
  tight rest -> ends_with_space (percent_encode c0_control_set rest) = false.
Proof.
  destruct rest as [|c0 rest0] using rev_ind; [reflexivity|]. clear IHrest0.
  unfold tight, percent_encode. rewrite rev_app_distr, flat_map_app. simpl.
  rewrite app_nil_r. intros Hc.
  rewrite ends_with_space_app by (destruct (c0_control_set c0); discriminate).
  revert Hc. generalize c0. clear.
  assert (G : forall c, implb (negb (is_c0_or_space c))
                (negb (ends_with_space
                         (if c0_control_set c then percent_byte c else [c]))) = true)
    by chars.
  intros c Hc. apply negb_true_iff, (implb_true _ _ (G c)). now rewrite Hc.
Qed.

Lemma opaque_head rest :
  match rest with c :: _ => is_slash c = false | [] => True end ->
  match percent_encode c0_control_set rest with
  | c :: _ => negb (is_slash c)
  | [] => true
  end = true.
Proof.
  destruct rest as [|c rest]; [reflexivity|]. unfold percent_encode. simpl.
  intros Hc. destruct (c0_control_set c); simpl; [reflexivity|]. now rewrite Hc.
Qed.

Lemma opaque_chars rest :
  forallb (fun c => negb (is_qmark c) && negb (is_hash c)) rest = true ->
  forallb ok_opaque (percent_encode c0_control_set rest) = true.
Proof. intros H. eapply percent_encode_chars; [|exact H]. chars. Qed.

(** Trimming *)
Lemma drop_while_head (p : ascii -> bool) l :
  match drop_while p l with [] => True | c :: _ => p c = false end.
Proof.
  induction l as [|c l IH]; simpl; [exact I|].
  destruct (p c) eqn:E; [exact IH|exact E].
Qed.

Lemma tight_trim x : tight (trim x).
Proof.
  unfold tight, trim. rewrite rev_involutive. apply drop_while_head.
Qed.

Lemma filter_rev' (f : ascii -> bool) l :
  rev (List.filter f l) = List.filter f (rev l).
Proof.
  induction l as [|c l IH]; simpl; [reflexivity|].
  rewrite List.filter_app. simpl. destruct (f c); simpl; rewrite IH;
    [reflexivity|now rewrite app_nil_r].
Qed.

Lemma tight_remove_tab_newline s : tight s -> tight (remove_tab_newline s).
Proof.
  unfold tight, remove_tab_newline. rewrite filter_rev'.
  destruct (rev s) as [|c r]; [intros _; exact I|]. intros Hc. simpl.
  assert (G : forall c, implb (negb (is_c0_or_space c))
                          (negb (is_tab_or_newline c)) = true) by chars.
  assert (Hn : negb (is_tab_or_newline c) = true)
    by (apply (implb_true _ _ (G c)); now rewrite Hc).
  now rewrite Hn.
Qed.

Lemma tight_suffix a b : tight (a ++ b) -> tight b.
Proof.
  unfold tight. rewrite rev_app_distr. destruct (rev b); [intros _; exact I|auto].
Qed.

(** The states after the scheme *)
Lemma with_scheme_wf sch rest q f b u :
  match sch with c :: _ => is_lower c = true | [] => False end ->
  forallb ok_scheme sch = true ->
  forallb (fun c => negb (is_qmark c) && negb (is_hash c)) rest = true ->
  (q = None -> f = None -> tight rest) ->
  match b with Some b0 => wf b0 = true | None => True end ->
  with_scheme sch rest q f b = Some u -> wf u = true.
Proof.
  intros Hhead Hchars Hrest Htight Hb. unfold with_scheme.
  destruct (ceqb sch (lit "file")) eqn:Ef; [discriminate|].
  assert (Hsch : wf_scheme sch = true).
  { unfold wf_scheme. rewrite Hchars, Ef. destruct sch; [contradiction|].
    now rewrite Hhead. }
  destruct (is_special sch) eqn:Es.
  - destruct b as [b|]; [|now apply from_authority_wf].
    destruct (_ && _); [now apply relative_wf|now apply from_authority_wf].
  - assert (Hlist : forall r,
               wf (mk sch [] [] None None (PathList (path_state false [] [] r))
                     (encode_query sch q) (encode_fragment f)) = true).
    { intros r. destruct (path_state_spec false r [] [] eq_refl eq_refl) as [G1 G2].
      apply wf_mk; try reflexivity; try assumption; auto.
      - apply wf_path_list; [now rewrite Es|now left].
      - apply encode_query_spec.
      - apply encode_fragment_spec. }
    assert (Hopaque :
              match rest with c :: _ => is_slash c = false | [] => True end ->
              wf (mk sch [] [] None None (PathOpaque (percent_encode c0_control_set rest))
                    (encode_query sch q) (encode_fragment f)) = true).
    { intros Hc. apply wf_mk; try reflexivity; try assumption; auto.
      - assert (Hsp : negb (ends_with_space (percent_encode c0_control_set rest))
                        || negb (is_none (encode_query sch q))
                        || negb (is_none (encode_fragment f)) = true).
        { destruct q as [q|]; [simpl; now rewrite orb_true_r|].
          destruct f as [f|]; [simpl; now rewrite orb_true_r|].
          now rewrite (opaque_trailing rest (Htight eq_refl eq_refl)). }
        unfold wf_path. cbn [path scheme host query fragment].
        rewrite Es, (opaque_chars rest Hrest), (opaque_head rest Hc), Hsp.
        reflexivity.
      - apply encode_query_spec.
      - apply encode_fragment_spec. }
    destruct rest as [|c r].
    + intros [= <-]. exact (Hopaque I).
    + destruct (is_slash c) eqn:Ec.
      * destruct r as [|c2 r2]; [intros [= <-]; exact (Hlist [])|].
        destruct (is_slash c2); [now apply from_authority_wf|].
        intros [= <-]. exact (Hlist (c2 :: r2)).
      * intros [= <-]. exact (Hopaque eq_refl).
Qed.

(** The no scheme state *)
Lemma no_scheme_wf m q f b u :
  match b with Some b0 => wf b0 = true | None => True end ->
  no_scheme m q f b = Some u -> wf u = true.
Proof.
  intros Hb. unfold no_scheme. destruct b as [b|]; [|discriminate].
  destruct (path b) as [segs|p] eqn:Ep.
  - now apply relative_wf.
  - destruct m; [|discriminate]. destruct q; [discriminate|].
    destruct f as [f|]; [|discriminate]. intros [= <-].
    pose proof Hb as [H1 H2 H3 H4 H5]%wf_wf_parts.
    unfold wf_path in H3. rewrite Ep in H3.
    apply andb_true_iff in H3 as [H3 _]. apply andb_true_iff in H3 as [H3 Hhead].
    apply andb_true_iff in H3 as [H3 Hop]. apply andb_true_iff in H3 as [Hsp _].
    apply negb_true_iff in Hsp.
    apply wf_mk; try reflexivity; try assumption; auto.
    + unfold wf_path. simpl. rewrite Hsp, Hop, Hhead. simpl. apply orb_true_r.
    + apply (encode_fragment_spec (Some f)).
Qed.

(** Every URL the parser returns is well formed. *)
Theorem parse_wf input b u :
  match b with Some b0 => wf b0 = true | None => True end ->
  basic_url_parse input b = Some u -> wf u = true.
Proof.
  intros Hb. unfold basic_url_parse.
  pose proof (tight_remove_tab_newline _ (tight_trim input)) as Ht.
  set (s := remove_tab_newline (trim input)) in *.
  destruct (break is_hash s) as [s1 f] eqn:E1.
  destruct (break is_qmark s1) as [m q] eqn:E2.
  apply break_spec in E1 as [Hh1 Hs], E2 as [Hq1 Hs1].
  assert (Hm : forallb (fun c => negb (is_qmark c) && negb (is_hash c)) m = true).
  { apply forallb_and; [assumption|].
    destruct q as [q|]; [|now subst s1].
    destruct Hs1 as (c & _ & ->). rewrite forallb_app in Hh1.
    now apply andb_true_iff in Hh1 as [? _]. }
  assert (Hmt : q = None -> f = None -> tight m).
  { intros -> ->. now subst s1 m. }
  destruct (scan_scheme m) as [[sch rest]|] eqn:E3.
  - apply scan_scheme_spec in E3 as ([raw Hraw] & Hhead & Hchars).
    apply with_scheme_wf; try assumption.
    + subst m. rewrite forallb_app in Hm. apply andb_true_iff in Hm as [_ Hm].
      simpl in Hm. exact Hm.
    + intros Eq Ef. specialize (Hmt Eq Ef). subst m.
      change (raw ++ ":"%char :: rest) with (raw ++ [":"%char] ++ rest) in Hmt.
      rewrite app_assoc in Hmt. now apply tight_suffix in Hmt.
  - now apply no_scheme_wf.
Qed.

(** *** The setters and the class *)

Lemma drop_while_idem (p : ascii -> bool) l :
  drop_while p (drop_while p l) = drop_while p l.
Proof.
  pose proof (drop_while_head p l) as H.
  destruct (drop_while p l) as [|c r]; [reflexivity|]. simpl. now rewrite H.
Qed.

Lemma drop_while_sublist (p q : ascii -> bool) l :
  forallb q l = true -> forallb q (drop_while p l) = true.
Proof.
  induction l as [|c l IH]; simpl; [auto|].
  intros H. destruct (p c); [|exact H]. apply andb_true_iff in H as [_ H]. auto.
Qed.

Lemma strip_spaces_head p :
  match p with c :: _ => negb (is_slash c) | [] => true end = true ->
  match rev (drop_while is_space (rev p)) with
  | c :: _ => negb (is_slash c)
  | [] => true
  end = true.
Proof.
  destruct p as [|c p]; [intros _; reflexivity|]. intros Hc.
  simpl rev at 2. generalize (rev p). intros l.
  assert (H : forall l, (exists l', rev (drop_while is_space (l ++ [c])) = c :: l')
                        \/ rev (drop_while is_space (l ++ [c])) = []).
  { clear. induction l as [|x l IH]; simpl.
    - destruct (is_space c); [now right|left; now exists []].
    - destruct (is_space x); [exact IH|].
      left. exists (rev l ++ [x]). simpl. rewrite rev_app_distr. reflexivity. }
  destruct (H l) as [[l' ->] | ->]; [exact Hc|reflexivity].
Qed.

Lemma clear_both u :
  clear_hash (clear_search u)
  = strip_trailing_spaces
      (mk (scheme u) (username u) (password u) (host u) (port u) (path u) None None).
Proof.
  unfold clear_hash, clear_search, strip_trailing_spaces.
  cbn [path scheme host query fragment username password port].
  destruct (path u) as [segs|p]; [reflexivity|].
  destruct (fragment u); cbn [path scheme host query fragment username password port];
    [reflexivity|].
  now rewrite rev_involutive, drop_while_idem.
Qed.

Lemma clear_wf u :
  wf u = true -> wf (clear_hash (clear_search u)) = true.
Proof.
  intros [H1 H2 H3 H4 H5]%wf_wf_parts. rewrite clear_both.
  destruct (wf_authority_parts_iff u H2) as [Hu Hp Hh Hport].
  unfold wf_path in H3. unfold strip_trailing_spaces.
  cbn [path scheme host query fragment username password port].
  destruct (path u) as [segs|p] eqn:Ep.
  - apply wf_mk; try assumption; exact I.
  - apply andb_true_iff in H3 as [H3 _]. apply andb_true_iff in H3 as [H3 Hhead].
    apply andb_true_iff in H3 as [H3 Hop]. apply andb_true_iff in H3 as [Hsp Hnone].
    apply wf_mk; try assumption; try exact I.
    unfold wf_path. cbn [path scheme host query fragment].
    rewrite Hsp, Hnone, (strip_spaces_head p Hhead). simpl.
    rewrite forallb_rev.
    rewrite (drop_while_sublist is_space ok_opaque (rev p))
      by (now rewrite forallb_rev).
    simpl. unfold ends_with_space. rewrite rev_involutive.
    pose proof (drop_while_head is_space (rev p)) as G.
    destruct (drop_while is_space (rev p)); [reflexivity|]. now rewrite G.
Qed.

Lemma clear_none u :
  query (clear_hash (clear_search u)) = None
  /\ fragment (clear_hash (clear_search u)) = None.
Proof.
  rewrite clear_both. unfold strip_trailing_spaces.
  cbn [path scheme host query fragment username password port].
  destruct (path u); split; reflexivity.
Qed.

Lemma clear_idem u :
  clear_hash (clear_search (clear_hash (clear_search u))) = clear_hash (clear_search u).
Proof.
  rewrite !clear_both. unfold strip_trailing_spaces.
  cbn [path scheme host query fragment username password port].
  destruct (path u) as [segs|p]; [reflexivity|].
  cbn [path scheme host query fragment username password port].
  now rewrite rev_involutive, drop_while_idem.
Qed.

Lemma lit_str l : lit (str l) = l.
Proof. apply list_ascii_of_string_of_list_ascii. Qed.

Lemma str_lit x : str (lit x) = x.
Proof. apply string_of_list_ascii_of_string. Qed.

(** [new URL(...)] returns well-formed URLs only. *)
Lemma new_wf input base u : new input base = Some u -> wf u = true.
Proof.
  unfold new. destruct base as [b|].
  - destruct (basic_url_parse (lit b) None) as [pb|] eqn:E; [|discriminate].
    apply parse_wf. now apply (parse_wf (lit b) None pb I).
  - now apply parse_wf.
Qed.

(** The [href] of a well-formed URL parses back to it, against no base
    and against any base that parses. *)
Lemma new_href u base :
  wf u = true ->
  match base with Some b => new b None <> None | None => True end ->
  new (href u) base = Some u.
Proof.
  intros Hwf Hb. unfold new, href. rewrite lit_str.
  destruct base as [b|]; [|now apply parse_serialize].
  unfold new in Hb. destruct (basic_url_parse (lit b) None); [|congruence].
  now apply parse_serialize.
Qed.

End URL_facts.

(** ** [normalizeUrl] and [isValidUrl] *)

Section Normalize.
Import URL WF URL_facts.

(** A link that is normalized is the [href] of a well-formed URL without
    query and fragment. *)
Lemma normalizeUrl_href baseUrl link :
  normalizeUrl baseUrl link <> EmptyString ->
  exists u, URL.new link (Some baseUrl) = Some u
            /\ normalizeUrl baseUrl link = href (clear_hash (clear_search u)).
Proof.
  unfold normalizeUrl. destruct (_ || _); [congruence|].
  destruct (URL.new link (Some baseUrl)) as [u|]; [eauto|congruence].
Qed.

Lemma href_not_empty u : wf u = true -> is_empty (href u) = false.
Proof.
  intros [H1 _ _ _ _]%wf_wf_parts. unfold href, serialize, wf_scheme in *.
  destruct (scheme u); [discriminate|reflexivity].
Qed.

(** C9, as the code has it: normalizing the result of a normalization
    again, against any base that is itself an absolute URL, returns the
    same string, provided the first result does not start with one of the
    prefixes that [normalizeUrl] rejects ("javascript:", "mailto:", "tel:",
    "data:", "blob:"), which the parser can produce from a link written in
    upper case or after white space. *)
Theorem C9_normalize_idempotent baseUrl baseUrl' link :
  URL.new baseUrl' None <> None ->
  normalizeUrl baseUrl link <> EmptyString ->
  existsb (startsWith (normalizeUrl baseUrl link)) rejected_prefixes = false ->
  normalizeUrl baseUrl' (normalizeUrl baseUrl link) = normalizeUrl baseUrl link.
Proof.
  intros Hb Hne Hpre.
  destruct (normalizeUrl_href baseUrl link Hne) as (u & Hu & E).
  rewrite E in *. apply new_wf in Hu.
  pose proof (clear_wf u Hu) as Hc.
  unfold normalizeUrl at 1.
  rewrite (href_not_empty _ Hc), Hpre. change (false || false) with false. cbv iota.
  rewrite (new_href _ (Some baseUrl') Hc Hb).
  now rewrite clear_idem.
Qed.

End Normalize.

Lemma C9_counterexample :
  normalizeUrl "https://example.com/" "JAVASCRIPT:alert(1)" = "javascript:alert(1)"%string
  /\ normalizeUrl "https://example.com/" "javascript:alert(1)" = EmptyString
  /\ normalizeUrl "https://example.com/"
       (normalizeUrl "https://example.com/" "JAVASCRIPT:alert(1)")
     <> normalizeUrl "https://example.com/" "JAVASCRIPT:alert(1)".
Proof.
  split; [vm_compute; reflexivity|]. split; [vm_compute; reflexivity|].
  vm_compute. discriminate.
Qed.

Lemma C9_normalize_idempotent_witness :
  normalizeUrl "https://other.example.org/"
    (normalizeUrl "https://example.com/a/" "../b c?x=1#top")
  = normalizeUrl "https://example.com/a/" "../b c?x=1#top".
Proof.
  apply (C9_normalize_idempotent "https://example.com/a/" "https://other.example.org/"
           "../b c?x=1#top").
  - vm_compute. discriminate.
  - vm_compute. discriminate.
  - vm_compute. reflexivity.
Defined.

(** ** The hosts of a tree *)

Section Hosts.
Import URL WF URL_facts.
Context (w : World) (options : CrawlOptions).

Lemma isValidUrl_hostname_of u d :
  isValidUrl u d = true <-> hostname_of u = Some d.
Proof.
  unfold isValidUrl, hostname_of. destruct (URL.new u None) as [x|]; simpl.
  - rewrite String.eqb_eq. split; congruence.
  - split; discriminate.
Qed.

Lemma set_add_In x l y : In y (set_add x l) -> y = x \/ In y l.
Proof.
  unfold set_add. destruct (bool_decide _); [auto|].
  intros H. apply in_app_or in H as [H|[H|[]]]; auto.
Qed.

(** Every link the link extractor keeps passed the domain filter. *)
Lemma collect_links_valid currentUrl baseDomain hrefs link :
  In link (collect_links currentUrl baseDomain hrefs) ->
  isValidUrl link baseDomain = true /\ link <> EmptyString.
Proof.
  unfold collect_links.
  assert (H : forall acc,
             (forall l, In l acc -> isValidUrl l baseDomain = true /\ l <> EmptyString) ->
             forall l,
               In l (fold_left
                       (fun links href =>
                          if is_empty href then links
                          else
                            let normalizedUrl := normalizeUrl currentUrl href in
                            if negb (is_empty normalizedUrl)
                               && isValidUrl normalizedUrl baseDomain
                            then set_add normalizedUrl links
                            else links) hrefs acc) ->
               isValidUrl l baseDomain = true /\ l <> EmptyString).
  { induction hrefs as [|h hrefs IH]; intros acc Hacc l; simpl; [apply Hacc|].
    apply IH. intros l'. destruct (is_empty h); [apply Hacc|]. cbv zeta.
    destruct (negb (is_empty (normalizeUrl currentUrl h))
              && isValidUrl (normalizeUrl currentUrl h) baseDomain) eqn:E;
      [|apply Hacc].
    intros Hl. apply set_add_In in Hl as [->|Hl]; [|now apply Hacc].
    apply andb_true_iff in E as [E1 E2]. split; [assumption|].
    intros E. rewrite E in E1. discriminate. }
  apply H. intros l [].
Qed.

(** The start URL passes its own domain filter. *)
Lemma start_valid input baseUrl :
  URL.new input None = Some baseUrl ->
  isValidUrl (href baseUrl) (hostname baseUrl) = true.
Proof.
  intros H. apply new_wf in H. unfold isValidUrl.
  rewrite (new_href baseUrl None H I). apply String.eqb_refl.
Qed.

Lemma crawlPage_valid d st u depth :
  isValidUrl u d = true ->
  good (fun n => isValidUrl (url n) d = true)
    (fun u' d' _ => d' = d /\ isValidUrl u' d = true)
    (crawlPage options st u d depth).2.
Proof.
  intros Hv. destruct (crawlPage_outcome options st u d depth); simpl.
  1-3: constructor; simpl; constructor; [assumption|constructor].
  constructor. auto.
Qed.

Lemma crawlPage_fetch_valid d st path u depth pause :
  isValidUrl u d = true ->
  good (fun n => isValidUrl (url n) d = true)
    (fun u' d' _ => d' = d /\ isValidUrl u' d = true)
    (crawlPage_fetch w options st path u d depth pause).2.
Proof.
  intros Hv. destruct (crawlPage_fetch_outcome w options st path u d depth pause).
  1-4: constructor; simpl; constructor; [assumption|constructor].
  constructor; [assumption | reflexivity |].
  apply good_spawn_children. intros st1 u1 Hin _ _.
  apply crawlPage_valid. now apply collect_links_valid in Hin as [? _].
Qed.

(** C5: in the tree of a crawl whose start URL parses with host D, the
    URL of every node, the root and the error nodes included, parses with
    a hostname equal to D as a string; so a link whose hostname is another
    string, be it a subdomain or the [www] variant, is the URL of no
    node. *)
Theorem C5_same_host sched input baseUrl tree es :
  URL.new (start_url input) None = Some baseUrl ->
  getRoutesFromPage w options sched input = Some (tree, es) ->
  Forall (fun n => hostname_of (url n) = Some (hostname baseUrl)) (nodes tree)
  /\ (forall link, hostname_of link <> Some (hostname baseUrl) ->
        ~ In link (map url (nodes tree)))
  /\ isValidUrl "https://www.example.com/" "example.com" = false
  /\ isValidUrl "https://sub.example.com/" "example.com" = false
  /\ isValidUrl "https://example.com/" "example.com" = true.
Proof.
  intros Hu Hget.
  assert (H : Forall (fun n => isValidUrl (url n) (hostname baseUrl) = true) (nodes tree)).
  { eapply (getRoutesFromPage_good w options
              (fun n => isValidUrl (url n) (hostname baseUrl) = true)
              (fun u' d' _ => d' = hostname baseUrl
                              /\ isValidUrl u' (hostname baseUrl) = true));
      try eassumption.
    - intros n cs Hn. exact Hn.
    - intros st path u d depth pause [-> Hv]. now apply crawlPage_fetch_valid.
    - apply crawlPage_valid. eapply start_valid; eassumption. }
  assert (H' : Forall (fun n => hostname_of (url n) = Some (hostname baseUrl)) (nodes tree)).
  { eapply Forall_impl; [exact H|]. intros n Hn. now apply isValidUrl_hostname_of. }
  split; [exact H'|]. split; [|repeat split; vm_compute; reflexivity].
  intros link Hl Hin. apply in_map_iff in Hin as (n & <- & Hn).
  rewrite Forall_forall in H'. apply Hl, H'.
  now apply list_elem_of_In.
Qed.

End Hosts.

Lemma C5_same_host_witness :
  let tree :=
    mkRouteNode "/" "https://example.com/"
      [mkRouteNode "/b" "https://example.com/b" [] None (Some "Max depth reached"%string);
       mkRouteNode "/c" "https://example.com/c" [] None (Some "Max depth reached"%string)]
      (Some 200%Z) None in
  Forall (fun n => hostname_of (url n) = Some "example.com"%string) (nodes tree)
  /\ (forall link, hostname_of link <> Some "example.com"%string ->
        ~ In link (map url (nodes tree)))
  /\ isValidUrl "https://www.example.com/" "example.com" = false
  /\ isValidUrl "https://sub.example.com/" "example.com" = false
  /\ isValidUrl "https://example.com/" "example.com" = true.
Proof.
  cbv zeta.
  assert (E : URL.new (start_url "example.com") None
              = Some (URL.mk (lit "https") [] [] (Some (lit "example.com")) None
                        (URL.PathList [[]]) None None)) by (vm_compute; reflexivity).
  apply (C5_same_host site (mkCrawlOptions (Some 0%Q) None None None) first_waiting
           "example.com" _ _ [Fetch "https://example.com/" 0] E).
  vm_compute. reflexivity.
Defined.

(** ** Further properties: the shape of the tree *)

Lemma attach_spec rs : forall node,
  attach node rs =
    mkRouteNode (path node) (url node) (children node ++ kept (path node) rs)
      (status node) (error node).
Proof.
  unfold attach, kept.
  induction rs as [|r rs IH]; intros node; simpl.
  - rewrite app_nil_r. now destruct node.
  - destruct r as [value|e].
    + destruct (negb (path value =? path node)%string).
      * rewrite IH. simpl. now rewrite <- app_assoc.
      * rewrite IH. reflexivity.
    + rewrite IH. reflexivity.
Qed.

Lemma kept_In parent rs c :
  In c (kept parent rs) -> In (Fulfilled c) rs /\ path c <> parent.
Proof.
  unfold kept. intros H. apply in_flat_map in H as (r & Hr & Hc).
  destruct r as [value|e]; [|destruct Hc].
  destruct (path value =? parent)%string eqn:E; simpl in Hc; [destruct Hc|].
  destruct Hc as [<-|[]]. split; [assumption|]. now apply String.eqb_neq.
Qed.

Section ShapedFacts.
Context (w : World) (options : CrawlOptions).

Variable leaf : Z -> RouteNode -> Prop.
Variable call : Z -> string -> string -> string -> Prop.
Variable shell : Z -> RouteNode -> Prop.

Hypothesis shaped_crawlPage_fetch :
  forall st d path u dom pause,
    call d path u dom ->
    shaped leaf call shell d (crawlPage_fetch w options st path u dom d pause).2.

Lemma shaped_resume_in d k st ps :
  Forall (fun p => forall d k st, shaped leaf call shell d p ->
                     shaped leaf call shell d (resume w options k st p).2) ps ->
  Forall (shaped leaf call shell d) ps ->
  Forall (shaped leaf call shell d) (resume_in (resume w options) pending k st ps).2.
Proof.
  intros IH. revert k. induction IH as [|q qs IHq _ IHqs]; intros k Hg; simpl.
  - constructor.
  - inversion Hg as [|? ? Hq Hqs]; subst.
    destruct (k <? pending q)%nat.
    + specialize (IHq d k st Hq).
      destruct (resume w options k st q) as [st' q']. simpl in *.
      constructor; assumption.
    + specialize (IHqs (k - pending q)%nat Hqs).
      destruct (resume_in _ _ _ _ qs) as [st' qs']. simpl in *.
      constructor; assumption.
Qed.

Lemma shaped_resume p : forall d k st,
  shaped leaf call shell d p -> shaped leaf call shell d (resume w options k st p).2.
Proof.
  induction p as [r|path u dom depth pause|node ps IH] using promise_ind';
    intros d k st Hg; simpl.
  - assumption.
  - inversion Hg; subst. now apply shaped_crawlPage_fetch.
  - inversion Hg as [| |? ? ? Hn Hps]; subst.
    pose proof (shaped_resume_in (d + 1) k st ps IH Hps) as H.
    destruct (resume_in _ _ _ _ ps) as [st' ps']. simpl in *.
    now constructor.
Qed.

Lemma shaped_run fuel : forall sched i st p d,
  shaped leaf call shell d p ->
  shaped leaf call shell d (run w options fuel sched i st p).2.
Proof.
  induction fuel as [|fuel IH]; intros sched i st p d Hg; [assumption|].
  rewrite run_S. destruct (pending p) as [|n]; [assumption|].
  pose proof (shaped_resume p d (sched i mod S n)%nat st Hg) as H.
  destruct (resume w options _ st p) as [st' p']. simpl in H.
  now apply IH.
Qed.

Lemma shaped_spawn_children dom d links : forall st,
  (forall st u, In u links -> u ∉ visited st ->
     (pageCount st < page_budget options)%Z ->
     shaped leaf call shell (d + 1) (crawlPage options st u dom (d + 1)).2) ->
  Forall (shaped leaf call shell (d + 1)) (spawn_children options st dom d links).2.
Proof.
  induction links as [|u links IH]; intros st H; simpl.
  - constructor.
  - destruct (negb (bool_decide (u ∈ visited st)) && below (pageCount st) (maxPages options))
      eqn:E.
    + apply andb_true_iff in E as [Hv Hp].
      apply negb_true_iff, bool_decide_eq_false in Hv.
      rewrite below_ceiling in Hp. apply Z.ltb_lt in Hp.
      pose proof (H st u (or_introl eq_refl) Hv Hp) as Hg.
      destruct (crawlPage options st u dom (d + 1)) as [st1 p].
      specialize (IH st1 (fun st u Hu => H st u (or_intror Hu))).
      destruct (spawn_children options st1 dom d links) as [st2 ps].
      simpl in *. constructor; assumption.
    + apply IH. intros; apply H; auto. now right.
Qed.

Variable tree : Z -> RouteNode -> Prop.

Hypothesis leaf_tree : forall d n, leaf d n -> tree d n.

Hypothesis shell_tree :
  forall d node rs,
    shell d node ->
    Forall (fun r => exists n, r = Fulfilled n /\ tree (d + 1) n) rs ->
    tree d (attach node rs).

Lemma shaped_settle p : forall d r,
  shaped leaf call shell d p -> settle p = Some r ->
  exists n, r = Fulfilled n /\ tree d n.
Proof.
  induction p as [r0|path u dom depth pause|node ps IH] using promise_ind';
    intros d r Hg Hs; simpl in Hs.
  - inversion Hg; subst. simplify_eq. eauto.
  - discriminate.
  - inversion Hg as [| |? ? ? Hn Hps]; subst.
    destruct (settle_all settle ps) as [rs|] eqn:E; [|discriminate].
    simplify_eq. eexists; split; [reflexivity|].
    apply shell_tree; [assumption|].
    clear Hn Hg. revert rs E.
    induction ps as [|q qs IHqs]; intros rs E; simpl in E.
    + simplify_eq. constructor.
    + inversion IH as [|? ? IHq IHqs']; subst.
      inversion Hps as [|? ? Hq Hqs]; subst.
      destruct (settle q) as [rq|] eqn:Eq; [|discriminate].
      destruct (settle_all settle qs) as [rqs|] eqn:Eqs; [|discriminate].
      simplify_eq. constructor; [now apply (IHq (d + 1)%Z)|now apply IHqs].
Qed.

(** What the shapes say of the tree of a crawl whose start URL parses. *)
Lemma getRoutesFromPage_shaped sched input baseUrl t es :
  URL.new (start_url input) None = Some baseUrl ->
  shaped leaf call shell 0
    (crawlPage options initial (URL.href baseUrl) (URL.hostname baseUrl) 0).2 ->
  getRoutesFromPage w options sched input = Some (t, es) ->
  tree 0 t.
Proof.
  intros Hu Hroot Hget.
  rewrite (getRoutesFromPage_valid w options sched input baseUrl Hu) in Hget.
  cbv zeta in Hget.
  destruct (crawlPage options initial _ _ 0) as [st0 p0]. simpl in *.
  pose proof (shaped_run (Z.to_nat (page_budget options)) sched 0%nat st0 p0 0%Z Hroot) as Hg.
  destruct (run w options _ sched 0 st0 p0) as [st p]. simpl in *.
  destruct (settle p) as [r|] eqn:Es; [|discriminate].
  destruct (shaped_settle p 0%Z r Hg Es) as [n [-> Hn]].
  now simplify_eq.
Qed.

End ShapedFacts.

Lemma attach_leaf node rs :
  children node = [] ->
  attach node rs =
    mkRouteNode (path node) (url node) (kept (path node) rs) (status node) (error node).
Proof. intros H. rewrite attach_spec, H. reflexivity. Qed.

Lemma kept_trees (tree : RouteNode -> Prop) parent rs :
  Forall (fun r => exists n, r = Fulfilled n /\ tree n) rs ->
  Forall tree (kept parent rs).
Proof.
  intros H. apply List.Forall_forall. intros c Hc.
  apply kept_In in Hc as [Hc _].
  rewrite List.Forall_forall in H. destruct (H _ Hc) as (n & E & Hn).
  now simplify_eq.
Qed.

Lemma Forall_flat_map_nodes {A} (f : RouteNode -> list A) (P : A -> Prop) cs :
  Forall (fun c => Forall P (f c)) cs -> Forall P (flat_map f cs).
Proof.
  induction 1 as [|c cs Hc _ IH]; simpl; [constructor|].
  apply Forall_app. split; assumption.
Qed.

Section TreeFacts.
Context (w : World) (options : CrawlOptions).

(** *** Parents and children *)

Lemma family_crawlPage st u dom d :
  shaped family_leaf any_call family_shell d (crawlPage options st u dom d).2.
Proof.
  destruct (crawlPage_outcome options st u dom d); simpl; now constructor.
Qed.

Lemma family_crawlPage_fetch st d path u dom pause :
  shaped family_leaf any_call family_shell d
    (crawlPage_fetch w options st path u dom d pause).2.
Proof.
  destruct (crawlPage_fetch_outcome w options st path u dom d pause).
  1-4: now constructor.
  constructor; [repeat split; discriminate|].
  apply shaped_spawn_children. intros. apply family_crawlPage.
Qed.

Lemma family_tree sched input t es :
  getRoutesFromPage w options sched input = Some (t, es) ->
  Forall family (nodes t).
Proof.
  intros Hget.
  destruct (URL.new (start_url input) None) as [baseUrl|] eqn:Hu.
  - apply (getRoutesFromPage_shaped w options family_leaf any_call family_shell
             (fun st d path u dom pause _ =>
                family_crawlPage_fetch st d path u dom pause)
             (fun _ n => Forall family (nodes n)))
      with (sched := sched) (input := input) (baseUrl := baseUrl) (es := es);
      try assumption.
    + intros d n Hn. unfold family_leaf in Hn. rewrite nodes_unfold, Hn. simpl.
      constructor; [|constructor]. unfold family. rewrite Hn. split; [constructor|congruence].
    + intros d node rs (Hc & Hs & He) Hrs. rewrite (attach_leaf node rs Hc).
      rewrite nodes_unfold. cbn [children]. constructor.
      * unfold family. cbn [children path status error]. split; [|auto].
        apply List.Forall_forall. intros c Hin. now apply kept_In in Hin as [_ ?].
      * apply Forall_flat_map_nodes.
        now apply (kept_trees (fun n => Forall family (nodes n))).
    + apply family_crawlPage.
  - rewrite (getRoutesFromPage_invalid w options sched input Hu) in Hget. simplify_eq.
    simpl. constructor; [|constructor]. split; [constructor|]. simpl. congruence.
Qed.

(** X1: in every tree [getRoutesFromPage] returns, no node has a child whose
    path is the path of the node (the test of line 201 drops such a
    child). *)
Theorem X1_no_child_with_parent_path sched input t es :
  getRoutesFromPage w options sched input = Some (t, es) ->
  forall n c, In n (nodes t) -> In c (children n) -> path c <> path n.
Proof.
  intros Hget n c Hn Hc. pose proof (family_tree sched input t es Hget) as H.
  rewrite List.Forall_forall in H. destruct (H n Hn) as [Hf _].
  rewrite List.Forall_forall in Hf. now apply Hf.
Qed.

(** X2: only the node of a page that was fetched and parsed has children:
    in every tree, a node with an error is a leaf, and a node with children
    has a status. *)
Theorem X2_error_nodes_are_leaves sched input t es :
  getRoutesFromPage w options sched input = Some (t, es) ->
  forall n, In n (nodes t) ->
    (error n <> None -> children n = [])
    /\ (children n <> [] -> status n <> None).
Proof.
  intros Hget n Hn. pose proof (family_tree sched input t es Hget) as H.
  rewrite List.Forall_forall in H. destruct (H n Hn) as [_ Hf]. split.
  - intros He. destruct (children n) as [|c cs] eqn:E; [reflexivity|].
    destruct Hf as [_ Hf]; [discriminate|]. contradiction.
  - intros Hc. now apply Hf.
Qed.

End TreeFacts.

Lemma X1_no_child_with_parent_path_witness :
  Forall (fun n => Forall (fun c => path c <> path n) (children n)) (nodes slash_tree).
Proof.
  apply List.Forall_forall. intros n Hn. apply List.Forall_forall. intros c Hc.
  apply (X1_no_child_with_parent_path slash_site one_level first_waiting
           "example.com/a" slash_tree slash_log); [|assumption|assumption].
  vm_compute. reflexivity.
Defined.

Lemma X2_error_nodes_are_leaves_witness :
  Forall (fun n => (error n <> None -> children n = [])
                   /\ (children n <> [] -> status n <> None))
    (nodes site_tree).
Proof.
  apply List.Forall_forall. intros n Hn.
  apply (X2_error_nodes_are_leaves site one_level first_waiting
           "example.com" site_tree site_log); [|assumption].
  vm_compute. reflexivity.
Defined.

Lemma nodes_at_unfold d n :
  nodes_at d n = (d, n) :: flat_map (nodes_at (d + 1)) (children n).
Proof. destruct n; reflexivity. Qed.

Section LevelFacts.
Context (w : World) (options : CrawlOptions).

Lemma level_crawlPage st u dom d :
  shaped (level_leaf options) (level_call options) (level_shell options) d
    (crawlPage options st u dom d).2.
Proof.
  destruct (crawlPage_outcome options st u dom d); simpl.
  - constructor. split; [reflexivity|]. intros _. repeat split.
  - constructor. split; [reflexivity|]. intros; lia.
  - constructor. split; [reflexivity|]. intros; lia.
  - now constructor.
Qed.

Lemma level_crawlPage_fetch st d path u dom pause :
  level_call options d path u dom ->
  shaped (level_leaf options) (level_call options) (level_shell options) d
    (crawlPage_fetch w options st path u dom d pause).2.
Proof.
  unfold level_call. intros Hd.
  destruct (crawlPage_fetch_outcome w options st path u dom d pause).
  1-4: constructor; (split; [reflexivity|intros; lia]).
  constructor; [split; [reflexivity|assumption]|].
  apply shaped_spawn_children. intros. apply level_crawlPage.
Qed.

(** X3: in the tree of a crawl whose start URL parses, every node at a level
    beyond [maxDepth] (the root being at level 0) is a leaf with the error
    "Max depth reached" and no status, and no node is deeper than one
    level beyond the whole part of [maxDepth] (level 0 when [maxDepth] is
    negative). *)
Theorem X3_levels sched input baseUrl t es :
  URL.new (start_url input) None = Some baseUrl ->
  getRoutesFromPage w options sched input = Some (t, es) ->
  forall l n, In (l, n) (nodes_at 0 t) ->
    ((maxDepth options < inject_Z l)%Q ->
       children n = [] /\ error n = Some "Max depth reached"%string /\ status n = None)
    /\ (0 <= l <= Z.max 0 (Qfloor (maxDepth options) + 1))%Z.
Proof.
  intros Hu Hget.
  assert (H : Forall (fun ln => level_ok options 0 ln /\ (0 <= ln.1)%Z) (nodes_at 0 t)).
  { apply (getRoutesFromPage_shaped w options
             (level_leaf options) (level_call options) (level_shell options)
             level_crawlPage_fetch
             (fun d n => Forall (fun ln => level_ok options d ln /\ (d <= ln.1)%Z)
                           (nodes_at d n)))
      with (sched := sched) (input := input) (baseUrl := baseUrl) (es := es);
      try assumption.
    - intros d n [Hc Hl]. rewrite nodes_at_unfold, Hc. simpl.
      constructor; [|constructor]. unfold level_ok. simpl. split; [|lia].
      split; [assumption|lia].
    - intros d node rs [Hc Hd] Hrs. rewrite (attach_leaf node rs Hc).
      rewrite nodes_at_unfold. cbn [children]. constructor.
      + unfold level_ok. simpl. split; [|lia]. split; [intros; lia|lia].
      + apply Forall_flat_map_nodes.
        apply (kept_trees (fun n => Forall (fun ln => level_ok options d ln /\ (d <= ln.1)%Z)
                                      (nodes_at (d + 1) n))).
        eapply Forall_impl; [exact Hrs|]. intros r (n & -> & Hn).
        exists n. split; [reflexivity|].
        eapply Forall_impl; [exact Hn|]. unfold level_ok. intros [l m] [[H1 H2] H3].
        simpl in *. split; [|lia]. split; [assumption|lia].
    - apply level_crawlPage. }
  intros l n Hin. rewrite List.Forall_forall in H.
  destruct (H _ Hin) as [[H1 H2] H3]. simpl in *. unfold depth_limit in *.
  split; [|lia]. intros Hl. apply H1. now apply floor_lt.
Qed.

End LevelFacts.

Lemma X3_levels_witness :
  Forall
    (fun ln =>
       ((maxDepth one_level < inject_Z ln.1)%Q ->
          children ln.2 = [] /\ error ln.2 = Some "Max depth reached"%string
          /\ status ln.2 = None)
       /\ (0 <= ln.1 <= Z.max 0 (Qfloor (maxDepth one_level) + 1))%Z)
    (nodes_at 0 site_tree).
Proof.
  apply List.Forall_forall. intros [l n] Hin. cbn [fst snd]. revert l n Hin.
  assert (E : URL.new (start_url "example.com") None
              = Some (URL.mk (lit "https") [] [] (Some (lit "example.com")) None
                        (URL.PathList [[]]) None None)) by (vm_compute; reflexivity).
  apply (X3_levels site one_level first_waiting "example.com" _ site_tree site_log E).
  vm_compute. reflexivity.
Defined.

Section RouteFacts.
Context (w : World) (options : CrawlOptions).

Lemma route_crawlPage root st u dom d :
  (0 <= d)%Z -> (d = 0%Z -> u = root) ->
  shaped (route_leaf root) (route_call root) (route_leaf root) d
    (crawlPage options st u dom d).2.
Proof.
  intros Hd Hr. destruct (crawlPage_outcome options st u dom d); simpl.
  1-3: constructor; repeat split; assumption.
  constructor. repeat split; assumption.
Qed.

Lemma route_crawlPage_fetch root st d path u dom pause :
  route_call root d path u dom ->
  shaped (route_leaf root) (route_call root) (route_leaf root) d
    (crawlPage_fetch w options st path u dom d pause).2.
Proof.
  intros (-> & Hd & Hr).
  destruct (crawlPage_fetch_outcome w options st (getPathFromUrl u) u dom d pause).
  1-4: constructor; repeat split; assumption.
  constructor; [repeat split; assumption|].
  apply shaped_spawn_children. intros. apply route_crawlPage; lia.
Qed.

(** X4: in the tree of a crawl whose start URL parses, the URL of the root
    is the [href] of the parsed start URL, and the path of every node is the
    route [getPathFromUrl] gives for the URL of that node. *)
Theorem X4_routes sched input baseUrl t es :
  URL.new (start_url input) None = Some baseUrl ->
  getRoutesFromPage w options sched input = Some (t, es) ->
  url t = URL.href baseUrl
  /\ forall n, In n (nodes t) -> path n = getPathFromUrl (url n).
Proof.
  intros Hu Hget.
  assert (H : route_tree (URL.href baseUrl) 0 t).
  { apply (getRoutesFromPage_shaped w options
             (route_leaf (URL.href baseUrl)) (route_call (URL.href baseUrl))
             (route_leaf (URL.href baseUrl))
             (route_crawlPage_fetch (URL.href baseUrl))
             (route_tree (URL.href baseUrl)))
      with (sched := sched) (input := input) (baseUrl := baseUrl) (es := es);
      try assumption.
    - intros d n (Hc & Hp & Hr). split; [|assumption].
      rewrite nodes_unfold, Hc. simpl. constructor; [assumption|constructor].
    - intros d node rs (Hc & Hp & Hr) Hrs. rewrite (attach_leaf node rs Hc).
      split; [|exact Hr].
      rewrite nodes_unfold. cbn [children]. constructor; [exact Hp|].
      apply Forall_flat_map_nodes.
      apply (kept_trees (fun n => Forall route_ok (nodes n))).
      eapply Forall_impl; [exact Hrs|]. intros r (n & -> & Hn & _). eauto.
    - apply route_crawlPage; [lia|reflexivity]. }
  destruct H as [H1 H2]. split; [now apply H2|].
  intros n Hn. rewrite List.Forall_forall in H1. now apply H1.
Qed.

End RouteFacts.

Lemma X4_routes_witness :
  url site_tree = "https://example.com/"%string
  /\ forall n, In n (nodes site_tree) -> path n = getPathFromUrl (url n).
Proof.
  assert (E : URL.new (start_url "example.com") None
              = Some (URL.mk (lit "https") [] [] (Some (lit "example.com")) None
                        (URL.PathList [[]]) None None)) by (vm_compute; reflexivity).
  apply (X4_routes site one_level first_waiting "example.com" _ site_tree site_log E).
  vm_compute. reflexivity.
Defined.

(** ** Further properties: links *)

Section LinkFacts.
Import URL WF URL_facts.

(** X5: when [normalizeUrl] returns a URL (not the empty string), the link
    was not empty and had none of the rejected prefixes, the base is a valid
    absolute URL, and the result holds no [?] and no [#] and is itself an
    absolute URL without query and fragment. *)
Theorem X5_normalizeUrl_result baseUrl link :
  normalizeUrl baseUrl link <> EmptyString ->
  link <> EmptyString
  /\ existsb (startsWith link) rejected_prefixes = false
  /\ URL.new baseUrl None <> None
  /\ (forall c, In c (lit (normalizeUrl baseUrl link)) -> c <> "?"%char /\ c <> "#"%char)
  /\ exists u, URL.new (normalizeUrl baseUrl link) None = Some u
               /\ query u = None /\ fragment u = None.
Proof.
  intros Hne.
  destruct (normalizeUrl_href baseUrl link Hne) as (u & Hu & E).
  pose proof (clear_wf u (new_wf _ _ _ Hu)) as Hwf.
  destruct (clear_none u) as [Hq Hf].
  split; [|split; [|split; [|split]]].
  - intros ->. now apply Hne.
  - unfold normalizeUrl in Hne.
    destruct (existsb (startsWith link) rejected_prefixes); [|reflexivity].
    rewrite orb_true_r in Hne. now contradiction Hne.
  - unfold URL.new in Hu. unfold URL.new.
    destruct (basic_url_parse (lit baseUrl) None); discriminate.
  - rewrite E. unfold href. rewrite lit_str, serialize_main, Hq, Hf. simpl.
    rewrite !app_nil_r. intros c Hc.
    pose proof (main_chars _ Hwf) as Hm. rewrite List.forallb_forall in Hm.
    specialize (Hm c Hc). unfold main_char in Hm.
    apply andb_true_iff in Hm as [Hm H3]. apply andb_true_iff in Hm as [_ H2].
    split; intros ->; discriminate.
  - rewrite E. exists (clear_hash (clear_search u)).
    split; [now apply (new_href _ None)|]. split; assumption.
Qed.

Lemma set_add_NoDup x l : NoDup l -> NoDup (set_add x l).
Proof.
  intros H. unfold set_add. destruct (bool_decide (x ∈ l)) eqn:E; [assumption|].
  apply bool_decide_eq_false in E. apply NoDup_app. split; [assumption|].
  split; [|apply NoDup_singleton].
  intros y Hy Hx. apply list_elem_of_singleton in Hx. now subst.
Qed.

(** X6: the links [crawlPage] collects from a page are distinct; each is the
    normalization, against the URL of the page, of an [href] of the
    document that is not empty, is not the empty string itself, and passes
    the domain filter. *)
Theorem X6_collect_links currentUrl baseDomain hrefs :
  NoDup (collect_links currentUrl baseDomain hrefs)
  /\ forall link, In link (collect_links currentUrl baseDomain hrefs) ->
       link <> EmptyString
       /\ isValidUrl link baseDomain = true
       /\ exists href, In href hrefs /\ href <> EmptyString
                       /\ link = normalizeUrl currentUrl href.
Proof.
  unfold collect_links.
  set (f := fun (links : list string) (href : string) =>
              if is_empty href then links
              else
                let normalizedUrl := normalizeUrl currentUrl href in
                if negb (is_empty normalizedUrl) && isValidUrl normalizedUrl baseDomain
                then set_add normalizedUrl links
                else links).
  set (ok := fun (hs : list string) (link : string) =>
               link <> EmptyString
               /\ isValidUrl link baseDomain = true
               /\ exists href, In href hs /\ href <> EmptyString
                               /\ link = normalizeUrl currentUrl href).
  assert (H : forall hs acc seen,
             NoDup acc -> (forall l, In l acc -> ok seen l) ->
             NoDup (fold_left f hs acc)
             /\ forall l, In l (fold_left f hs acc) -> ok (seen ++ hs) l).
  { induction hs as [|h hs IH]; intros acc seen Hnd Hacc; simpl.
    - rewrite app_nil_r. auto.
    - assert (Hmono : forall l, ok seen l -> ok (seen ++ [h]) l).
      { intros l (H1 & H2 & h' & H3 & H4 & H5). repeat split; try assumption.
        exists h'. repeat split; try assumption. apply in_or_app. now left. }
      replace (seen ++ h :: hs) with ((seen ++ [h]) ++ hs)
        by (now rewrite <- app_assoc).
      apply IH.
      + unfold f. destruct (is_empty h); [assumption|]. cbv zeta.
        destruct (_ && _); [now apply set_add_NoDup|assumption].
      + intros l Hl. unfold f in Hl. destruct (is_empty h) eqn:Eh; [auto|].
        cbv zeta in Hl.
        destruct (negb (is_empty (normalizeUrl currentUrl h))
                  && isValidUrl (normalizeUrl currentUrl h) baseDomain) eqn:E; [|auto].
        apply set_add_In in Hl as [->|Hl]; [|auto].
        apply andb_true_iff in E as [E1 E2]. repeat split.
        * intros E. rewrite E in E1. discriminate.
        * assumption.
        * exists h. repeat split.
          -- apply in_or_app. right. now left.
          -- intros ->. discriminate.
  }
  destruct (H hrefs [] [] (NoDup_nil_2) (fun l (F : In l []) => False_ind _ F))
    as [H1 H2].
  split; [exact H1|exact H2].
Qed.

End LinkFacts.

Lemma X5_normalizeUrl_result_witness :
  let result := normalizeUrl "https://example.com/a/" "../b c?x=1#top" in
  (forall c, In c (lit result) -> c <> "?"%char /\ c <> "#"%char)
  /\ exists u, URL.new result None = Some u
               /\ URL.query u = None /\ URL.fragment u = None.
Proof.
  cbv zeta.
  apply (X5_normalizeUrl_result "https://example.com/a/" "../b c?x=1#top").
  vm_compute. discriminate.
Defined.

(** ** Further properties: the retry loop for any number of retries *)

Section RetryFacts.
Context (w : World).

Lemma fetchWithRetry_loop_spec url retries n : forall i,
  (i + n = S retries)%nat -> (0 < n)%nat ->
  exists k,
    (i <= k <= retries)%nat
    /\ (forall j, (i <= j < k)%nat -> fetch w url j = None)
    /\ (fetchWithRetry_loop w url retries n i).2 = fetch w url k
    /\ (fetch w url k = None -> k = retries)
    /\ (fetchWithRetry_loop w url retries n i).1
       = rejected_attempts url i (k - i) ++ [Fetch url k].
Proof.
  induction n as [|n IH]; intros i Hi Hn; [lia|]. simpl.
  destruct (fetch w url i) as [r|] eqn:E.
  - exists i. rewrite E, Nat.sub_diag. simpl.
    repeat split; try lia; try congruence; try (intros; lia).
  - destruct (Nat.eqb_spec i retries) as [->|Hne].
    + exists retries. rewrite E, Nat.sub_diag. simpl.
      repeat split; try lia; try congruence; try (intros; lia).
    + destruct (IH (S i) ltac:(lia) ltac:(lia)) as (k & Hk & Hrej & Hr & Hlast & Hes).
      destruct (fetchWithRetry_loop w url retries n (S i)) as [es r]. simpl in *.
      exists k. split; [lia|]. split; [|split; [assumption|split; [assumption|]]].
      * intros j Hj. destruct (Nat.eq_dec j i) as [->|]; [assumption|]. apply Hrej. lia.
      * replace (k - i)%nat with (S (k - S i)) by lia. simpl. now rewrite Hes.
Qed.

(** X7: for any number of retries, [fetchWithRetry] stops at the first
    attempt k that gets a response, or at attempt number [retries] when
    none does: its result is the outcome of attempt k, every attempt before
    k was rejected and followed by a pause of 1000 * (its number, from 1)
    ms, attempt k is the last event, and there are k + 1, at most
    [retries + 1], attempts; it returns null only when attempt number
    [retries] itself was rejected. *)
Theorem X7_fetchWithRetry_any_retries url retries :
  exists k,
    (k <= retries)%nat
    /\ (forall j, (j < k)%nat -> fetch w url j = None)
    /\ (fetchWithRetry w url retries).2 = fetch w url k
    /\ ((fetchWithRetry w url retries).2 = None -> k = retries)
    /\ (fetchWithRetry w url retries).1 = rejected_attempts url 0 k ++ [Fetch url k]
    /\ length (fetches (fetchWithRetry w url retries).1) = S k.
Proof.
  unfold fetchWithRetry.
  destruct (fetchWithRetry_loop_spec url retries (S retries) 0%nat ltac:(lia) ltac:(lia))
    as (k & Hk & Hrej & Hr & Hlast & Hes).
  exists k. rewrite Nat.sub_0_r in Hes.
  split; [lia|]. split; [intros; apply Hrej; lia|]. split; [assumption|].
  split; [rewrite Hr; assumption|]. split; [assumption|].
  rewrite Hes.
  assert (H : forall n i m,
             length (fetches (rejected_attempts url i n ++ [Fetch url m])) = S n).
  { clear. induction n as [|n IH]; intros i m; simpl; [reflexivity|].
    unfold fetches in *. simpl. now rewrite IH. }
  apply H.
Qed.

End RetryFacts.

(** ** Further properties: the log of a crawl *)

Section Calls.
Context (w : World) (options : CrawlOptions).

Lemma pending_waiting_calls p : pending p = length (waiting_calls p).
Proof.
  induction p as [r|path u d depth pause|node ps IH] using promise_ind';
    simpl; try reflexivity.
  induction IH as [|q qs Hq _ IHqs]; simpl; [reflexivity|].
  rewrite length_app. congruence.
Qed.

Lemma resume_in_calls ps :
  Forall (fun p => forall k st, (k < pending p)%nat ->
            resumes w options st (waiting_calls p)
              (resume w options k st p).1 (waiting_calls (resume w options k st p).2)) ps ->
  forall k st, (k < list_sum (map pending ps))%nat ->
    let r := resume_in (resume w options) pending k st ps in
    resumes w options st (flat_map waiting_calls ps) r.1 (flat_map waiting_calls r.2).
Proof.
  intros IH. induction IH as [|q qs IHq _ IHqs]; intros k st Hk; cbv zeta; simpl in *.
  - lia.
  - destruct (k <? pending q)%nat eqn:E.
    + apply Nat.ltb_lt in E. specialize (IHq k st E).
      destruct (resume w options k st q) as [st' q']. simpl in *.
      destruct IHq as (l1 & path & u & dom & d & pause & l2 & H1 & H2 & H3).
      exists l1, path, u, dom, d, pause, (l2 ++ flat_map waiting_calls qs).
      rewrite H1, H3, <- !app_assoc. simpl. auto.
    + apply Nat.ltb_ge in E.
      specialize (IHqs (k - pending q)%nat st ltac:(lia)). cbv zeta in IHqs.
      destruct (resume_in _ _ _ st qs) as [st' qs']. simpl in *.
      destruct IHqs as (l1 & path & u & dom & d & pause & l2 & H1 & H2 & H3).
      exists (waiting_calls q ++ l1), path, u, dom, d, pause, l2.
      rewrite H1, H3, <- !app_assoc. auto.
Qed.

(** A step of the event loop answers one waiting call and puts the calls
    it spawns in its place. *)
Lemma resume_calls p : forall k st,
  (k < pending p)%nat ->
  resumes w options st (waiting_calls p)
    (resume w options k st p).1 (waiting_calls (resume w options k st p).2).
Proof.
  induction p as [r|path u d depth pause|node ps IH] using promise_ind';
    intros k st Hk; simpl in *.
  - lia.
  - exists [], path, u, d, depth, pause, []. simpl. rewrite app_nil_r. auto.
  - pose proof (resume_in_calls ps IH k st Hk) as H. cbv zeta in H.
    destruct (resume_in _ _ _ st ps) as [st' ps']. exact H.
Qed.

Lemma spawn_children_spawned dom d links : forall st,
  (forall l, In l links -> isValidUrl l dom = true) ->
  let r := spawn_children options st dom d links in
  spawned options dom d st r.1 (flat_map waiting_calls r.2).
Proof.
  induction links as [|u links IH]; intros st Hv; cbv zeta; simpl.
  - repeat split; simpl; try reflexivity; try lia; try (left; reflexivity); constructor.
  - destruct (negb (bool_decide (u ∈ visited st)) && below (pageCount st) (maxPages options))
      eqn:E.
    2:{ apply IH. intros; apply Hv. now right. }
    apply andb_true_iff in E as [Hu Hp].
    apply negb_true_iff, bool_decide_eq_false in Hu.
    rewrite below_ceiling in Hp. apply Z.ltb_lt in Hp. fold (page_budget options) in Hp.
    destruct (crawlPage_outcome options st u dom (d + 1)) as [| | |? ? Hnew].
    1-3: specialize (IH st (fun l H => Hv l (or_intror H))); cbv zeta in IH;
         destruct (spawn_children options st dom d links) as [st2 ps]; exact IH.
    match goal with
    | |- context [spawn_children options ?s dom d links] =>
        specialize (IH s (fun l H => Hv l (or_intror H))); cbv zeta in IH;
        destruct (spawn_children options s dom d links) as [st2 ps]
    end.
    unfold spawned in *. cbn [fst snd visited pageCount trace flat_map waiting waiting_calls app length] in *.
    destruct IH as (H1 & H2 & H3 & H4 & H5 & H6).
    assert (Hfresh : forall x, In x (flat_map waiting (flat_map waiting_calls ps)) ->
                               x ∉ {[u]} ∪ visited st).
    { intros x Hx. apply in_flat_map in Hx as (c & Hc & Hx).
      rewrite List.Forall_forall in H6.
      destruct (H6 c Hc) as (link & pause & -> & _ & Hn & _). simpl in Hx.
      destruct Hx as [<-|[]]. exact Hn. }
    split; [assumption|]. split; [set_solver|]. split; [lia|]. split.
    { right. destruct H4 as [H4|H4]; [rewrite H4 in H3; simpl in H3|]; lia. }
    split.
    + constructor; [|assumption]. intros Hin. apply list_elem_of_In, Hfresh in Hin. set_solver.
    + constructor.
      * eexists u, _. split; [reflexivity|]. split; [apply Hv; now left|].
        split; [assumption|]. split; [set_solver|].
        intros Hpc. replace (1 <? pageCount st + 1)%Z with true; [apply andb_true_r|].
        symmetry. apply Z.ltb_lt. lia.
      * eapply Forall_impl; [exact H6|]. simpl.
        intros c (link & pause & -> & G1 & G2 & G3 & G4).
        exists link, pause. split; [reflexivity|]. split; [assumption|].
        split; [set_solver|]. split; [assumption|]. intros; apply G4; lia.
Qed.

Lemma spawned_refl dom d st : spawned options dom d st st [].
Proof.
  repeat split; simpl; try reflexivity; try lia; try (left; reflexivity); constructor.
Qed.

Lemma last_attempt_2 u :
  exists k, last_attempt w u k
            /\ (fetchWithRetry w u 2).1 = rejected_attempts u 0 k ++ [Fetch u k].
Proof.
  unfold fetchWithRetry.
  destruct (fetchWithRetry_loop_spec w u 2 3 0%nat ltac:(lia) ltac:(lia))
    as (k & Hk & Hrej & Hr & Hlast & Hes).
  exists k. rewrite Nat.sub_0_r in Hes. split; [|assumption].
  split; [lia|]. split; [intros; apply Hrej; lia|assumption].
Qed.

(** What a call does when its fetch is answered. *)
Lemma crawlPage_fetch_answered st path u dom d pause :
  let r := crawlPage_fetch w options st path u dom d pause in
  answered w options st u dom d pause r.1 (waiting_calls r.2).
Proof.
  cbv zeta. destruct (last_attempt_2 u) as (k & Hk & Hes).
  destruct (fetchWithRetry w u 2) as [es r] eqn:E. simpl in Hes. subst es.
  set (st1 := log (rejected_attempts u 0 k ++ [Fetch u k])
                (log (if pause then [Sleep (delay options)] else []) st)).
  assert (Hst1 : visited st1 = visited st /\ pageCount st1 = pageCount st
                 /\ trace st1 = trace st ++ call_log (delay options) pause u k).
  { repeat split. simpl. unfold call_log. now rewrite <- app_assoc. }
  destruct Hst1 as (V & P & T).
  assert (Hsettled : answered w options st u dom d pause st1 []).
  { exists k, st1. split; [exact Hk|]. split; [exact V|]. split; [exact P|].
    split; [exact T|]. apply spawned_refl. }
  destruct r as [response|].
  2:{ rewrite (crawlPage_fetch_no_response w options st path u dom d pause _ E).
      exact Hsettled. }
  destruct (ok response) eqn:Hok.
  2:{ rewrite (crawlPage_fetch_http_error w options st path u dom d pause _ _ E Hok).
      exact Hsettled. }
  destruct (includes "text/html" (default EmptyString (content_type response))) eqn:Hct.
  2:{ rewrite (crawlPage_fetch_not_html w options st path u dom d pause _ _ E Hok Hct).
      exact Hsettled. }
  destruct (text response) as [e|html] eqn:Htx.
  { rewrite (crawlPage_fetch_body_error w options st path u dom d pause _ _ e E Hok Hct Htx).
    exact Hsettled. }
  rewrite (crawlPage_fetch_html w options st path u dom d pause _ _ html E Hok Hct Htx).
  cbv zeta. fold st1. simpl.
  exists k, st1. split; [assumption|]. split; [assumption|]. split; [assumption|].
  split; [assumption|].
  apply spawn_children_spawned. intros l Hl. now apply collect_links_valid in Hl as [? _].
Qed.

Section Invariant.
Variable Inv : State -> list promise -> Prop.

Hypothesis Inv_step :
  forall st l1 path u dom d pause l2 st' cs,
    Inv st (l1 ++ AwaitFetch path u dom d pause :: l2) ->
    answered w options st u dom d pause st' cs ->
    Inv st' (l1 ++ cs ++ l2).

Lemma inv_run fuel : forall sched i st p,
  Inv st (waiting_calls p) ->
  let r := run w options fuel sched i st p in
  Inv r.1 (waiting_calls r.2).
Proof.
  induction fuel as [|fuel IH]; intros sched i st p H; cbv zeta; [exact H|].
  rewrite run_S. destruct (pending p) as [|n] eqn:Ep; [exact H|].
  assert (Hk : (sched i mod S n < pending p)%nat).
  { rewrite Ep. apply Nat.mod_upper_bound. lia. }
  destruct (resume_calls p _ st Hk) as (l1 & path & u & dom & d & pause & l2 & H1 & H2 & H3).
  destruct (resume w options (sched i mod S n) st p) as [st' p']. simpl in *.
  apply IH. rewrite H2, H3. rewrite H1 in H.
  eapply Inv_step; [exact H|]. apply crawlPage_fetch_answered.
Qed.

(** An invariant of the steps that holds when the root call has run its
    prefix holds, with no call waiting, of the state in which the crawl
    ends, and the log returned is the log of that state. *)
Lemma getRoutesFromPage_log sched input baseUrl t es :
  URL.new (start_url input) None = Some baseUrl ->
  Inv initial [] ->
  ((0 <= depth_limit options)%Z -> (0 < page_budget options)%Z ->
   Inv (mkState ({[URL.href baseUrl]} ∪ ∅) 1 [])
     [AwaitFetch (getPathFromUrl (URL.href baseUrl)) (URL.href baseUrl)
        (URL.hostname baseUrl) 0 false]) ->
  getRoutesFromPage w options sched input = Some (t, es) ->
  exists st, Inv st [] /\ trace st = es.
Proof.
  intros Hu H0 H1 Hget.
  rewrite (getRoutesFromPage_valid w options sched input baseUrl Hu) in Hget.
  cbv zeta in Hget.
  pose proof (run_completes w options sched (URL.href baseUrl) (URL.hostname baseUrl))
    as [Hp _]. cbv zeta in Hp.
  assert (Hroot : Inv (crawlPage options initial (URL.href baseUrl)
                         (URL.hostname baseUrl) 0).1
                    (waiting_calls (crawlPage options initial (URL.href baseUrl)
                                      (URL.hostname baseUrl) 0).2)).
  { destruct (crawlPage_outcome options initial (URL.href baseUrl)
                (URL.hostname baseUrl) 0); simpl; try assumption.
    rewrite andb_false_r. now apply H1. }
  pose proof (inv_run (Z.to_nat (page_budget options)) sched 0%nat _ _ Hroot) as H.
  cbv zeta in H.
  destruct (run w options _ sched 0 _ _) as [st p]. simpl in *.
  rewrite pending_waiting_calls in Hp. apply length_zero_iff_nil in Hp.
  rewrite Hp in H. exists st. split; [assumption|].
  destruct (settle p) as [[n|e]|]; now simplify_eq.
Qed.

End Invariant.

End Calls.

Section CrawlLog.
Context (w : World) (options : CrawlOptions).






Lemma crawl_log_snoc dl calls c :
  crawl_log dl (calls ++ [c])
  = crawl_log dl calls
    ++ call_log dl (match calls with [] => false | _ => (0 <? dl)%Z end) c.1 c.2.
Proof.
  destruct calls as [|c0 calls]; simpl.
  - now rewrite app_nil_r.
  - rewrite flat_map_app. simpl. now rewrite app_nil_r, app_assoc.
Qed.

(** *** Every request goes to the host of the start URL *)



(** *** No URL is fetched by two calls *)



(** *** The delay between the requests *)

Lemma paced_step st l1 path u dom d pause l2 st' cs :
  paced_inv w options st (l1 ++ AwaitFetch path u dom d pause :: l2) ->
  answered w options st u dom d pause st' cs ->
  paced_inv w options st' (l1 ++ cs ++ l2).
Proof.
  intros (Hpc & ss & Ht & Hss & Hcalls & Hone) (k & st1 & Hk & V & P & T & S).
  destruct S as (S1 & S2 & S3 & S4 & S5 & S6).
  assert (H1 : (1 <= pageCount st)%Z) by (apply Hpc; now destruct l1).
  apply Forall_app in Hcalls as [Hl1 Hc].
  inversion Hc as [|? ? (p0 & u0 & dom0 & d0 & E) Hl2]; subst.
  injection E as -> -> -> -> Epause.
  assert (Hlast : match ss ++ [(u0, k)] with
                  | [] => false
                  | _ => (0 <? delay options)%Z
                  end = (0 <? delay options)%Z) by (now destruct ss).
  assert (Hrest : forall l l',
             (length (l ++ AwaitFetch p0 u0 dom0 d0 pause :: l') <= 1)%nat -> l = [] /\ l' = []).
  { intros l l' H. rewrite length_app in H. simpl in H.
    destruct l, l'; simpl in H; try lia. auto. }
  split; [intros _; lia|].
  exists (ss ++ [(u0, k)]). split; [|split; [|split]].
  - rewrite S1, T, Ht, crawl_log_snoc, Epause. reflexivity.
  - apply Forall_app; split; [assumption|]. constructor; [exact Hk|constructor].
  - rewrite Hlast. apply Forall_app; split; [|apply Forall_app; split].
    + destruct ss as [|s ss]; [|exact Hl1].
      destruct (Hrest _ _ (Hone eq_refl)) as [-> _]. constructor.
    + eapply Forall_impl; [exact S6|].
      intros c (link & b & -> & _ & _ & _ & Hb). rewrite Hb by lia.
      eexists _, _, _, _. reflexivity.
    + destruct ss as [|s ss]; [|exact Hl2].
      destruct (Hrest _ _ (Hone eq_refl)) as [_ ->]. constructor.
  - intros E. now destruct ss.
Qed.

(** X10: the log of a crawl is the log of a sequence of calls of
    [crawlPage], each answered at an attempt that the retry loop allows.
    The call for the start URL does not pause; every other call sleeps
    [delay] ms before its first attempt when [delay] is positive, and does
    not sleep when it is not. *)
Theorem X10_log_of_a_crawl sched input t es :
  getRoutesFromPage w options sched input = Some (t, es) ->
  exists calls : list (string * nat),
    es = crawl_log (delay options) calls
    /\ Forall (fun c => last_attempt w c.1 c.2) calls.
Proof.
  intros Hget.
  destruct (URL.new (start_url input) None) as [baseUrl|] eqn:Hu.
  - destruct (getRoutesFromPage_log w options (paced_inv w options) paced_step
                sched input baseUrl t es Hu) as (st & H & <-); try assumption.
    + split; [congruence|]. exists []. repeat split; try constructor. simpl. lia.
    + intros _ _. split; [simpl; lia|]. exists []. split; [reflexivity|].
      split; [constructor|]. split; [|simpl; lia].
      constructor; [|constructor]. eexists _, _, _, _. reflexivity.
    + destruct H as (_ & ss & H1 & H2 & _). eauto.
  - rewrite (getRoutesFromPage_invalid w options sched input Hu) in Hget. simplify_eq.
    exists []. split; [reflexivity|constructor].
Qed.

End CrawlLog.



Lemma X10_log_of_a_crawl_witness :
  exists calls : list (string * nat),
    slash_log = crawl_log (delay one_level) calls
    /\ Forall (fun c => last_attempt slash_site c.1 c.2) calls.
Proof.
  apply (X10_log_of_a_crawl slash_site one_level first_waiting "example.com/a"
           slash_tree slash_log).
  vm_compute. reflexivity.
Defined.
